(** * Raven-Radio: the Talk Killer detection loop of [src/App.tsx]

    A shallow embedding of the detection-and-failover loop of the [App]
    component: the fallback rotation ([nextFallback], [triggerAutoSwitch]),
    the speech score computed by the interval callback, the hysteresis
    counter and cooldown check, and the detection effect that builds the
    audio graph and owns the interval.

    Beside the loop, the file models the bookkeeping that the same
    component keeps around it: the fallback and favourites lists, the
    search cache, and the parsing of now-playing metadata and of search
    results.

    Conventions.
    - A JavaScript [number] is a rational ([Q]): an integer or a setting
      is the number itself, and [>=] is [Qle_bool] with its arguments
      swapped.  The speech counter is the one number in which rounding
      accumulates from tick to tick: it holds the value of the code's
      double, its additions being rounded to binary64 ([round64],
      [doubleAdd]); [Binary64] replays them on the machine's doubles.  The
      score is kept as the quotient of its two integers.
    - [Date.now()] and array indices are integers ([Z]).
    - A [Uint8Array] is a [list byte].
    - [null] and [undefined] are [None].
    - Calls made to collaborators (React setters, the analyser, the timer)
      are recorded in a log of [Call]s next to the new state. *)

From Stdlib Require Import ZArith QArith Qround Qpower Qabs List String Bool Lia
  Lqa.
From Stdlib Require Import Strings.Byte.
From Stdlib Require Import Floats.PrimFloat.
From Stdlib Require Floats.FloatOps Floats.SpecFloat.
Import ListNotations.

Local Open Scope Z_scope.

(** ** Fallback rotation *)

Definition len {A : Type} (l : list A) : Z := Z.of_nat (List.length l).

(** [a[i]] for an integer [i]: [undefined] outside [0 .. length-1]. *)
Definition at_index {A : Type} (l : list A) (i : Z) : option A :=
  if i <? 0 then None else nth_error l (Z.to_nat i).

(** [Array.prototype.indexOf] on an array of strings: the first index whose
    element is strictly equal to the argument, [-1] when there is none. *)
Fixpoint indexOfFrom (i : Z) (l : list string) (x : string) : Z :=
  match l with
  | [] => -1
  | y :: l' => if String.eqb y x then i else indexOfFrom (i + 1) l' x
  end.

Definition indexOf (l : list string) (x : string) : Z := indexOfFrom 0 l x.

(** [nextFallback], lines 452-461.  [%] is the truncating remainder. *)
Definition nextFallback (fallbacks : list string) (currentId : string)
  : option string :=
  if len fallbacks =? 0 then None
  else
    let currentIndex := indexOf fallbacks currentId in
    if currentIndex =? -1 then at_index fallbacks 0
    else at_index fallbacks (Z.rem (currentIndex + 1) (len fallbacks)).

(** ** Speech score *)

Definition magnitude (value : byte) : Z := Z.of_N (Byte.to_N value).

(** [dataArray.reduce((acc, value) => acc + value, 0)]. *)
Definition sumBytes (dataArray : list byte) : Z :=
  fold_left (fun acc value => acc + magnitude value) dataArray 0.

(** Index resolution of [TypedArray.prototype.slice]: a negative index
    counts from the end, and the result is clamped to [0 .. length]. *)
Definition relativeIndex (length k : Z) : Z :=
  if k <? 0 then Z.max (length + k) 0 else Z.min k length.

(** [dataArray.slice(start, end)]: the elements from the resolved [start] up
    to, not including, the resolved [end]; empty when they cross. *)
Definition slice (dataArray : list byte) (start end_ : Z) : list byte :=
  let from := relativeIndex (len dataArray) start in
  let final := relativeIndex (len dataArray) end_ in
  firstn (Z.to_nat (final - from)) (skipn (Z.to_nat from) dataArray).

(** Lines 631-636: the band bounds, computed once when the loop starts. *)
Definition nyquistOf (sampleRate : Q) : Q := (sampleRate / 2)%Q.

Definition startIndexOf (sampleRate : Q) (length : Z) : Z :=
  Qfloor ((300 / nyquistOf sampleRate) * inject_Z length)%Q.

Definition endIndexOf (sampleRate : Q) (length : Z) : Z :=
  Z.min (length - 1)
        (Qfloor ((3000 / nyquistOf sampleRate) * inject_Z length)%Q).

(** Lines 654-658: [total], [mid] and [score] of one snapshot. *)
Definition scoreOf (startIndex endIndex : Z) (dataArray : list byte) : Q :=
  let total := sumBytes dataArray in
  let mid := sumBytes (slice dataArray startIndex endIndex) in
  if total =? 0 then 0%Q else (inject_Z mid / inject_Z total)%Q.

(** The score of a snapshot read through a context of the given sample rate:
    the bounds of lines 631-636 followed by lines 654-658. *)
Definition speechScoreOf (dataArray : list byte) (sampleRate : Q) : Q :=
  scoreOf (startIndexOf sampleRate (len dataArray))
          (endIndexOf sampleRate (len dataArray)) dataArray.

(** ** State of the component *)

Record TalkKillerSettings := mkSettings {
  enabled : bool;
  speechSeconds : Q;
  sensitivity : Q;
  cooldownSeconds : Q
}.

Definition defaultSettings : TalkKillerSettings :=
  mkSettings true 6 (6 # 10) 12.

(** The fields of [Station] that the modelled code reads. *)
Record Station := mkStation {
  id : string;
  name : string;
  url : string
}.

(** What the interval callback keeps from the effect run that created it:
    the band bounds and the length of [dataArray]. *)
Record Interval := mkInterval {
  startIndex : Z;
  endIndex : Z;
  dataArrayLength : Z
}.

(** The refs ([useRef]) and the state ([useState], [useLocalStorage]) that
    the detection loop reads or writes.  [audioContextRef] holds the sample
    rate of the context, [analyserRef] the [frequencyBinCount] of the
    analyser, [intervalRef] the live interval. *)
Record App := mkApp {
  audioContextRef : option Q;
  sourceRef : bool;
  analyserRef : option Z;
  intervalRef : option Interval;
  lastSwitchRef : Z;
  speechSecondsRef : Q;
  currentId : string;
  currentStation : option Station;
  isPlaying : bool;
  analysisBlocked : bool;
  speechScore : Q;
  speechLabel : string;
  fallbacks : list string;
  settings : TalkKillerSettings
}.

Definition with_audioContextRef (v : option Q) (s : App) : App :=
  mkApp v (sourceRef s) (analyserRef s) (intervalRef s) (lastSwitchRef s)
        (speechSecondsRef s) (currentId s) (currentStation s) (isPlaying s)
        (analysisBlocked s) (speechScore s) (speechLabel s) (fallbacks s)
        (settings s).

Definition with_sourceRef (v : bool) (s : App) : App :=
  mkApp (audioContextRef s) v (analyserRef s) (intervalRef s)
        (lastSwitchRef s) (speechSecondsRef s) (currentId s)
        (currentStation s) (isPlaying s) (analysisBlocked s) (speechScore s)
        (speechLabel s) (fallbacks s) (settings s).

Definition with_analyserRef (v : option Z) (s : App) : App :=
  mkApp (audioContextRef s) (sourceRef s) v (intervalRef s)
        (lastSwitchRef s) (speechSecondsRef s) (currentId s)
        (currentStation s) (isPlaying s) (analysisBlocked s) (speechScore s)
        (speechLabel s) (fallbacks s) (settings s).

Definition with_intervalRef (v : option Interval) (s : App) : App :=
  mkApp (audioContextRef s) (sourceRef s) (analyserRef s) v
        (lastSwitchRef s) (speechSecondsRef s) (currentId s)
        (currentStation s) (isPlaying s) (analysisBlocked s) (speechScore s)
        (speechLabel s) (fallbacks s) (settings s).

Definition with_lastSwitchRef (v : Z) (s : App) : App :=
  mkApp (audioContextRef s) (sourceRef s) (analyserRef s) (intervalRef s) v
        (speechSecondsRef s) (currentId s) (currentStation s) (isPlaying s)
        (analysisBlocked s) (speechScore s) (speechLabel s) (fallbacks s)
        (settings s).

Definition with_speechSecondsRef (v : Q) (s : App) : App :=
  mkApp (audioContextRef s) (sourceRef s) (analyserRef s) (intervalRef s)
        (lastSwitchRef s) v (currentId s) (currentStation s) (isPlaying s)
        (analysisBlocked s) (speechScore s) (speechLabel s) (fallbacks s)
        (settings s).

Definition with_currentId (v : string) (s : App) : App :=
  mkApp (audioContextRef s) (sourceRef s) (analyserRef s) (intervalRef s)
        (lastSwitchRef s) (speechSecondsRef s) v (currentStation s)
        (isPlaying s) (analysisBlocked s) (speechScore s) (speechLabel s)
        (fallbacks s) (settings s).

Definition with_currentStation (v : option Station) (s : App) : App :=
  mkApp (audioContextRef s) (sourceRef s) (analyserRef s) (intervalRef s)
        (lastSwitchRef s) (speechSecondsRef s) (currentId s) v (isPlaying s)
        (analysisBlocked s) (speechScore s) (speechLabel s) (fallbacks s)
        (settings s).

Definition with_isPlaying (v : bool) (s : App) : App :=
  mkApp (audioContextRef s) (sourceRef s) (analyserRef s) (intervalRef s)
        (lastSwitchRef s) (speechSecondsRef s) (currentId s)
        (currentStation s) v (analysisBlocked s) (speechScore s)
        (speechLabel s) (fallbacks s) (settings s).

Definition with_analysisBlocked (v : bool) (s : App) : App :=
  mkApp (audioContextRef s) (sourceRef s) (analyserRef s) (intervalRef s)
        (lastSwitchRef s) (speechSecondsRef s) (currentId s)
        (currentStation s) (isPlaying s) v (speechScore s) (speechLabel s)
        (fallbacks s) (settings s).

Definition with_speechScore (v : Q) (s : App) : App :=
  mkApp (audioContextRef s) (sourceRef s) (analyserRef s) (intervalRef s)
        (lastSwitchRef s) (speechSecondsRef s) (currentId s)
        (currentStation s) (isPlaying s) (analysisBlocked s) v
        (speechLabel s) (fallbacks s) (settings s).

Definition with_speechLabel (v : string) (s : App) : App :=
  mkApp (audioContextRef s) (sourceRef s) (analyserRef s) (intervalRef s)
        (lastSwitchRef s) (speechSecondsRef s) (currentId s)
        (currentStation s) (isPlaying s) (analysisBlocked s) (speechScore s)
        v (fallbacks s) (settings s).

Definition with_fallbacks (v : list string) (s : App) : App :=
  mkApp (audioContextRef s) (sourceRef s) (analyserRef s) (intervalRef s)
        (lastSwitchRef s) (speechSecondsRef s) (currentId s)
        (currentStation s) (isPlaying s) (analysisBlocked s) (speechScore s)
        (speechLabel s) v (settings s).

Definition with_settings (v : TalkKillerSettings) (s : App) : App :=
  mkApp (audioContextRef s) (sourceRef s) (analyserRef s) (intervalRef s)
        (lastSwitchRef s) (speechSecondsRef s) (currentId s)
        (currentStation s) (isPlaying s) (analysisBlocked s) (speechScore s)
        (speechLabel s) (fallbacks s) v.

(** Calls that the modelled code makes, in the order it makes them. *)
Inductive Call :=
| Call_getByteFrequencyData
| Call_setAnalysisBlocked (b : bool)
| Call_clearInterval
| Call_setInterval
| Call_setSpeechScore (score : Q)
| Call_setSpeechLabel (label : string)
| Call_triggerAutoSwitch
| Call_setCurrentId (next : string)
| Call_setupAudioGraph.

(** ** The interval callback *)

(** [triggerAutoSwitch], lines 580-587.  [!next] holds for [null] and for
    the empty string. *)
Definition triggerAutoSwitch (s : App) : App * list Call :=
  match nextFallback (fallbacks s) (currentId s) with
  | None => (s, [])
  | Some next =>
      if String.eqb next "" || String.eqb next (currentId s) then (s, [])
      else (with_currentId next s, [Call_setCurrentId next])
  end.

(** *** Addition of doubles

    [a + b] on two JavaScript numbers is the double nearest to the sum of
    their values, a tie going to the double whose last bit is 0.  A double
    is [m * 2 ^ e] for integers [m] and [e] with [|m| < 2 ^ 53] and
    [-1074 <= e]; sums beyond the largest double, where the browser stores
    [Infinity], are out of the reach of a counter that grows by [0.2] per
    tick. *)

Definition pow2 (e : Z) : Q := (2 ^ e)%Q.

(** The integer nearest to [q], the even one of the two when [q] lies
    half-way. *)
Definition roundHalfEven (q : Q) : Z :=
  let f := Qfloor q in
  match (q - inject_Z f ?= 1 # 2)%Q with
  | Lt => f
  | Gt => f + 1
  | Eq => if Z.even f then f else f + 1
  end.

(** For [0 < q], the [k] with [2 ^ k <= q < 2 ^ (k + 1)]. *)
Definition binade (q : Q) : Z :=
  let k := Z.log2 (Qnum q) - Z.log2 (Zpos (Qden q)) in
  if Qle_bool (pow2 k) q then k else k - 1.

(** The exponent of the last bit of the doubles around [q]: 53 bits from
    the leading one, and [-1074] for the subnormal numbers. *)
Definition ulpExponent (q : Q) : Z := Z.max (binade q - 52) (-1074).

Definition roundPositive (q : Q) : Q :=
  let e := ulpExponent q in
  (inject_Z (roundHalfEven (q / pow2 e)) * pow2 e)%Q.

(** The double nearest to [q], as a fraction in lowest terms. *)
Definition round64 (q : Q) : Q :=
  let r := Qred q in
  Qred (match (r ?= 0)%Q with
        | Eq => 0
        | Gt => roundPositive r
        | Lt => - roundPositive (- r)
        end)%Q.

Definition doubleAdd (a b : Q) : Q := round64 (a + b).

(** [const step = 0.2], line 663: the double nearest to [0.2], which is
    [0x1.999999999999ap-3]. *)
Definition step : Q := 3602879701896397 # 18014398509481984.

Definition labelOf (isSpeech : bool) : string :=
  if isSpeech then "Speech-ish"%string else "Music"%string.

(** [isSpeech], line 660. *)
Definition isSpeechOf (score : Q) (st : TalkKillerSettings) : bool :=
  Qle_bool (sensitivity st) score.

(** Lines 663-668: the update of [speechSecondsRef]; [+=] is the addition
    of doubles. *)
Definition accumulate (isSpeech : bool) (s : App) : App :=
  if isSpeech
  then with_speechSecondsRef (doubleAdd (speechSecondsRef s) step) s
  else with_speechSecondsRef 0%Q s.

(** The counter after [n] speech samples in a row. *)
Fixpoint accumulated (n : nat) (speechSeconds : Q) : Q :=
  match n with
  | O => speechSeconds
  | S n' => accumulated n' (doubleAdd speechSeconds step)
  end.

(** The two tests of lines 670 and 672, on the state left by [accumulate]. *)
Definition overThreshold (s : App) : bool :=
  Qle_bool (speechSeconds (settings s)) (speechSecondsRef s).

Definition cooldownElapsed (now : Z) (s : App) : bool :=
  Qle_bool (cooldownSeconds (settings s) * 1000)%Q
           (inject_Z (now - lastSwitchRef s)).

(** Lines 670-677. *)
Definition trigger (now : Z) (s : App) : App * list Call :=
  if overThreshold s then
    if cooldownElapsed now s then
      let s1 := with_lastSwitchRef now s in
      let s2 := with_speechSecondsRef 0%Q s1 in
      let (s3, calls) := triggerAutoSwitch s2 in
      (s3, Call_triggerAutoSwitch :: calls)
    else (s, [])
  else (s, []).

(** Lines 654-668: score, classification and the update of the counter. *)
Definition sample (iv : Interval) (dataArray : list byte) (s : App) : App :=
  let score := scoreOf (startIndex iv) (endIndex iv) dataArray in
  let isSpeech := isSpeechOf score (settings s) in
  accumulate isSpeech
    (with_speechLabel (labelOf isSpeech) (with_speechScore score s)).

(** The callback given to [setInterval], lines 638-678.  [read] is what
    [getByteFrequencyData] leaves in [dataArray], [None] when it throws;
    [now] is the value of [Date.now()]. *)
Definition tick (iv : Interval) (read : option (list byte)) (now : Z)
  (s : App) : App * list Call :=
  match analyserRef s with
  | None => (s, [])
  | Some _ =>
      match read with
      | None =>
          (with_intervalRef None (with_analysisBlocked true s),
           [Call_getByteFrequencyData; Call_setAnalysisBlocked true;
            Call_clearInterval])
      | Some dataArray =>
          let score := scoreOf (startIndex iv) (endIndex iv) dataArray in
          let (s3, calls) := trigger now (sample iv dataArray s) in
          (s3, [Call_getByteFrequencyData; Call_setSpeechScore score;
                Call_setSpeechLabel (labelOf (isSpeechOf score (settings s)))]
               ++ calls)
      end
  end.

(** ** The detection effect *)

(** Where [setupAudioGraph] throws, if it does. *)
Inductive SetupFault :=
| NoFault
| NewAudioContextThrows
| CreateMediaElementSourceThrows
| CreateAnalyserThrows
| ConnectThrows.

Definition SetupFault_eqb (a b : SetupFault) : bool :=
  match a, b with
  | NoFault, NoFault
  | NewAudioContextThrows, NewAudioContextThrows
  | CreateMediaElementSourceThrows, CreateMediaElementSourceThrows
  | CreateAnalyserThrows, CreateAnalyserThrows
  | ConnectThrows, ConnectThrows => true
  | _, _ => false
  end.

(** What the browser supplies to one run of the effects: where the graph
    setup fails, the sample rate of a new context, the result of
    [Hls.isSupported()], and whether [audio.canPlayType(hlsMimeType)] is a
    non-empty string. *)
Record World := mkWorld {
  fault : SetupFault;
  hardwareSampleRate : Q;
  hlsIsSupported : bool;
  canPlayHls : bool
}.

Inductive Outcome :=
| Returned (s : App)
| Threw (s : App).

Definition andThen (o : Outcome) (k : App -> Outcome) : Outcome :=
  match o with
  | Returned s => k s
  | Threw s => Threw s
  end.

Definition fftSize : Z := 2048.

(** [setupAudioGraph], lines 599-614: each ref is filled only when empty. *)
Definition setupAudioGraph (w : World) (s : App) : Outcome :=
  andThen
    (match audioContextRef s with
     | Some _ => Returned s
     | None =>
         if SetupFault_eqb (fault w) NewAudioContextThrows then Threw s
         else Returned (with_audioContextRef (Some (hardwareSampleRate w)) s)
     end)
    (fun s1 =>
  andThen
    (if sourceRef s1 then Returned s1
     else if SetupFault_eqb (fault w) CreateMediaElementSourceThrows
          then Threw s1
          else Returned (with_sourceRef true s1))
    (fun s2 =>
       match analyserRef s2 with
       | Some _ => Returned s2
       | None =>
           if SetupFault_eqb (fault w) CreateAnalyserThrows then Threw s2
           else
             let s3 := with_analyserRef (Some (fftSize / 2)) s2 in
             if SetupFault_eqb (fault w) ConnectThrows then Threw s3
             else Returned s3
       end)).

(** The body of the effect, lines 589-681.  The audio element is mounted. *)
Definition detectionEffect (w : World) (s : App) : App * list Call :=
  if negb (enabled (settings s)) || negb (isPlaying s) then
    match intervalRef s with
    | Some _ => (with_intervalRef None s, [Call_clearInterval])
    | None => (s, [])
    end
  else
    match setupAudioGraph w s with
    | Threw s1 =>
        (with_analysisBlocked true s1,
         [Call_setupAudioGraph; Call_setAnalysisBlocked true])
    | Returned s1 =>
        match analyserRef s1, audioContextRef s1 with
        | Some frequencyBinCount, Some sampleRate =>
            let iv := mkInterval (startIndexOf sampleRate frequencyBinCount)
                                 (endIndexOf sampleRate frequencyBinCount)
                                 frequencyBinCount in
            (with_intervalRef (Some iv) s1,
             [Call_setupAudioGraph; Call_setInterval])
        | _, _ => (s1, [Call_setupAudioGraph])
        end
    end.

(** The cleanup of the effect, lines 682-687. *)
Definition cleanup (s : App) : App * list Call :=
  match intervalRef s with
  | Some _ => (with_intervalRef None s, [Call_clearInterval])
  | None => (s, [])
  end.

(** A restart of the loop: the cleanup of the previous run, then the body. *)
Definition restart (w : World) (s : App) : App * list Call :=
  let (s1, c1) := cleanup s in
  let (s2, c2) := detectionEffect w s1 in
  (s2, c1 ++ c2).

(** ** Events and renders *)

(** What the loop reacts to: the timer, a click on a station of the
    directory or of the fallback list ([setCurrentId], lines 863 and 961),
    the [play] and [pause] events of the audio element, and the two
    controls of the Talk Killer panel.  [AudioPause] is [setIsPlaying(false)]:
    the handlers of the element's [error] event (line 326) and of a fatal
    hls.js error (line 296) write the same modelled state. *)
Inductive Event :=
| Tick (read : option (list byte)) (now : Z)
| SelectStation (stationId : string)
| AudioPlay
| AudioPause
| SetSettings (next : TalkKillerSettings)
| ToggleFallback (stationId : string).

(** [toggleFallback], lines 430-434. *)
Definition toggleFallback (stationId : string) (prev : list string)
  : list string :=
  if existsb (String.eqb stationId) prev
  then filter (fun id' => negb (String.eqb id' stationId)) prev
  else prev ++ [stationId].

(** The handler of an event.  A [Tick] reaches the callback only while the
    interval is live. *)
Definition handle (e : Event) (s : App) : App * list Call :=
  match e with
  | Tick read now =>
      match intervalRef s with
      | Some iv => tick iv read now s
      | None => (s, [])
      end
  | SelectStation stationId =>
      (with_currentId stationId s, [Call_setCurrentId stationId])
  | AudioPlay => (with_isPlaying true s, [])
  | AudioPause => (with_isPlaying false s, [])
  | SetSettings next => (with_settings next s, [])
  | ToggleFallback stationId =>
      (with_fallbacks (toggleFallback stationId (fallbacks s)) s, [])
  end.

(** The dependency list of the detection effect, line 688, compared the way
    React does: numbers and booleans by value, strings by content.  The
    [fallbacks] array is compared by identity: see [newFallbacksArray]. *)
Definition depsChanged (old new : App) : bool :=
  negb (Bool.eqb (enabled (settings old)) (enabled (settings new)))
  || negb (Qeq_bool (sensitivity (settings old)) (sensitivity (settings new)))
  || negb (Qeq_bool (speechSeconds (settings old))
                    (speechSeconds (settings new)))
  || negb (Qeq_bool (cooldownSeconds (settings old))
                    (cooldownSeconds (settings new)))
  || negb (Bool.eqb (isPlaying old) (isPlaying new))
  || negb (String.eqb (currentId old) (currentId new)).

(** [setFallbacks] always stores a freshly built array. *)
Definition newFallbacksArray (e : Event) : bool :=
  match e with
  | ToggleFallback _ => true
  | _ => false
  end.

(** The effect of lines 233-241, run when [currentId] changed. *)
Definition syncCurrentStation (stations : list Station) (old new : App)
  : App :=
  if String.eqb (currentId old) (currentId new) then new
  else if String.eqb (currentId new) "" then new
  else
    match find (fun item => String.eqb (id item) (currentId new)) stations with
    | Some station => with_currentStation (Some station) new
    | None => new
    end.

Definition urlOf (station : option Station) : option string :=
  option_map url station.

Definition option_string_eqb (a b : option string) : bool :=
  match a, b with
  | Some x, Some y => String.eqb x y
  | None, None => true
  | _, _ => false
  end.

(** [String.prototype.toLowerCase] on the bytes of a string: of the
    characters that it changes, only the capitals [A] to [Z] can yield a
    character of [".m3u8"]. *)
Definition lowerAscii (c : Ascii.ascii) : Ascii.ascii :=
  let n := Ascii.N_of_ascii c in
  if ((65 <=? n) && (n <=? 90))%N then Ascii.ascii_of_N (n + 32) else c.

Fixpoint toLowerCase (s : string) : string :=
  match s with
  | EmptyString => EmptyString
  | String c rest => String (lowerAscii c) (toLowerCase rest)
  end.

(** [s.includes(searchString)]. *)
Fixpoint includes (s searchString : string) : bool :=
  String.prefix searchString s
  || match s with
     | EmptyString => false
     | String _ rest => includes rest searchString
     end.

(** [isHlsUrl], line 73. *)
Definition isHlsUrl (url : string) : bool :=
  includes (toLowerCase url) ".m3u8".

(** The effect of lines 267-314 as far as it writes the modelled state:
    [setAnalysisBlocked(false)] (line 280) and, for an HLS stream that
    neither hls.js nor the audio element can play, [setIsPlaying(false)]
    (line 304).  It runs when [currentStation?.url] changed, in the render
    that follows [setCurrentStation], after the detection effect of the
    previous render.  The audio element is mounted, and [autoPlayNext],
    which only the search results set, stays [false]. *)
Definition loadStation (w : World) (old new : App) : App * list Call :=
  if option_string_eqb (urlOf (currentStation old)) (urlOf (currentStation new))
  then (new, [])
  else
    match currentStation new with
    | None => (new, [])
    | Some station =>
        let s1 := with_analysisBlocked false new in
        if isHlsUrl (url station)
           && negb (hlsIsSupported w) && negb (canPlayHls w)
        then (with_isPlaying false s1, [Call_setAnalysisBlocked false])
        else (s1, [Call_setAnalysisBlocked false])
    end.

(** The renders that follow [setCurrentStation]: the station effect, then
    the detection effect again when the station effect changed
    [isPlaying]. *)
Definition stationRenders (w : World) (old s3 : App) : App * list Call :=
  let (s4, c4) := loadStation w old s3 in
  let (s5, c5) := if depsChanged s3 s4 then restart w s4 else (s4, []) in
  (s5, c4 ++ c5).

(** One event, followed by the renders it causes: the effect of
    [currentId] and the detection effect, then the renders of the station
    effect.  The callback is recreated whenever a value it reads changes
    (line 688), so it is modelled as reading the current state. *)
Definition react (stations : list Station) (w : World) (e : Event) (s : App)
  : App * list Call :=
  let (s1, c1) := handle e s in
  let s2 := syncCurrentStation stations s s1 in
  let (s3, c3) :=
    if newFallbacksArray e || depsChanged s s1 then restart w s2
    else (s2, []) in
  let (s5, c5) := stationRenders w s s3 in
  (s5, c1 ++ c3 ++ c5).

Fixpoint run (stations : list Station) (es : list (World * Event)) (s : App)
  : App * list Call :=
  match es with
  | [] => (s, [])
  | (w, e) :: es' =>
      let (s1, c1) := react stations w e s in
      let (s2, c2) := run stations es' s1 in
      (s2, c1 ++ c2)
  end.

(** The state after the first render: line 142-158 and the stored
    [settings] and [fallbacks]. *)
Definition initialApp (stations : list Station) (st : TalkKillerSettings)
  (fb : list string) : App :=
  mkApp None false None None 0 0%Q
        (match stations with station :: _ => id station | [] => ""%string end)
        (match stations with station :: _ => Some station | [] => None end)
        false false 0%Q "Music"%string fb st.

(** Queries on a log of calls. *)
Definition isRead (c : Call) : bool :=
  match c with
  | Call_getByteFrequencyData => true
  | _ => false
  end.

Definition isSwitch (c : Call) : bool :=
  match c with
  | Call_setCurrentId _ => true
  | _ => false
  end.

Definition isFire (c : Call) : bool :=
  match c with
  | Call_triggerAutoSwitch => true
  | _ => false
  end.

Definition fired (calls : list Call) : bool := existsb isFire calls.
Definition switched (calls : list Call) : bool := existsb isSwitch calls.
Definition reads (calls : list Call) : nat :=
  List.length (filter isRead calls).

(** ** The score in the words of the specification *)

Definition magnitudeAt (dataArray : list byte) (i : nat) : Z :=
  match nth_error dataArray i with
  | Some value => magnitude value
  | None => 0
  end.

(** The sum of the magnitudes of the bins [i] with [lo <= i < hi]. *)
Definition rangeSum (dataArray : list byte) (lo hi : Z) : Z :=
  fold_right Z.add 0
    (map (magnitudeAt dataArray)
         (seq (Z.to_nat lo) (Z.to_nat hi - Z.to_nat lo))).

(** [i] is the position of the first occurrence of [x] in [l]. *)
Definition first_occurrence (l : list string) (x : string) (i : nat) : Prop :=
  nth_error l i = Some x /\ forall j, (j < i)%nat -> nth_error l j <> Some x.

Definition spec_score (dataArray : list byte) (sampleRateHz : Q) : Q :=
  let binCount := len dataArray in
  let nyquist := (sampleRateHz / 2)%Q in
  let startIndex := Qfloor (300 / nyquist * inject_Z binCount)%Q in
  let endIndex :=
    Z.min (binCount - 1) (Qfloor (3000 / nyquist * inject_Z binCount)%Q) in
  let mid := rangeSum dataArray startIndex endIndex in
  let total := rangeSum dataArray 0 binCount in
  if total =? 0 then 0%Q else (inject_Z mid / inject_Z total)%Q.

(** ** The counter in binary64

    The same update and threshold test on the machine's doubles, to compare
    [doubleAdd] with. *)

Module Binary64.

(** The value of a finite double. *)
Definition toQ (x : float) : option Q :=
  match FloatOps.Prim2SF x with
  | SpecFloat.S754_zero _ => Some 0%Q
  | SpecFloat.S754_finite negative m e =>
      Some (Qred ((if negative then - 1 else 1)
                  * inject_Z (Zpos m) * pow2 e))%Q
  | _ => None
  end.

(** [doubleAdd] gives the value of the machine's sum. *)
Definition sameSum (a b : float) : bool :=
  match toQ a, toQ b, toQ (a + b)%float with
  | Some x, Some y, Some z => Qeq_bool (doubleAdd x y) z
  | _, _, _ => false
  end.

(** Doubles of all sizes: zero, the counter's first values, the ends of a
    binade, integers around [2 ^ 53], subnormal numbers, and negatives. *)
Definition samples : list float :=
  [0; 0x1.999999999999ap-3; 0x1.999999999999ap-2; 0x1.3333333333333p-1;
   0x1.3333333333334p-1; 1; 0x1.7333333333333p+2; 0x1.fffffffffffffp-1;
   0x1p+52; 0x1.fffffffffffffp+52; 0x1p+53; 0x1.c6bf52634p+49;
   0x1p-1074; 0x1p-1022; 0x0.00000000007e8p-1022; 0x1.e240c9fbe76c9p+16;
   -0x1.999999999999ap-2; -1; -0x1p-1074; -0x1.999999999999ap-4]%float.

(** The double nearest to [0.2]. *)
Definition step : float := 0x1.999999999999ap-3%float.

Definition accumulate (isSpeech : bool) (speechSeconds : float) : float :=
  if isSpeech then (speechSeconds + step)%float else 0%float.

Definition overThreshold (threshold speechSeconds : float) : bool :=
  PrimFloat.leb threshold speechSeconds.

Fixpoint speechTicks (n : nat) (speechSeconds : float) : float :=
  match n with
  | O => speechSeconds
  | S n' => speechTicks n' (accumulate true speechSeconds)
  end.

End Binary64.

(** An event that is a successful read classified as speech by the
    interval [iv] under the settings [st]. *)
Definition speechTick (iv : Interval) (st : TalkKillerSettings)
  (we : World * Event) : Prop :=
  match snd we with
  | Tick (Some dataArray) _ =>
      isSpeechOf (scoreOf (startIndex iv) (endIndex iv) dataArray) st = true
  | _ => False
  end.

Definition isTick (we : World * Event) : Prop :=
  match snd we with
  | Tick _ _ => True
  | _ => False
  end.

(** ** A session used in the examples *)

Definition demoStations : list Station :=
  [mkStation "a" "Alpha" "http://alpha.example/stream";
   mkStation "b" "Beta" "http://beta.example/stream";
   mkStation "c" "Gamma" "http://gamma.example/stream"]%string.

Definition demoWorld : World := mkWorld NoFault 48000 true false.

(** A snapshot of [fftSize / 2] bins whose energy lies in bins 12 to 127,
    and one with the same energy in every bin. *)
Definition speechFrame : list byte :=
  repeat x00 12 ++ repeat xff 116 ++ repeat x00 896.

Definition musicFrame : list byte := repeat x10 1024.

Definition demoStart : App :=
  initialApp demoStations defaultSettings ["a"; "b"; "c"]%string.

(** The session after the audio element reported [play]. *)
Definition demoPlaying : App :=
  fst (react demoStations demoWorld AudioPlay demoStart).

Definition demoInterval : Interval := mkInterval 12 128 1024.

(** [n] speech ticks after [t0], one every 200 ms. *)
Definition speechTicks (t0 : Z) (n : nat) : list (World * Event) :=
  map (fun k => (demoWorld, Tick (Some speechFrame) (t0 + 200 * Z.of_nat k)))
      (seq 1 n).

(** A reading of the clock, in milliseconds since the epoch. *)
Definition demoEpoch : Z := 1700000000000.

Definition demoAfterFive : App :=
  fst (run demoStations (speechTicks demoEpoch 5) demoPlaying).

Definition demoNearThreshold : App :=
  fst (run demoStations (speechTicks demoEpoch 29) demoPlaying).

(** The session after two speech ticks, and the playing session with the
    smallest threshold that the panel offers (line 998). *)
Definition demoAfterTwo : App :=
  fst (run demoStations (speechTicks demoEpoch 2) demoPlaying).

Definition demoQuick : App :=
  fst (react demoStations demoWorld
         (SetSettings (mkSettings true 2 (6 # 10) 12)) demoPlaying).

(** A browser in which [createMediaElementSource] throws. *)
Definition faultyWorld : World :=
  mkWorld CreateMediaElementSourceThrows 48000 true false.

(** ** Definitions used by the further properties *)

(** The session after [k] calls of [triggerAutoSwitch]. *)
Fixpoint afterSwitches (k : nat) (s : App) : App :=
  match k with
  | O => s
  | S k' => fst (triggerAutoSwitch (afterSwitches k' s))
  end.

(** A directory with an HLS stream, and a browser that has neither hls.js
    support nor a native HLS player. *)
Definition hlsStations : list Station :=
  [mkStation "a" "Alpha" "http://alpha.example/stream";
   mkStation "h" "Eta" "https://eta.example/live/Playlist.M3U8?sid=1"]%string.

Definition noHlsWorld : World := mkWorld NoFault 48000 false false.

(** Whether the browser plays HLS, through hls.js or natively. *)
Definition playsHls (w : World) : bool := hlsIsSupported w || canPlayHls w.

(** A session of that browser on station "a" after 29 speech ticks, with
    the HLS station as its fallback. *)
Definition hlsNearThreshold : App :=
  fst (run hlsStations
         ((noHlsWorld, AudioPlay)
          :: map (fun k => (noHlsWorld,
                            Tick (Some speechFrame)
                                 (demoEpoch + 200 * Z.of_nat k)))
                 (seq 1 29))
         (initialApp hlsStations defaultSettings ["a"; "h"]%string)).

(** Whether the counter stays under [threshold] during [n] speech samples
    in a row, the starting value included. *)
Definition staysBelow (threshold : Q) (n : nat) (speechSeconds : Q) : bool :=
  forallb (fun k => negb (Qle_bool threshold (accumulated k speechSeconds)))
          (seq 0 (S n)).

(** A live interval belongs to an enabled, playing session whose audio
    graph is built. *)
Definition loopInvariant (s : App) : Prop :=
  intervalRef s <> None ->
  enabled (settings s) = true /\ isPlaying s = true
  /\ audioContextRef s <> None /\ sourceRef s = true
  /\ analyserRef s <> None.

(** The analyser has [fftSize / 2] bins, and a live interval carries the
    band bounds of the context's sample rate over those bins. *)
Definition graphInvariant (s : App) : Prop :=
  (forall bins, analyserRef s = Some bins -> bins = fftSize / 2)
  /\ (forall iv, intervalRef s = Some iv ->
       exists sampleRate,
         audioContextRef s = Some sampleRate
         /\ iv = mkInterval (startIndexOf sampleRate (fftSize / 2))
                            (endIndexOf sampleRate (fftSize / 2))
                            (fftSize / 2)).

(** ** Favourites (lines 5-47, 189-223, 388-428, 709-725) *)

(** The [Station] type of the directory, with all its fields. *)
Module Directory.

Record Station := mkStation {
  id : string;
  name : string;
  country : string;
  tags : list string;
  url : string;
  codec : string;
  metadataUrl : option string
}.

End Directory.

Module Search.

Record SearchStation := mkSearchStation {
  stationuuid : option string;
  name : string;
  country : string;
  tags : list string;
  url : string;
  codec : option string;
  bitrate : option Q
}.

End Search.

Module Favourite.

Inductive Source := local | search.

Record FavouriteStation := mkFavourite {
  key : string;
  name : string;
  country : option string;
  tags : option (list string);
  url : string;
  codec : option string;
  bitrate : option Q;
  stationuuid : option string;
  source : Source;
  localId : option string
}.

(** The stored value, typed [FavouriteStation[] | string[]]; what
    [JSON.parse] returned may also be no array at all. *)
Inductive Stored :=
| NotAnArray
| Ids (ids : list string)
| Items (items : list FavouriteStation).

(** The entry that lines 205-214 build for a station of the directory. *)
Definition ofLegacy (station : Directory.Station) : FavouriteStation :=
  mkFavourite (Directory.id station) (Directory.name station)
              (Some (Directory.country station))
              (Some (Directory.tags station)) (Directory.url station)
              (Some (Directory.codec station)) None None local
              (Some (Directory.id station)).

Definition findStation (stations : list Directory.Station) (id' : string)
  : option Directory.Station :=
  find (fun item => String.eqb (Directory.id item) id') stations.

(** [.map(...).filter(Boolean)] of lines 199-216. *)
Fixpoint legacyEntries (stations : list Directory.Station)
  (ids : list string) : list FavouriteStation :=
  match ids with
  | [] => []
  | id' :: rest =>
      match findStation stations id' with
      | Some station => ofLegacy station :: legacyEntries stations rest
      | None => legacyEntries stations rest
      end
  end.

(** [normalizedFavourites], lines 189-217. *)
Definition normalizedFavourites (stations : list Directory.Station)
  (favourites : Stored) : list FavouriteStation :=
  match favourites with
  | NotAnArray => []
  | Ids ids => legacyEntries stations ids
  | Items items => items
  end.

(** The effect of lines 219-223: a non-empty array of ids is replaced by
    its normalized form. *)
Definition migrate (stations : list Directory.Station) (favourites : Stored)
  : Stored :=
  match favourites with
  | Ids (_ :: _) => Items (normalizedFavourites stations favourites)
  | _ => favourites
  end.

(** [current] of lines 394-395 and 405-406: [normalized] is the
    [normalizedFavourites] of the render that created the handler.  [None]
    stands for the [TypeError] that [.some] and [.filter] raise on a value
    that is no array. *)
Definition currentList (normalized : list FavouriteStation) (prev : Stored)
  : option (list FavouriteStation) :=
  match prev with
  | NotAnArray => None
  | Ids [] => Some []
  | Ids (_ :: _) => Some normalized
  | Items items => Some items
  end.

Definition hasKey (key' : string) (items : list FavouriteStation) : bool :=
  existsb (fun item => String.eqb (key item) key') items.

(** The updater of [addFavourite], lines 392-401. *)
Definition addFavourite (normalized : list FavouriteStation)
  (station : FavouriteStation) (prev : Stored) : option Stored :=
  match currentList normalized prev with
  | None => None
  | Some favouritesList =>
      if hasKey (key station) favouritesList
      then Some (Items favouritesList)
      else Some (Items (station :: favouritesList))
  end.

(** The updater of [removeFavourite], lines 403-409. *)
Definition removeFavourite (normalized : list FavouriteStation)
  (key' : string) (prev : Stored) : option Stored :=
  match currentList normalized prev with
  | None => None
  | Some favouritesList =>
      Some (Items (filter (fun item => negb (String.eqb (key item) key'))
                          favouritesList))
  end.

(** [toggleFavourite], lines 411-428. *)
Definition toggleFavourite (normalized : list FavouriteStation)
  (station : Directory.Station) (prev : Stored) : option Stored :=
  let key' := Directory.id station in
  if hasKey key' normalized then removeFavourite normalized key' prev
  else
    addFavourite normalized
      (mkFavourite key' (Directory.name station)
                   (Some (Directory.country station))
                   (Some (Directory.tags station)) (Directory.url station)
                   (Some (Directory.codec station)) None
                   (Some (Directory.id station)) local
                   (Some (Directory.id station)))
      prev.

(** [getFavouriteKey] applied to a search station, lines 388-390: a search
    station has no [id]. *)
Definition getFavouriteKey (station : Search.SearchStation) : string :=
  match Search.stationuuid station with
  | Some uuid =>
      if negb (String.eqb uuid "") then uuid else Search.url station
  | None => Search.url station
  end.

(** [addSearchFavourite], lines 709-725; a station without key is
    ignored. *)
Definition addSearchFavourite (normalized : list FavouriteStation)
  (station : Search.SearchStation) (prev : Stored) : option Stored :=
  let key' := getFavouriteKey station in
  if String.eqb key' "" then Some prev
  else
    addFavourite normalized
      (mkFavourite key' (Search.name station) (Some (Search.country station))
                   (Some (Search.tags station)) (Search.url station)
                   (Search.codec station) (Search.bitrate station)
                   (Search.stationuuid station) search None)
      prev.

Definition keys (items : list FavouriteStation) : list string :=
  map key items.

End Favourite.

(** ** The search cache (lines 49-53, 225-231, 463-473, 486-492) *)

Module Cache.

Record SearchCacheEntry := mkEntry {
  key : string;
  results : list Search.SearchStation;
  cachedAt : Z
}.

(** The updater of [setSearchCache] in [updateSearchCache], lines 466-470;
    [now] is the value of [Date.now()]. *)
Definition updateSearchCache (key' : string)
  (results' : list Search.SearchStation) (now : Z)
  (prev : list SearchCacheEntry) : list SearchCacheEntry :=
  let filtered :=
    filter (fun entry => negb (String.eqb (key entry) key')) prev in
  let next := mkEntry key' results' now :: filtered in
  firstn 20 next.

(** A [Map<string, SearchStation[]>] as the list of its entries in
    insertion order: [set] replaces the value of a key that is present and
    appends a key that is not. *)
Definition CacheMap : Type := list (string * list Search.SearchStation).

Fixpoint mapSet (k : string) (v : list Search.SearchStation) (m : CacheMap)
  : CacheMap :=
  match m with
  | [] => [(k, v)]
  | (k', v') :: m' =>
      if String.eqb k' k then (k', v) :: m' else (k', v') :: mapSet k v m'
  end.

Fixpoint mapGet (k : string) (m : CacheMap)
  : option (list Search.SearchStation) :=
  match m with
  | [] => None
  | (k', v') :: m' => if String.eqb k' k then Some v' else mapGet k m'
  end.

(** The effect of lines 225-231: the map is rebuilt from the stored list. *)
Definition rebuild (searchCache : list SearchCacheEntry) : CacheMap :=
  fold_left (fun cacheMap entry => mapSet (key entry) (results entry) cacheMap)
            searchCache [].

Definition keys (entries : list SearchCacheEntry) : list string :=
  map key entries.

End Cache.

(** ** Values parsed from JSON (lines 113-134, 518-552) *)

Local Set Warnings "-register-all".

Inductive JSON :=
| JNull
| JBool (b : bool)
| JNumber (q : Q)
| JString (s : string)
| JArray (items : list JSON)
| JObject (members : list (string * JSON)).

(** The member of a key in a parsed object; of two members with one key
    [JSON.parse] keeps the later. *)
Fixpoint member (k : string) (members : list (string * JSON)) : option JSON :=
  match members with
  | [] => None
  | (k', v) :: rest =>
      match member k rest with
      | Some later => Some later
      | None => if String.eqb k' k then Some v else None
      end
  end.

(** [value.k] for a value that is not [null] and a key that no prototype
    defines: [undefined] unless the value is an object with that member. *)
Definition property (value : JSON) (k : string) : option JSON :=
  match value with
  | JObject members => member k members
  | _ => None
  end.

(** [typeof value.k === 'string' ? value.k : undefined]. *)
Definition stringProperty (value : JSON) (k : string) : option string :=
  match property value k with
  | Some (JString s) => Some s
  | _ => None
  end.

(** A call that returns a value or raises a [TypeError]. *)
Inductive Attempt (A : Type) :=
| Returns (a : A)
| ThrowsTypeError.

Arguments Returns {A} a.
Arguments ThrowsTypeError {A}.

(** Lines 127-133 of [extractMetadata]. *)
Definition stationLevelMetadata (record : JSON) (stationName : string)
  : string :=
  match stringProperty record "now_playing" with
  | Some s => s
  | None =>
      match stringProperty record "title" with
      | Some s => s
      | None => ("Streaming " ++ stationName)%string
      end
  end.

(** [extractMetadata], lines 113-134.  Reading a property of a first
    channel that is [null] raises a [TypeError]. *)
Definition extractMetadata (data : JSON) (stationName : string)
  : Attempt (option string) :=
  match data with
  | JObject _ | JArray _ =>
      match property data "channels" with
      | Some (JArray (JNull :: _)) => ThrowsTypeError
      | Some (JArray (channel :: _)) =>
          match stringProperty channel "lastPlaying" with
          | Some s => Returns (Some s)
          | None =>
              match stringProperty channel "title" with
              | Some s => Returns (Some s)
              | None => Returns (Some (stationLevelMetadata data stationName))
              end
          end
      | _ => Returns (Some (stationLevelMetadata data stationName))
      end
  | _ => Returns None
  end.

(** What [loadMetadata] stores, lines 364-377, given what the fetch and
    [response.json()] produced ([None] when either failed), and what the
    header shows, line 754. *)
Definition loadMetadata (response : option JSON) (stationName : string)
  : option string :=
  match response with
  | Some data =>
      match extractMetadata data stationName with
      | Returns parsed => parsed
      | ThrowsTypeError => None
      end
  | None => None
  end.

Definition shownMetadata (metadata : option string) : string :=
  match metadata with
  | Some text => text
  | None => "Metadata not available"%string
  end.

(** The first channel of a response, when [channels] is a non-empty
    array, and the first candidate that is a string. *)
Definition firstChannel (data : JSON) : option JSON :=
  match property data "channels" with
  | Some (JArray (channel :: _)) => Some channel
  | _ => None
  end.

Fixpoint firstOf (candidates : list (option string)) (fallback : string)
  : string :=
  match candidates with
  | [] => fallback
  | Some text :: _ => text
  | None :: rest => firstOf rest fallback
  end.

(** ** Search results (lines 518-552) *)

(** The character [,], code 44. *)
Definition comma : Ascii.ascii :=
  Ascii.Ascii false false true true false true false false.

(** [s.split(',')]. *)
Fixpoint splitComma (s : string) : list string :=
  match s with
  | EmptyString => [EmptyString]
  | String c rest =>
      if Ascii.eqb c comma then EmptyString :: splitComma rest
      else
        match splitComma rest with
        | piece :: pieces => String c piece :: pieces
        | [] => [String c EmptyString]
        end
  end.

Section SearchResults.

(** [String.prototype.trim], left abstract. *)
Variable trim : string -> string.

Definition nonEmpty (s : string) : bool := negb (String.eqb s "").

(** The body of the callback of [data.map], lines 522-549, for an item
    that is not [null]: [None] is the [null] that [filter] removes. *)
Definition parseRecord (record : JSON) : option Search.SearchStation :=
  let nameValue :=
    match stringProperty record "name" with
    | Some s => trim s
    | None => ""%string
    end in
  let urlValue :=
    match stringProperty record "url_resolved" with
    | Some s => s
    | None =>
        match stringProperty record "url" with
        | Some s => s
        | None => ""%string
        end
    end in
  if negb (nonEmpty nameValue) || negb (nonEmpty urlValue) then None
  else
    let tagsValue :=
      match stringProperty record "tags" with
      | Some s => filter nonEmpty (map trim (splitComma s))
      | None => []
      end in
    Some (Search.mkSearchStation
            (stringProperty record "stationuuid")
            nameValue
            (match stringProperty record "country" with
             | Some s => s
             | None => "Unknown"%string
             end)
            tagsValue
            urlValue
            (stringProperty record "codec")
            (match property record "bitrate" with
             | Some (JNumber q) => Some q
             | _ => None
             end)).

(** The callback of [data.map], lines 521-550: reading a property of an
    item that is [null] raises a [TypeError]. *)
Definition parseItem (item : JSON) : Attempt (option Search.SearchStation) :=
  match item with
  | JNull => ThrowsTypeError
  | record => Returns (parseRecord record)
  end.

(** [.map(...).filter(...)] over the items, in order. *)
Fixpoint parseItems (items : list JSON)
  : Attempt (list Search.SearchStation) :=
  match items with
  | [] => Returns []
  | item :: rest =>
      match parseItem item with
      | ThrowsTypeError => ThrowsTypeError
      | Returns parsed =>
          match parseItems rest with
          | ThrowsTypeError => ThrowsTypeError
          | Returns stations =>
              Returns (match parsed with
                       | Some station => station :: stations
                       | None => stations
                       end)
          end
      end
  end.

(** [results] of lines 519-552. *)
Definition parseResults (data : JSON) : Attempt (list Search.SearchStation) :=
  match data with
  | JArray items => parseItems items
  | _ => Returns []
  end.

End SearchResults.

(** A tick whose clock reads less than [window] milliseconds after
    [last]. *)
Definition tickWithin (last : Z) (window : Q) (we : World * Event) : Prop :=
  match snd we with
  | Tick _ now => (inject_Z (now - last) < window)%Q
  | _ => False
  end.

(** * Properties *)

(** Case analysis on the innermost scrutinee of the goal. *)
Ltac split_match :=
  match goal with
  | |- context [match ?x with _ => _ end] =>
      lazymatch x with
      | context [match _ with _ => _ end] => fail
      | _ => destruct x eqn:?
      end
  end.

Ltac split_matches := repeat (cbn; split_match).

(** ** Fallback rotation *)

Section RotationFacts.

Lemma indexOfFrom_absent (l : list string) (x : string) (i : Z) :
  ~ In x l -> indexOfFrom i l x = -1.
Proof.
  revert i; induction l as [|y l IH]; intros i Hn; simpl; [reflexivity|].
  destruct (String.eqb_spec y x) as [->|Hne].
  - exfalso; apply Hn; now left.
  - apply IH; intro H; apply Hn; now right.
Qed.

Lemma indexOfFrom_first (l : list string) (x : string) (i : nat) (k : Z) :
  first_occurrence l x i -> indexOfFrom k l x = k + Z.of_nat i.
Proof.
  revert i k; induction l as [|y l IH]; intros i k [Hi Hmin].
  - destruct i; discriminate.
  - simpl. destruct i as [|i].
    + simpl in Hi. injection Hi as ->. rewrite String.eqb_refl. lia.
    + destruct (String.eqb_spec y x) as [->|Hne].
      * exfalso. apply (Hmin 0%nat); [lia | reflexivity].
      * rewrite (IH i (k + 1)); [lia|]. split; [exact Hi|].
        intros j Hj. apply (Hmin (S j)). lia.
Qed.

Lemma at_index_nat {A : Type} (l : list A) (n : nat) :
  at_index l (Z.of_nat n) = nth_error l n.
Proof.
  unfold at_index. destruct (Z.ltb_spec (Z.of_nat n) 0); [lia|].
  now rewrite Nat2Z.id.
Qed.

Lemma len_nonempty {A : Type} (l : list A) :
  l <> [] -> (len l =? 0) = false.
Proof.
  intro H. destruct l; [congruence|]. unfold len; simpl List.length.
  apply Z.eqb_neq; lia.
Qed.

Lemma first_occurrence_lt (l : list string) (x : string) (i : nat) :
  first_occurrence l x i -> (i < List.length l)%nat.
Proof.
  intros [Hi _]. apply nth_error_Some. congruence.
Qed.

(** C3. [nextFallback] returns [null] on an empty list, the first element
    when the current id is absent, and otherwise the element that follows
    the first occurrence of the current id, wrapping around at the end;
    on ["a";"b";"c"] it maps "b" to "c", "c" to "a" and "z" to "a". *)
Theorem nextFallback_rotation :
  (forall currentId, nextFallback [] currentId = None)
  /\ (forall first rest currentId,
        ~ In currentId (first :: rest) ->
        nextFallback (first :: rest) currentId = Some first)
  /\ (forall fallbacks currentId i,
        first_occurrence fallbacks currentId i ->
        nextFallback fallbacks currentId
        = nth_error fallbacks ((i + 1) mod List.length fallbacks)%nat
        /\ exists next, nextFallback fallbacks currentId = Some next)
  /\ nextFallback ["a"; "b"; "c"]%string "b"%string = Some "c"%string
  /\ nextFallback ["a"; "b"; "c"]%string "c"%string = Some "a"%string
  /\ nextFallback ["a"; "b"; "c"]%string "z"%string = Some "a"%string.
Proof.
  split; [reflexivity|].
  split.
  { intros first rest currentId Hn. unfold nextFallback.
    rewrite len_nonempty by discriminate.
    unfold indexOf. rewrite indexOfFrom_absent by exact Hn. reflexivity. }
  split; [|repeat split; reflexivity].
  intros fallbacks currentId i Hfirst.
  pose proof (first_occurrence_lt _ _ _ Hfirst) as Hlt.
  assert (Hne : fallbacks <> []) by (intros ->; simpl in Hlt; lia).
  assert (Heq : nextFallback fallbacks currentId
                = nth_error fallbacks ((i + 1) mod List.length fallbacks)%nat).
  { unfold nextFallback. rewrite len_nonempty by exact Hne.
    unfold indexOf. rewrite (indexOfFrom_first _ _ i 0 Hfirst).
    destruct (Z.eqb_spec (0 + Z.of_nat i) (-1)) as [E|_]; [lia|].
    rewrite Z.rem_mod_nonneg by (unfold len; lia).
    unfold len.
    replace (0 + Z.of_nat i + 1) with (Z.of_nat (i + 1)) by lia.
    rewrite <- Nat2Z.inj_mod. apply at_index_nat. }
  split; [exact Heq|].
  rewrite Heq.
  destruct (nth_error fallbacks ((i + 1) mod List.length fallbacks)%nat)
    as [next|] eqn:E.
  - now exists next.
  - apply nth_error_None in E.
    pose proof (Nat.mod_upper_bound (i + 1) (List.length fallbacks)).
    lia.
Qed.

(** The hypothesis of the third part of [nextFallback_rotation] is met by
    the second element of a list of three. *)
Lemma nextFallback_rotation_witness :
  nextFallback ["a"; "b"; "c"]%string "b"%string
  = nth_error ["a"; "b"; "c"]%string 2.
Proof.
  destruct nextFallback_rotation as (_ & _ & H & _).
  apply (H ["a"; "b"; "c"]%string "b"%string 1%nat).
  split; [reflexivity|].
  intros j Hj. destruct j as [|j]; [discriminate | lia].
Defined.

End RotationFacts.

(** ** Speech score *)

Section ScoreFacts.

Lemma magnitude_nonneg (value : byte) : 0 <= magnitude value.
Proof. unfold magnitude. lia. Qed.

Lemma magnitude_byte (value : byte) : magnitude value <= 255.
Proof.
  destruct value; vm_compute; discriminate.
Qed.

Lemma sumBytes_from (l : list byte) (a : Z) :
  fold_left (fun acc value => acc + magnitude value) l a
  = a + fold_right Z.add 0 (map magnitude l).
Proof.
  revert a; induction l as [|x l IH]; intro a; simpl; [lia|].
  rewrite IH. lia.
Qed.

Lemma sumBytes_map (l : list byte) :
  sumBytes l = fold_right Z.add 0 (map magnitude l).
Proof. unfold sumBytes. now rewrite sumBytes_from. Qed.

Lemma sumBytes_cons (x : byte) (l : list byte) :
  sumBytes (x :: l) = magnitude x + sumBytes l.
Proof. rewrite !sumBytes_map. reflexivity. Qed.

Lemma sumBytes_nonneg (l : list byte) : 0 <= sumBytes l.
Proof.
  induction l as [|x l IH]; [unfold sumBytes; simpl; lia|].
  rewrite sumBytes_cons. pose proof (magnitude_nonneg x). lia.
Qed.

Lemma sumBytes_firstn (n : nat) (l : list byte) :
  sumBytes (firstn n l) <= sumBytes l.
Proof.
  revert n; induction l as [|x l IH]; intro n.
  - rewrite firstn_nil. lia.
  - destruct n as [|n]; simpl firstn.
    + pose proof (sumBytes_nonneg (x :: l)). unfold sumBytes at 1. simpl. lia.
    + rewrite !sumBytes_cons. specialize (IH n). lia.
Qed.

Lemma sumBytes_skipn (n : nat) (l : list byte) :
  sumBytes (skipn n l) <= sumBytes l.
Proof.
  revert n; induction l as [|x l IH]; intro n.
  - rewrite skipn_nil. lia.
  - destruct n as [|n]; simpl skipn; [lia|].
    rewrite sumBytes_cons. specialize (IH n).
    pose proof (magnitude_nonneg x). lia.
Qed.

Lemma slice_sum_bounds (l : list byte) (start end_ : Z) :
  0 <= sumBytes (slice l start end_) <= sumBytes l.
Proof.
  unfold slice. split; [apply sumBytes_nonneg|].
  etransitivity; [apply sumBytes_firstn | apply sumBytes_skipn].
Qed.

Lemma ratio_in_unit (mid total : Z) :
  0 <= mid <= total -> total <> 0 ->
  (0 <= inject_Z mid / inject_Z total <= 1)%Q.
Proof.
  intros [H0 H1] Hne.
  assert (Hpos : (0 < inject_Z total)%Q).
  { replace 0%Q with (inject_Z 0) by reflexivity.
    rewrite <- Zlt_Qlt. lia. }
  split.
  - apply Qle_shift_div_l; [exact Hpos|].
    rewrite Qmult_0_l. replace 0%Q with (inject_Z 0) by reflexivity.
    rewrite <- Zle_Qle. exact H0.
  - apply Qle_shift_div_r; [exact Hpos|].
    rewrite Qmult_1_l. rewrite <- Zle_Qle. exact H1.
Qed.

(** Whatever the bounds, the score is zero on a silent snapshot and is
    otherwise a quotient of two integers [0 <= mid <= total], [0 < total]. *)
Lemma scoreOf_unit (startIndex endIndex : Z) (dataArray : list byte) :
  (0 <= scoreOf startIndex endIndex dataArray <= 1)%Q.
Proof.
  unfold scoreOf.
  destruct (Z.eqb_spec (sumBytes dataArray) 0) as [E|E]; [lra|].
  apply ratio_in_unit; [apply slice_sum_bounds | exact E].
Qed.

(** C8. For every snapshot of bytes and every sample rate the score lies
    in [0, 1]; the division is reached only with a non-zero total, so the
    value is an ordinary number. *)
Theorem speechScore_in_unit_interval (dataArray : list byte) (sampleRate : Q) :
  (0 <= speechScoreOf dataArray sampleRate <= 1)%Q
  /\ (sumBytes dataArray = 0 -> speechScoreOf dataArray sampleRate = 0%Q)
  /\ (sumBytes dataArray <> 0 ->
      0 < sumBytes dataArray
      /\ exists mid, 0 <= mid <= sumBytes dataArray
         /\ speechScoreOf dataArray sampleRate
            = (inject_Z mid / inject_Z (sumBytes dataArray))%Q).
Proof.
  split; [apply scoreOf_unit|].
  unfold speechScoreOf, scoreOf. split.
  - intros ->. reflexivity.
  - intro Hne. split; [pose proof (sumBytes_nonneg dataArray); lia|].
    eexists. split; [apply slice_sum_bounds|].
    destruct (Z.eqb_spec (sumBytes dataArray) 0) as [E|_]; [contradiction|].
    reflexivity.
Qed.

Lemma speechScore_in_unit_interval_witness :
  0 < sumBytes [x10; xff; x00; x20].
Proof.
  destruct (speechScore_in_unit_interval [x10; xff; x00; x20] 48000)
    as (_ & _ & H).
  apply H. discriminate.
Defined.

Lemma magnitudeAt_nil_sum (lo n : nat) :
  fold_right Z.add 0 (map (magnitudeAt []) (seq lo n)) = 0.
Proof.
  revert lo; induction n as [|n IH]; intro lo; simpl; [reflexivity|].
  rewrite IH. unfold magnitudeAt. now destruct lo.
Qed.

Lemma magnitudeAt_shift (x : byte) (l : list byte) (lo n : nat) :
  fold_right Z.add 0 (map (magnitudeAt (x :: l)) (seq (S lo) n))
  = fold_right Z.add 0 (map (magnitudeAt l) (seq lo n)).
Proof.
  rewrite <- seq_shift, map_map. reflexivity.
Qed.

(** A window cut with [skipn] and [firstn] sums the bins it covers. *)
Lemma window_sum (l : list byte) (lo n : nat) :
  sumBytes (firstn n (skipn lo l))
  = fold_right Z.add 0 (map (magnitudeAt l) (seq lo n)).
Proof.
  revert lo n; induction l as [|x l IH]; intros lo n.
  - rewrite skipn_nil, firstn_nil, magnitudeAt_nil_sum. reflexivity.
  - destruct lo as [|lo].
    + destruct n as [|n]; [reflexivity|].
      change (skipn 0 (x :: l)) with (x :: l).
      cbn [firstn seq map fold_right].
      rewrite sumBytes_cons, magnitudeAt_shift.
      specialize (IH 0%nat n). rewrite skipn_O in IH. rewrite IH.
      reflexivity.
    + cbn [skipn]. rewrite magnitudeAt_shift. apply IH.
Qed.

Lemma rangeSum_all (l : list byte) : rangeSum l 0 (len l) = sumBytes l.
Proof.
  unfold rangeSum, len. rewrite Nat2Z.id. simpl Z.to_nat.
  rewrite Nat.sub_0_r, <- window_sum, skipn_O, firstn_all. reflexivity.
Qed.

(** Within [0 <= lo] and [0 <= hi <= length], [slice] is the half-open
    range of the specification. *)
Lemma slice_rangeSum (l : list byte) (lo hi : Z) :
  0 <= lo -> 0 <= hi <= len l ->
  sumBytes (slice l lo hi) = rangeSum l lo hi.
Proof.
  intros Hlo [Hhi0 Hhi]. unfold slice, rangeSum, relativeIndex.
  destruct (Z.ltb_spec lo 0) as [?|_]; [lia|].
  destruct (Z.ltb_spec hi 0) as [?|_]; [lia|].
  rewrite (Z.min_l hi) by exact Hhi.
  destruct (Z.le_gt_cases lo (len l)) as [Hle|Hgt].
  - rewrite Z.min_l by exact Hle. rewrite window_sum.
    f_equal. f_equal. f_equal. lia.
  - rewrite Z.min_r by lia.
    replace (Z.to_nat (hi - len l)) with 0%nat by lia.
    replace (Z.to_nat hi - Z.to_nat lo)%nat with 0%nat by lia.
    reflexivity.
Qed.

Lemma band_floor_nonneg (frequencyHz sampleRate : Q) (length : Z) :
  (0 <= frequencyHz)%Q -> (0 < sampleRate)%Q -> 0 <= length ->
  0 <= Qfloor ((frequencyHz / nyquistOf sampleRate) * inject_Z length)%Q.
Proof.
  intros Hf Hs Hl. change 0 with (Qfloor 0). apply Qfloor_resp_le.
  apply Qmult_le_0_compat.
  - apply Qle_shift_div_l.
    + unfold nyquistOf. apply Qlt_shift_div_l; lra.
    + lra.
  - replace 0%Q with (inject_Z 0) by reflexivity. now rewrite <- Zle_Qle.
Qed.

(** C4. For every snapshot and positive sample rate the score computed by
    the code is the score of the specification: [mid/total] with [mid] the
    sum over the bins [startIndex <= i < endIndex], [total] the sum over all
    bins, the bounds as stated, and [0] when [total] is [0]. *)
Theorem speechScore_refines_spec (dataArray : list byte) (sampleRate : Q) :
  (0 < sampleRate)%Q ->
  speechScoreOf dataArray sampleRate = spec_score dataArray sampleRate
  /\ (rangeSum dataArray 0 (len dataArray) = 0 ->
      speechScoreOf dataArray sampleRate = 0%Q).
Proof.
  intro Hs.
  assert (Heq : speechScoreOf dataArray sampleRate
                = spec_score dataArray sampleRate).
  { unfold speechScoreOf, spec_score, scoreOf.
    rewrite rangeSum_all.
    destruct (Z.eqb_spec (sumBytes dataArray) 0) as [E|E]; [reflexivity|].
    fold (nyquistOf sampleRate).
    fold (startIndexOf sampleRate (len dataArray)).
    fold (endIndexOf sampleRate (len dataArray)).
    destruct dataArray as [|x l]; [exfalso; apply E; reflexivity|].
    rewrite slice_rangeSum; [reflexivity| |].
    - apply band_floor_nonneg; [lra | exact Hs | unfold len; lia].
    - unfold endIndexOf. split.
      + apply Z.min_glb; [unfold len; simpl List.length; lia|].
        apply band_floor_nonneg; [lra | exact Hs | unfold len; lia].
      + pose proof (Z.le_min_l (len (x :: l) - 1)
          (Qfloor ((3000 / nyquistOf sampleRate)
                   * inject_Z (len (x :: l)))%Q)). lia. }
  split; [exact Heq|].
  intro H0. rewrite Heq. unfold spec_score. rewrite H0. reflexivity.
Qed.

Lemma speechScore_refines_spec_witness :
  speechScoreOf [x10; xff; x00; x20] 48000
  = spec_score [x10; xff; x00; x20] 48000.
Proof.
  apply (speechScore_refines_spec [x10; xff; x00; x20] 48000).
  reflexivity.
Defined.

End ScoreFacts.

(** ** Addition of doubles *)

Section RoundingFacts.

Lemma pow2_pos (e : Z) : (0 < pow2 e)%Q.
Proof. apply Qpower_0_lt. reflexivity. Qed.

Lemma roundHalfEven_floor (q : Q) :
  Qfloor q <= roundHalfEven q <= Qfloor q + 1.
Proof.
  unfold roundHalfEven.
  destruct (q - inject_Z (Qfloor q) ?= 1 # 2)%Q; [destruct (Z.even _)| |]; lia.
Qed.

Lemma roundHalfEven_nonneg (q : Q) : (0 <= q)%Q -> 0 <= roundHalfEven q.
Proof.
  intro H. pose proof (roundHalfEven_floor q) as [Hf _].
  assert (0 <= Qfloor q) by (change 0 with (Qfloor 0); now apply Qfloor_resp_le).
  lia.
Qed.

Lemma roundPositive_nonneg (q : Q) : (0 <= q)%Q -> (0 <= roundPositive q)%Q.
Proof.
  intro H. unfold roundPositive.
  pose proof (pow2_pos (ulpExponent q)) as Hp.
  apply Qmult_le_0_compat; [|lra].
  change 0%Q with (inject_Z 0). rewrite <- Zle_Qle.
  apply roundHalfEven_nonneg. apply Qle_shift_div_l; [exact Hp | lra].
Qed.

Lemma round64_nonneg (q : Q) : (0 <= q)%Q -> (0 <= round64 q)%Q.
Proof.
  intro H. unfold round64. rewrite Qred_correct.
  destruct (Qred q ?= 0)%Q eqn:E.
  - lra.
  - apply Qlt_alt in E. rewrite Qred_correct in E. lra.
  - apply roundPositive_nonneg. rewrite Qred_correct. exact H.
Qed.

Lemma round64_Qeq (x y : Q) : (x == y)%Q -> round64 x = round64 y.
Proof. intro H. unfold round64. now rewrite (Qred_complete x y H). Qed.

Lemma doubleAdd_Qeq (a b c : Q) : (a == b)%Q -> doubleAdd a c = doubleAdd b c.
Proof. intro H. apply round64_Qeq. now rewrite H. Qed.

Lemma doubleAdd_nonneg (a : Q) : (0 <= a)%Q -> (0 <= doubleAdd a step)%Q.
Proof. intro H. apply round64_nonneg. unfold step. lra. Qed.

Lemma pow2_plus (a b : Z) : (pow2 (a + b) == pow2 a * pow2 b)%Q.
Proof. apply Qpower_plus. discriminate. Qed.

Lemma pow2_inject (e : Z) : 0 <= e -> (pow2 e == inject_Z (2 ^ e))%Q.
Proof. intro H. unfold pow2. now rewrite Zpower_Qpower. Qed.

Lemma pow2_succ (e : Z) : (pow2 (e + 1) == 2 * pow2 e)%Q.
Proof. rewrite pow2_plus. change (pow2 1) with 2%Q. ring. Qed.

Lemma pow2_le (a b : Z) : a <= b -> (pow2 a <= pow2 b)%Q.
Proof. intro H. apply Qpower_le_compat_l; [exact H | discriminate]. Qed.

Lemma pow2_lt_inv (a b : Z) : (pow2 a < pow2 b)%Q -> a < b.
Proof. intro H. apply (Qpower_lt_compat_l_inv 2); [exact H | reflexivity]. Qed.

Lemma log2_bounds (n : Z) :
  0 < n -> (pow2 (Z.log2 n) <= inject_Z n < 2 * pow2 (Z.log2 n))%Q.
Proof.
  intro H. pose proof (Z.log2_spec n H) as [Hlo Hhi].
  pose proof (Z.log2_nonneg n) as Hnn.
  rewrite pow2_inject by exact Hnn.
  split; [now rewrite <- Zle_Qle|].
  replace (Z.succ (Z.log2 n)) with (Z.log2 n + 1) in Hhi by lia.
  rewrite Z.pow_add_r in Hhi by lia. change (2 ^ 1) with 2 in Hhi.
  rewrite Zlt_Qlt in Hhi. rewrite inject_Z_mult in Hhi.
  change (inject_Z 2) with 2%Q in Hhi. lra.
Qed.

(** [binade] is the exponent of the leading bit. *)
Lemma binade_spec (q : Q) :
  (0 < q)%Q -> (pow2 (binade q) <= q < pow2 (binade q + 1))%Q.
Proof.
  intro Hq. unfold binade.
  set (k := Z.log2 (Qnum q) - Z.log2 (Z.pos (Qden q))).
  assert (Hn : 0 < Qnum q).
  { destruct q as [n d]. unfold Qlt in Hq. cbn in *. lia. }
  pose proof (log2_bounds (Qnum q) Hn) as [Hn1 Hn2].
  pose proof (log2_bounds (Z.pos (Qden q)) eq_refl) as [Hd1 Hd2].
  pose proof (pow2_pos (Z.log2 (Qnum q))) as HA.
  pose proof (pow2_pos (Z.log2 (Z.pos (Qden q)))) as HB.
  pose proof (pow2_pos k) as HK.
  assert (Hk : (pow2 k * pow2 (Z.log2 (Z.pos (Qden q)))
                == pow2 (Z.log2 (Qnum q)))%Q).
  { rewrite <- pow2_plus. unfold k.
    replace (Z.log2 (Qnum q) - Z.log2 (Z.pos (Qden q))
             + Z.log2 (Z.pos (Qden q))) with (Z.log2 (Qnum q)) by lia.
    reflexivity. }
  assert (Hqd : (q * inject_Z (Z.pos (Qden q)) == inject_Z (Qnum q))%Q).
  { destruct q as [n d]. cbn [Qnum Qden]. unfold Qeq. cbn. lia. }
  set (N := inject_Z (Qnum q)) in *.
  set (D := inject_Z (Z.pos (Qden q))) in *.
  set (A := pow2 (Z.log2 (Qnum q))) in *.
  set (B := pow2 (Z.log2 (Z.pos (Qden q)))) in *.
  set (K := pow2 k) in *.
  assert (Hup : (q < 2 * K)%Q).
  { apply Qnot_le_lt. intro H.
    assert (H1 : (2 * K * D <= q * D)%Q)
      by (apply Qmult_le_compat_r; lra).
    assert (H2 : (2 * K * B <= 2 * K * D)%Q)
      by (apply Qmult_le_l; lra).
    lra. }
  assert (Hlow : (K < 2 * q)%Q).
  { apply Qnot_le_lt. intro H.
    assert (H1 : (2 * q * B <= K * B)%Q)
      by (apply Qmult_le_compat_r; lra).
    assert (H2 : (q * D < q * (2 * B))%Q)
      by (apply Qmult_lt_l; lra).
    lra. }
  destruct (Qle_bool K q) eqn:E.
  - apply Qle_bool_iff in E. rewrite pow2_succ. fold K.
    split; [exact E | exact Hup].
  - assert (Hlt : (q < K)%Q).
    { apply Qnot_le_lt. intro H. apply Qle_bool_iff in H. congruence. }
    replace (k - 1 + 1) with k by lia. fold K.
    split; [|exact Hlt].
    assert (Hs : (K == 2 * pow2 (k - 1))%Q).
    { unfold K. rewrite <- pow2_succ. replace (k - 1 + 1) with k by lia.
      reflexivity. }
    lra.
Qed.

Lemma binade_le (x y : Q) :
  (0 < x)%Q -> (x <= y)%Q -> binade x <= binade y.
Proof.
  intros Hx Hxy.
  destruct (binade_spec x Hx) as [Hx1 _].
  destruct (binade_spec y) as [_ Hy2]; [lra|].
  assert (H : binade x < binade y + 1) by (apply pow2_lt_inv; lra).
  lia.
Qed.

Lemma roundHalfEven_integer (n : Z) : roundHalfEven (inject_Z n) = n.
Proof.
  unfold roundHalfEven. rewrite Qfloor_Z.
  replace (inject_Z n - inject_Z n ?= 1 # 2)%Q with Lt; [reflexivity|].
  symmetry. apply Qlt_alt. setoid_replace (inject_Z n - inject_Z n)%Q with 0%Q by ring. reflexivity.
Qed.

Lemma roundHalfEven_le (a b : Q) :
  (a <= b)%Q -> roundHalfEven a <= roundHalfEven b.
Proof.
  intro Hab.
  pose proof (roundHalfEven_floor a) as [_ Ha].
  pose proof (roundHalfEven_floor b) as [Hb _].
  pose proof (Qfloor_resp_le a b Hab) as Hf.
  destruct (Z.eq_dec (Qfloor a) (Qfloor b)) as [E|E]; [|lia].
  clear Ha Hb Hf. unfold roundHalfEven. rewrite <- E.
  set (f := inject_Z (Qfloor a)).
  destruct (a - f ?= 1 # 2)%Q eqn:Ca.
  - apply Qeq_alt in Ca.
    destruct (b - f ?= 1 # 2)%Q eqn:Cb.
    + lia.
    + apply Qlt_alt in Cb. exfalso. lra.
    + destruct (Z.even (Qfloor a)); lia.
  - destruct (b - f ?= 1 # 2)%Q; [destruct (Z.even (Qfloor a))| |]; lia.
  - apply Qgt_alt in Ca.
    destruct (b - f ?= 1 # 2)%Q eqn:Cb.
    + apply Qeq_alt in Cb. exfalso. lra.
    + apply Qlt_alt in Cb. exfalso. lra.
    + lia.
Qed.

Lemma roundPositive_le (x y : Q) :
  (0 < x)%Q -> (x <= y)%Q -> (roundPositive x <= roundPositive y)%Q.
Proof.
  intros Hx Hxy. assert (Hy : (0 < y)%Q) by lra.
  pose proof (binade_le x y Hx Hxy) as Hb.
  unfold roundPositive.
  set (ex := ulpExponent x). set (ey := ulpExponent y).
  pose proof (pow2_pos ex) as Hpx. pose proof (pow2_pos ey) as Hpy.
  assert (Hexy : ex <= ey) by (unfold ex, ey, ulpExponent; lia).
  destruct (Z.eq_dec ex ey) as [E|E].
  - rewrite <- E.
    assert (H : roundHalfEven (x / pow2 ex) <= roundHalfEven (y / pow2 ex)).
    { apply roundHalfEven_le. apply Qle_shift_div_l; [exact Hpx|].
      unfold Qdiv. rewrite <- Qmult_assoc, (Qmult_comm (/ _)), Qmult_inv_r;
        lra. }
    rewrite Zle_Qle in H. nra.
  - assert (Hey : ey = binade y - 52) by (unfold ex, ey, ulpExponent in *; lia).
    assert (Hbx : binade x + 1 <= binade y)
      by (unfold ex, ey, ulpExponent in *; lia).
    destruct (binade_spec x Hx) as [_ Hx2].
    destruct (binade_spec y Hy) as [Hy1 _].
    pose proof (pow2_le _ _ Hbx) as Hle.
    set (P := pow2 (binade y)) in *.
    assert (Hd : 0 <= binade y - ex) by (unfold ex, ulpExponent in *; lia).
    assert (HP1 : (P == inject_Z (2 ^ (binade y - ex)) * pow2 ex)%Q).
    { rewrite <- pow2_inject by exact Hd. rewrite <- pow2_plus.
      unfold P. replace (binade y - ex + ex) with (binade y) by lia.
      reflexivity. }
    assert (HP2 : (P == inject_Z (2 ^ 52) * pow2 ey)%Q).
    { rewrite <- pow2_inject by lia. rewrite <- pow2_plus.
      unfold P. replace (52 + ey) with (binade y) by lia. reflexivity. }
    assert (H1 : roundHalfEven (x / pow2 ex) <= 2 ^ (binade y - ex)).
    { rewrite <- (roundHalfEven_integer (2 ^ (binade y - ex))).
      apply roundHalfEven_le. apply Qle_shift_div_r; [exact Hpx|]. lra. }
    assert (H2 : 2 ^ 52 <= roundHalfEven (y / pow2 ey)).
    { rewrite <- (roundHalfEven_integer (2 ^ 52)) at 1.
      apply roundHalfEven_le. apply Qle_shift_div_l; [exact Hpy|]. lra. }
    rewrite Zle_Qle in H1, H2.
    apply Qle_trans with P.
    + rewrite HP1. apply Qmult_le_compat_r; [exact H1 | lra].
    + rewrite HP2. apply Qmult_le_compat_r; [exact H2 | lra].
Qed.

Lemma round64_positive (x : Q) :
  (0 < x)%Q -> (round64 x == roundPositive (Qred x))%Q.
Proof.
  intro Hx. unfold round64.
  assert (E : (Qred x ?= 0)%Q = Gt)
    by (apply Qgt_alt; rewrite Qred_correct; exact Hx).
  rewrite E. apply Qred_correct.
Qed.

Lemma round64_le (x y : Q) :
  (0 <= x)%Q -> (x <= y)%Q -> (round64 x <= round64 y)%Q.
Proof.
  intros Hx Hxy.
  destruct (Qlt_le_dec 0 x) as [Hxp|Hx0].
  - rewrite (round64_positive x Hxp), (round64_positive y) by lra.
    apply roundPositive_le; rewrite !Qred_correct; assumption.
  - assert (E : (x == 0)%Q) by lra.
    rewrite (round64_Qeq x 0 E). change (round64 0) with 0%Q.
    apply round64_nonneg. lra.
Qed.

Lemma roundHalfEven_nearest (x : Q) (n : Z) :
  (Qabs (inject_Z (roundHalfEven x) - x) <= Qabs (inject_Z n - x))%Q.
Proof.
  pose proof (Qfloor_le x) as Hlo. pose proof (Qlt_floor x) as Hhi.
  rewrite inject_Z_plus in Hhi. change (inject_Z 1) with 1%Q in Hhi.
  assert (Hn : (inject_Z n <= inject_Z (Qfloor x)
                \/ inject_Z (Qfloor x) + 1 <= inject_Z n)%Q).
  { destruct (Z.le_gt_cases n (Qfloor x)) as [H|H].
    - left. now rewrite <- Zle_Qle.
    - right. assert (H' : Qfloor x + 1 <= n) by lia.
      rewrite Zle_Qle, inject_Z_plus in H'. exact H'. }
  unfold roundHalfEven.
  destruct (x - inject_Z (Qfloor x) ?= 1 # 2)%Q eqn:C.
  - apply Qeq_alt in C.
    destruct (Z.even (Qfloor x)); rewrite ?inject_Z_plus;
      change (inject_Z 1) with 1%Q;
      apply Qabs_case; intro; apply Qabs_case; intro; destruct Hn; lra.
  - apply Qlt_alt in C.
    apply Qabs_case; intro; apply Qabs_case; intro; destruct Hn; lra.
  - apply Qgt_alt in C. rewrite inject_Z_plus. change (inject_Z 1) with 1%Q.
    apply Qabs_case; intro; apply Qabs_case; intro; destruct Hn; lra.
Qed.

(** [roundPositive q] is a multiple of the last bit's weight, of at most 53
    bits, and no other multiple is nearer to [q]. *)
Lemma roundPositive_nearest (q : Q) :
  (0 < q)%Q ->
  0 <= roundHalfEven (q / pow2 (ulpExponent q)) <= 2 ^ 53
  /\ forall n : Z,
       (Qabs (roundPositive q - q)
        <= Qabs (inject_Z n * pow2 (ulpExponent q) - q))%Q.
Proof.
  intro Hq. set (e := ulpExponent q).
  pose proof (pow2_pos e) as Hp.
  destruct (binade_spec q Hq) as [_ Hup].
  assert (Hx0 : (0 <= q / pow2 e)%Q) by (apply Qle_shift_div_l; lra).
  split.
  - split; [now apply roundHalfEven_nonneg|].
    rewrite <- (roundHalfEven_integer (2 ^ 53)).
    apply roundHalfEven_le. apply Qle_shift_div_r; [exact Hp|].
    rewrite <- pow2_inject by lia. rewrite <- pow2_plus.
    assert (He : binade q + 1 <= 53 + e) by (unfold e, ulpExponent; lia).
    pose proof (pow2_le _ _ He). lra.
  - intro n. unfold roundPositive. fold e.
    set (x := (q / pow2 e)%Q).
    assert (Hqx : (q == x * pow2 e)%Q).
    { unfold x. field. lra. }
    assert (E1 : (inject_Z (roundHalfEven x) * pow2 e - q
                  == (inject_Z (roundHalfEven x) - x) * pow2 e)%Q)
      by (rewrite Hqx at 1; ring).
    assert (E2 : (inject_Z n * pow2 e - q
                  == (inject_Z n - x) * pow2 e)%Q)
      by (rewrite Hqx at 1; ring).
    rewrite E1, E2, !Qabs_Qmult.
    apply Qmult_le_compat_r; [apply roundHalfEven_nearest|].
    apply Qabs_nonneg.
Qed.

Lemma binade_Qeq (x y : Q) : (0 < x)%Q -> (x == y)%Q -> binade x = binade y.
Proof.
  intros Hx Hxy.
  assert (Hy : (0 < y)%Q) by (rewrite <- Hxy; exact Hx).
  assert (H1 : (x <= y)%Q) by (rewrite Hxy; apply Qle_refl).
  assert (H2 : (y <= x)%Q) by (rewrite Hxy; apply Qle_refl).
  pose proof (binade_le x y Hx H1). pose proof (binade_le y x Hy H2). lia.
Qed.

(** [round64 q] is a multiple of the weight of the last bit, of at most 53
    bits, and no other multiple is nearer to [q]. *)
Lemma round64_nearest (q : Q) :
  (0 < q)%Q ->
  exists m : Z,
    0 <= m <= 2 ^ 53
    /\ (round64 q == inject_Z m * pow2 (ulpExponent q))%Q
    /\ forall n : Z,
         (Qabs (round64 q - q)
          <= Qabs (inject_Z n * pow2 (ulpExponent q) - q))%Q.
Proof.
  intro Hq.
  assert (Hr : (0 < Qred q)%Q) by (rewrite Qred_correct; exact Hq).
  assert (He : ulpExponent (Qred q) = ulpExponent q).
  { unfold ulpExponent. f_equal. f_equal.
    apply binade_Qeq; [exact Hr | apply Qred_correct]. }
  destruct (roundPositive_nearest (Qred q) Hr) as [Hm Hn].
  rewrite He in Hm, Hn.
  exists (roundHalfEven (Qred q / pow2 (ulpExponent q))).
  split; [exact Hm|]. split.
  - rewrite (round64_positive q Hq). unfold roundPositive.
    rewrite He. reflexivity.
  - intro n. specialize (Hn n).
    rewrite (round64_positive q Hq). rewrite Qred_correct in Hn at 2 3.
    exact Hn.
Qed.

Lemma doubleAdd_le (a b c : Q) :
  (0 <= a)%Q -> (0 <= c)%Q -> (a <= b)%Q -> (doubleAdd a c <= doubleAdd b c)%Q.
Proof. intros Ha Hc Hab. apply round64_le; lra. Qed.

Lemma accumulated_S (n : nat) (a : Q) :
  accumulated (S n) a = doubleAdd (accumulated n a) step.
Proof.
  revert a; induction n as [|n IH]; intro a; [reflexivity|].
  change (accumulated (S (S n)) a) with (accumulated (S n) (doubleAdd a step)).
  now rewrite IH.
Qed.

Lemma accumulated_nonneg (n : nat) (a : Q) :
  (0 <= a)%Q -> (0 <= accumulated n a)%Q.
Proof.
  revert a; induction n as [|n IH]; intros a H; [exact H|].
  apply IH. now apply doubleAdd_nonneg.
Qed.

(** [step] is the double nearest to [0.2], and the double that the
    machine reads for [0.2]. *)
Example step_is_binary64 :
  round64 (2 # 10) = step /\ Binary64.toQ Binary64.step = Some step.
Proof. split; vm_compute; reflexivity. Qed.

(** On doubles of all sizes [doubleAdd] gives the sum that the machine
    gives. *)
Example doubleAdd_agrees_with_binary64 :
  forallb (fun a => forallb (Binary64.sameSum a) Binary64.samples)
          Binary64.samples = true.
Proof. vm_compute. reflexivity. Qed.

(** The counter of the model is the counter of the machine during the
    first hundred speech samples in a row. *)
Example accumulated_agrees_with_binary64 :
  forallb (fun n => match Binary64.toQ (Binary64.speechTicks n 0%float) with
                    | Some q => Qeq_bool q (accumulated n 0)
                    | None => false
                    end)
          (seq 0 101) = true.
Proof. vm_compute. reflexivity. Qed.

End RoundingFacts.

(** ** The interval callback *)

Section TickFacts.

Example demoPlaying_interval : intervalRef demoPlaying = Some demoInterval.
Proof. vm_compute. reflexivity. Qed.

Example speechFrame_score :
  (scoreOf 12 128 speechFrame == 1)%Q /\ len speechFrame = 1024.
Proof. split; vm_compute; reflexivity. Qed.

Example musicFrame_score : (scoreOf 12 128 musicFrame == 116 # 1024)%Q.
Proof. vm_compute. reflexivity. Qed.

Lemma triggerAutoSwitch_only_currentId (s : App) :
  with_currentId (currentId s) (fst (triggerAutoSwitch s)) = s.
Proof.
  unfold triggerAutoSwitch.
  destruct (nextFallback (fallbacks s) (currentId s)) as [next|];
    [destruct (String.eqb next "" || String.eqb next (currentId s))|];
    destruct s; reflexivity.
Qed.

Lemma triggerAutoSwitch_quiet (s : App) :
  fired (snd (triggerAutoSwitch s)) = false.
Proof.
  unfold triggerAutoSwitch.
  destruct (nextFallback (fallbacks s) (currentId s)) as [next|];
    [destruct (String.eqb next "" || String.eqb next (currentId s))|];
    reflexivity.
Qed.

(** The trigger fires exactly when both tests pass. *)
Lemma trigger_fired (now : Z) (s : App) :
  fired (snd (trigger now s)) = overThreshold s && cooldownElapsed now s.
Proof.
  unfold trigger.
  destruct (overThreshold s); [|reflexivity].
  destruct (cooldownElapsed now s); [|reflexivity].
  destruct (triggerAutoSwitch _) as [s3 calls]. reflexivity.
Qed.

Lemma trigger_on_fire (now : Z) (s : App) :
  fired (snd (trigger now s)) = true ->
  trigger now s
  = (fst (triggerAutoSwitch
            (with_speechSecondsRef 0%Q (with_lastSwitchRef now s))),
     Call_triggerAutoSwitch
       :: snd (triggerAutoSwitch
                 (with_speechSecondsRef 0%Q (with_lastSwitchRef now s)))).
Proof.
  rewrite trigger_fired. unfold trigger.
  destruct (overThreshold s); [|discriminate].
  destruct (cooldownElapsed now s); [|discriminate].
  intros _. destruct (triggerAutoSwitch _) as [s3 calls]. reflexivity.
Qed.

Lemma trigger_no_fire (now : Z) (s : App) :
  fired (snd (trigger now s)) = false -> trigger now s = (s, []).
Proof.
  rewrite trigger_fired. unfold trigger.
  destruct (overThreshold s); [|reflexivity].
  destruct (cooldownElapsed now s); [discriminate | reflexivity].
Qed.

(** A successful read runs [sample] and then [trigger]. *)
Lemma tick_read (iv : Interval) (dataArray : list byte) (now : Z) (s : App)
  (bins : Z) :
  analyserRef s = Some bins ->
  fst (tick iv (Some dataArray) now s)
  = fst (trigger now (sample iv dataArray s))
  /\ fired (snd (tick iv (Some dataArray) now s))
     = fired (snd (trigger now (sample iv dataArray s)))
  /\ switched (snd (tick iv (Some dataArray) now s))
     = switched (snd (trigger now (sample iv dataArray s))).
Proof.
  intro Ha. unfold tick. rewrite Ha.
  destruct (trigger now (sample iv dataArray s)) as [s3 calls].
  repeat split.
Qed.

Lemma sample_frame (iv : Interval) (dataArray : list byte) (s : App) :
  settings (sample iv dataArray s) = settings s
  /\ lastSwitchRef (sample iv dataArray s) = lastSwitchRef s
  /\ currentId (sample iv dataArray s) = currentId s
  /\ fallbacks (sample iv dataArray s) = fallbacks s
  /\ analyserRef (sample iv dataArray s) = analyserRef s
  /\ intervalRef (sample iv dataArray s) = intervalRef s
  /\ isPlaying (sample iv dataArray s) = isPlaying s
  /\ currentStation (sample iv dataArray s) = currentStation s.
Proof.
  unfold sample, accumulate.
  destruct (isSpeechOf _ _); repeat split.
Qed.

Lemma sample_counter (iv : Interval) (dataArray : list byte) (s : App) :
  speechSecondsRef (sample iv dataArray s)
  = if isSpeechOf (scoreOf (startIndex iv) (endIndex iv) dataArray)
                  (settings s)
    then doubleAdd (speechSecondsRef s) step else 0%Q.
Proof.
  unfold sample, accumulate. destruct (isSpeechOf _ _); reflexivity.
Qed.

(** The trigger test of a tick, in terms of the state before the tick. *)
Lemma tick_fired_iff (iv : Interval) (dataArray : list byte) (now : Z)
  (s : App) (bins : Z) :
  analyserRef s = Some bins ->
  fired (snd (tick iv (Some dataArray) now s)) = true
  <-> (speechSeconds (settings s)
       <= speechSecondsRef (sample iv dataArray s))%Q
      /\ (cooldownSeconds (settings s) * 1000
          <= inject_Z (now - lastSwitchRef s))%Q.
Proof.
  intro Ha.
  destruct (tick_read iv dataArray now s bins Ha) as (_ & -> & _).
  rewrite trigger_fired, andb_true_iff.
  unfold overThreshold, cooldownElapsed.
  destruct (sample_frame iv dataArray s) as (-> & -> & _).
  rewrite !Qle_bool_iff. reflexivity.
Qed.

Lemma Qlt_le_bool_false (a b : Q) : (a < b)%Q -> Qle_bool b a = false.
Proof.
  intro H. destruct (Qle_bool b a) eqn:E; [|reflexivity].
  apply Qle_bool_iff in E. lra.
Qed.

(** C1. On every tick that reads a snapshot the trigger fires exactly when
    the counter left by the hysteresis update has reached [speechSeconds]
    and [now - lastSwitchRef] has reached [cooldownSeconds * 1000]; a firing
    tick stores [now] in [lastSwitchRef] and [0] in the counter and only then
    runs [triggerAutoSwitch]; a tick that does not fire leaves the state of
    the update.  With a cooldown of 12 s and the last trigger at [t0], a
    counter over the threshold does not fire at [t0 + 5000] and fires at
    [t0 + 13000]. *)
Theorem failover_trigger_fires_iff (iv : Interval) (dataArray : list byte)
  (s : App) (bins : Z) :
  analyserRef s = Some bins ->
  (forall now,
     (fired (snd (tick iv (Some dataArray) now s)) = true
      <-> (speechSeconds (settings s)
           <= speechSecondsRef (sample iv dataArray s))%Q
          /\ (cooldownSeconds (settings s) * 1000
              <= inject_Z (now - lastSwitchRef s))%Q)
     /\ (fired (snd (tick iv (Some dataArray) now s)) = true ->
         let armed := with_speechSecondsRef 0%Q
                        (with_lastSwitchRef now (sample iv dataArray s)) in
         fst (tick iv (Some dataArray) now s) = fst (triggerAutoSwitch armed)
         /\ lastSwitchRef (fst (tick iv (Some dataArray) now s)) = now
         /\ speechSecondsRef (fst (tick iv (Some dataArray) now s)) = 0%Q)
     /\ (fired (snd (tick iv (Some dataArray) now s)) = false ->
         fst (tick iv (Some dataArray) now s) = sample iv dataArray s))
  /\ ((cooldownSeconds (settings s) == 12)%Q ->
      (speechSeconds (settings s)
       <= speechSecondsRef (sample iv dataArray s))%Q ->
      fired (snd (tick iv (Some dataArray) (lastSwitchRef s + 5000) s))
      = false
      /\ fired (snd (tick iv (Some dataArray) (lastSwitchRef s + 13000) s))
         = true).
Proof.
  intro Ha.
  pose proof (fun now => tick_fired_iff iv dataArray now s bins Ha) as Hiff.
  split.
  - intro now. split; [apply Hiff|].
    destruct (tick_read iv dataArray now s bins Ha) as (-> & -> & _).
    split.
    + intro Hf. rewrite (trigger_on_fire _ _ Hf). cbn [fst].
      split; [reflexivity|].
      set (armed := with_speechSecondsRef 0%Q
                      (with_lastSwitchRef now (sample iv dataArray s))).
      pose proof (triggerAutoSwitch_only_currentId armed) as Hs.
      split.
      * transitivity (lastSwitchRef (with_currentId (currentId armed)
                                       (fst (triggerAutoSwitch armed))));
          [reflexivity | rewrite Hs; reflexivity].
      * transitivity (speechSecondsRef (with_currentId (currentId armed)
                                          (fst (triggerAutoSwitch armed))));
          [reflexivity | rewrite Hs; reflexivity].
    + intro Hf. rewrite (trigger_no_fire _ _ Hf). reflexivity.
  - intros Hc Hacc. split.
    + apply not_true_is_false. intro Hf. apply Hiff in Hf.
      destruct Hf as [_ Hf]. rewrite Hc in Hf.
      replace (lastSwitchRef s + 5000 - lastSwitchRef s) with 5000 in Hf
        by lia.
      revert Hf. apply Qlt_not_le. reflexivity.
    + apply Hiff. split; [exact Hacc|]. rewrite Hc.
      replace (lastSwitchRef s + 13000 - lastSwitchRef s) with 13000 by lia.
      discriminate.
Qed.

Lemma triggerAutoSwitch_shape (s : App) :
  fst (triggerAutoSwitch s)
  = with_currentId (currentId (fst (triggerAutoSwitch s))) s.
Proof.
  unfold triggerAutoSwitch.
  destruct (nextFallback (fallbacks s) (currentId s)) as [next|];
    [destruct (String.eqb next "" || String.eqb next (currentId s))|];
    destruct s; reflexivity.
Qed.

Lemma trigger_shape (now : Z) (s : App) :
  fst (trigger now s)
  = with_currentId (currentId (fst (trigger now s)))
      (if fired (snd (trigger now s))
       then with_speechSecondsRef 0%Q (with_lastSwitchRef now s) else s).
Proof.
  destruct (fired (snd (trigger now s))) eqn:Hf.
  - rewrite (trigger_on_fire _ _ Hf). cbn [fst].
    apply triggerAutoSwitch_shape.
  - rewrite (trigger_no_fire _ _ Hf). destruct s; reflexivity.
Qed.

(** The state after a successful read: the state of [sample], with the two
    refs rewritten when the trigger fired, and with the id chosen by
    [triggerAutoSwitch]. *)
Lemma tick_shape (iv : Interval) (dataArray : list byte) (now : Z) (s : App)
  (bins : Z) :
  analyserRef s = Some bins ->
  fst (tick iv (Some dataArray) now s)
  = with_currentId (currentId (fst (tick iv (Some dataArray) now s)))
      (if fired (snd (tick iv (Some dataArray) now s))
       then with_speechSecondsRef 0%Q
              (with_lastSwitchRef now (sample iv dataArray s))
       else sample iv dataArray s).
Proof.
  intro Ha. destruct (tick_read iv dataArray now s bins Ha) as (-> & -> & _).
  apply trigger_shape.
Qed.

Lemma tick_switched (iv : Interval) (read : option (list byte)) (now : Z)
  (s : App) :
  switched (snd (tick iv read now s)) = false ->
  currentId (fst (tick iv read now s)) = currentId s.
Proof.
  unfold tick, trigger, triggerAutoSwitch.
  destruct (analyserRef s); [|reflexivity].
  destruct read as [dataArray|]; [|reflexivity].
  destruct (sample_frame iv dataArray s) as (_ & _ & Hid & Hfb & _).
  destruct (overThreshold _); [|intros _; exact Hid].
  destruct (cooldownElapsed _ _); [|intros _; exact Hid].
  cbn [fallbacks currentId with_speechSecondsRef with_lastSwitchRef].
  destruct (nextFallback _ _) as [next|]; [|intros _; exact Hid].
  destruct (String.eqb next "" || String.eqb next _);
    [intros _; exact Hid | discriminate].
Qed.

(** The fields that no tick writes. *)
Lemma tick_frame (iv : Interval) (read : option (list byte)) (now : Z)
  (s : App) :
  settings (fst (tick iv read now s)) = settings s
  /\ fallbacks (fst (tick iv read now s)) = fallbacks s
  /\ isPlaying (fst (tick iv read now s)) = isPlaying s
  /\ currentStation (fst (tick iv read now s)) = currentStation s
  /\ analyserRef (fst (tick iv read now s)) = analyserRef s.
Proof.
  destruct (analyserRef s) as [bins|] eqn:Ha;
    [|unfold tick; rewrite Ha; repeat split; exact Ha].
  destruct read as [dataArray|];
    [|unfold tick; rewrite Ha; repeat split; exact Ha].
  rewrite (tick_shape iv dataArray now s bins Ha).
  destruct (sample_frame iv dataArray s)
    as (Hst & _ & _ & Hfb & Han & _ & Hpl & Hcs).
  destruct (fired _); cbn; rewrite Hst, Hfb, Hpl, Hcs, Han, Ha; repeat split.
Qed.

End TickFacts.

(** ** Renders *)

Section RenderFacts.

Lemma fired_app (a b : list Call) : fired (a ++ b) = fired a || fired b.
Proof. apply existsb_app. Qed.

Lemma switched_app (a b : list Call) :
  switched (a ++ b) = switched a || switched b.
Proof. apply existsb_app. Qed.

Lemma reads_app (a b : list Call) : reads (a ++ b) = (reads a + reads b)%nat.
Proof. unfold reads. now rewrite filter_app, length_app. Qed.

(** A restart touches the audio graph, the interval and [analysisBlocked],
    and nothing else. *)
Lemma restart_frame (w : World) (s : App) :
  lastSwitchRef (fst (restart w s)) = lastSwitchRef s
  /\ speechSecondsRef (fst (restart w s)) = speechSecondsRef s
  /\ currentId (fst (restart w s)) = currentId s
  /\ settings (fst (restart w s)) = settings s
  /\ fallbacks (fst (restart w s)) = fallbacks s
  /\ isPlaying (fst (restart w s)) = isPlaying s
  /\ currentStation (fst (restart w s)) = currentStation s.
Proof.
  unfold restart, cleanup, detectionEffect, setupAudioGraph, andThen.
  split_matches; cbn; repeat split.
Qed.

Lemma restart_quiet (w : World) (s : App) :
  fired (snd (restart w s)) = false
  /\ switched (snd (restart w s)) = false
  /\ reads (snd (restart w s)) = 0%nat.
Proof.
  unfold restart, cleanup, detectionEffect, setupAudioGraph, andThen.
  split_matches; cbn; repeat split.
Qed.

Lemma syncCurrentStation_shape (stations : list Station) (old new : App) :
  syncCurrentStation stations old new
  = with_currentStation
      (currentStation (syncCurrentStation stations old new)) new.
Proof.
  unfold syncCurrentStation. split_matches; destruct new; reflexivity.
Qed.

Lemma loadStation_shape (w : World) (old new : App) :
  fst (loadStation w old new)
  = with_isPlaying (isPlaying (fst (loadStation w old new)))
      (with_analysisBlocked (analysisBlocked (fst (loadStation w old new)))
         new)
  /\ (isPlaying (fst (loadStation w old new)) = isPlaying new
      \/ isPlaying (fst (loadStation w old new)) = false)
  /\ fired (snd (loadStation w old new)) = false
  /\ switched (snd (loadStation w old new)) = false
  /\ reads (snd (loadStation w old new)) = 0%nat.
Proof.
  unfold loadStation.
  destruct (option_string_eqb _ _);
    [|destruct (currentStation new) as [station|];
      [destruct (isHlsUrl (url station) && negb (hlsIsSupported w)
                 && negb (canPlayHls w))|]];
    destruct new; cbn; repeat split; auto.
Qed.

Lemma Qeq_bool_same (q : Q) : Qeq_bool q q = true.
Proof. apply Qeq_bool_iff. reflexivity. Qed.

Lemma depsChanged_same (old new : App) :
  settings new = settings old -> isPlaying new = isPlaying old ->
  currentId new = currentId old -> depsChanged old new = false.
Proof.
  intros Hst Hpl Hid. unfold depsChanged. rewrite Hst, Hpl, Hid.
  rewrite !Qeq_bool_same, !Bool.eqb_reflx, String.eqb_refl. reflexivity.
Qed.

Lemma option_string_eqb_same (a : option string) :
  option_string_eqb a a = true.
Proof. destruct a; [apply String.eqb_refl | reflexivity]. Qed.

(** While the stream's URL stays the same the station effect does not
    run. *)
Lemma stationRenders_same (w : World) (old s3 : App) :
  currentStation s3 = currentStation old ->
  stationRenders w old s3 = (s3, []).
Proof.
  intro H. unfold stationRenders, loadStation.
  rewrite H, option_string_eqb_same.
  now rewrite (depsChanged_same s3 s3).
Qed.

(** The renders of the station effect write [analysisBlocked], [isPlaying]
    and what a restart writes; they can clear [isPlaying] and cannot set
    it. *)
Lemma stationRenders_frame (w : World) (old s3 : App) :
  lastSwitchRef (fst (stationRenders w old s3)) = lastSwitchRef s3
  /\ speechSecondsRef (fst (stationRenders w old s3)) = speechSecondsRef s3
  /\ currentId (fst (stationRenders w old s3)) = currentId s3
  /\ settings (fst (stationRenders w old s3)) = settings s3
  /\ fallbacks (fst (stationRenders w old s3)) = fallbacks s3
  /\ currentStation (fst (stationRenders w old s3)) = currentStation s3
  /\ (isPlaying (fst (stationRenders w old s3)) = isPlaying s3
      \/ isPlaying (fst (stationRenders w old s3)) = false).
Proof.
  unfold stationRenders.
  destruct (loadStation_shape w old s3) as (Hs4 & Hp4 & _).
  destruct (loadStation w old s3) as [s4 c4]. cbn [fst] in *.
  assert (H4 : lastSwitchRef s4 = lastSwitchRef s3
               /\ speechSecondsRef s4 = speechSecondsRef s3
               /\ currentId s4 = currentId s3
               /\ settings s4 = settings s3
               /\ fallbacks s4 = fallbacks s3
               /\ currentStation s4 = currentStation s3)
    by (rewrite Hs4; repeat split).
  destruct H4 as (L4 & A4 & I4 & S4 & F4 & C4).
  destruct (depsChanged s3 s4).
  - destruct (restart_frame w s4) as (L & A & I & S & F & P & C).
    destruct (restart w s4) as [s5 c5]. cbn [fst] in *.
    repeat split; try congruence;
      try (destruct Hp4 as [Hp4|Hp4]; [left | right]; congruence).
  - cbn [fst]. repeat split; auto.
Qed.

Lemma stationRenders_quiet (w : World) (old s3 : App) :
  fired (snd (stationRenders w old s3)) = false
  /\ switched (snd (stationRenders w old s3)) = false
  /\ reads (snd (stationRenders w old s3)) = 0%nat.
Proof.
  unfold stationRenders.
  destruct (loadStation_shape w old s3) as (_ & _ & F4 & W4 & R4).
  destruct (loadStation w old s3) as [s4 c4]. cbn [fst snd] in *.
  destruct (depsChanged s3 s4).
  - destruct (restart_quiet w s4) as (F & W & R).
    destruct (restart w s4) as [s5 c5]. cbn [fst snd] in *.
    now rewrite fired_app, switched_app, reads_app, F4, W4, R4, F, W, R.
  - cbn [snd]. now rewrite app_nil_r.
Qed.

(** A tick that leaves [currentId] alone causes no further work. *)
Lemma react_tick_same (stations : list Station) (w : World) (iv : Interval)
  (read : option (list byte)) (now : Z) (s : App) :
  intervalRef s = Some iv ->
  currentId (fst (tick iv read now s)) = currentId s ->
  react stations w (Tick read now) s = tick iv read now s.
Proof.
  intros Hiv Hid. unfold react, handle. rewrite Hiv.
  destruct (tick_frame iv read now s) as (Hst & _ & Hpl & Hcs & _).
  destruct (tick iv read now s) as [s1 c1]. cbn [fst] in *.
  unfold syncCurrentStation. rewrite Hid, String.eqb_refl.
  rewrite (depsChanged_same s s1 Hst Hpl Hid). cbn [newFallbacksArray orb].
  rewrite (stationRenders_same w s s1 Hcs).
  now rewrite !app_nil_r.
Qed.

(** With no live interval a tick does nothing. *)
Lemma react_tick_idle (stations : list Station) (w : World)
  (read : option (list byte)) (now : Z) (s : App) :
  intervalRef s = None -> react stations w (Tick read now) s = (s, []).
Proof.
  intro Hiv. unfold react, handle. rewrite Hiv.
  unfold syncCurrentStation. rewrite String.eqb_refl.
  rewrite (depsChanged_same s s) by reflexivity. cbn [newFallbacksArray orb].
  now rewrite (stationRenders_same w s s eq_refl).
Qed.

End RenderFacts.

(** ** The loop *)

Section LoopFacts.

(** After the handler, a render leaves the counters, the id, the settings
    and the log of fires, switches and reads as the handler left them. *)
Lemma react_after_handle (stations : list Station) (w : World) (e : Event)
  (s : App) :
  lastSwitchRef (fst (react stations w e s))
  = lastSwitchRef (fst (handle e s))
  /\ speechSecondsRef (fst (react stations w e s))
     = speechSecondsRef (fst (handle e s))
  /\ currentId (fst (react stations w e s)) = currentId (fst (handle e s))
  /\ settings (fst (react stations w e s)) = settings (fst (handle e s))
  /\ fired (snd (react stations w e s)) = fired (snd (handle e s))
  /\ switched (snd (react stations w e s)) = switched (snd (handle e s))
  /\ reads (snd (react stations w e s)) = reads (snd (handle e s)).
Proof.
  unfold react. destruct (handle e s) as [s1 c1]. cbn [fst snd].
  set (s2 := syncCurrentStation stations s s1).
  assert (H2 : lastSwitchRef s2 = lastSwitchRef s1
               /\ speechSecondsRef s2 = speechSecondsRef s1
               /\ currentId s2 = currentId s1
               /\ settings s2 = settings s1).
  { unfold s2. rewrite syncCurrentStation_shape. repeat split. }
  destruct H2 as (L2 & A2 & I2 & S2).
  assert (H3 : exists s3 c3,
             (if newFallbacksArray e || depsChanged s s1
              then restart w s2 else (s2, [])) = (s3, c3)
             /\ lastSwitchRef s3 = lastSwitchRef s1
             /\ speechSecondsRef s3 = speechSecondsRef s1
             /\ currentId s3 = currentId s1
             /\ settings s3 = settings s1
             /\ fired c3 = false /\ switched c3 = false
             /\ reads c3 = 0%nat).
  { destruct (newFallbacksArray e || depsChanged s s1).
    - destruct (restart_frame w s2) as (L & A & I & S & _).
      destruct (restart_quiet w s2) as (F & W & R).
      destruct (restart w s2) as [s3 c3]. cbn [fst snd] in *.
      exists s3, c3. repeat split; congruence.
    - exists s2, []. repeat split; assumption. }
  destruct H3 as (s3 & c3 & -> & L3 & A3 & I3 & S3 & F3 & W3 & R3).
  destruct (stationRenders_frame w s s3) as (L5 & A5 & I5 & S5 & _).
  destruct (stationRenders_quiet w s s3) as (F5 & W5 & R5).
  destruct (stationRenders w s s3) as [s5 c5]. cbn [fst snd] in *.
  rewrite !fired_app, !switched_app, !reads_app, F3, F5, W3, W5, R3, R5.
  rewrite !orb_false_r, !Nat.add_0_r. repeat split; congruence.
Qed.

(** A speech tick that stays under the threshold only runs [sample]. *)
Lemma tick_speech_below (iv : Interval) (dataArray : list byte) (now : Z)
  (s : App) (bins : Z) :
  analyserRef s = Some bins ->
  isSpeechOf (scoreOf (startIndex iv) (endIndex iv) dataArray) (settings s)
  = true ->
  (doubleAdd (speechSecondsRef s) step < speechSeconds (settings s))%Q ->
  fst (tick iv (Some dataArray) now s) = sample iv dataArray s
  /\ fired (snd (tick iv (Some dataArray) now s)) = false
  /\ switched (snd (tick iv (Some dataArray) now s)) = false.
Proof.
  intros Ha Hsp Hlt.
  destruct (tick_read iv dataArray now s bins Ha) as (-> & -> & ->).
  assert (Hf : fired (snd (trigger now (sample iv dataArray s))) = false).
  { rewrite trigger_fired. unfold overThreshold.
    destruct (sample_frame iv dataArray s) as (-> & _).
    rewrite sample_counter, Hsp, (Qlt_le_bool_false _ _ Hlt). reflexivity. }
  rewrite (trigger_no_fire _ _ Hf). repeat split.
Qed.

Lemma len_cons {A : Type} (x : A) (l : list A) : len (x :: l) = len l + 1.
Proof. unfold len. simpl List.length. lia. Qed.

(** A run of speech ticks whose sums stay under the threshold leaves the
    sum of that many steps in the counter and neither fires nor
    switches. *)
Lemma speech_run (stations : list Station) (iv : Interval) (bins : Z)
  (es : list (World * Event)) :
  forall s a,
    intervalRef s = Some iv -> analyserRef s = Some bins ->
    Forall (speechTick iv (settings s)) es ->
    (speechSecondsRef s == a)%Q ->
    (forall k, (1 <= k <= List.length es)%nat ->
               (accumulated k a < speechSeconds (settings s))%Q) ->
    (speechSecondsRef (fst (run stations es s))
     == accumulated (List.length es) a)%Q
    /\ fired (snd (run stations es s)) = false
    /\ switched (snd (run stations es s)) = false
    /\ intervalRef (fst (run stations es s)) = Some iv
    /\ settings (fst (run stations es s)) = settings s.
Proof.
  induction es as [|[w e] es IH]; intros s a Hiv Ha Hall Hacc Hlt.
  - cbn [run fst snd List.length accumulated]. repeat split; assumption.
  - inversion Hall as [|? ? Hhead Htail]; subst.
    unfold speechTick in Hhead. cbn [snd] in Hhead.
    destruct e as [[dataArray|] now| | | | |]; try contradiction.
    assert (Hsum : doubleAdd (speechSecondsRef s) step = doubleAdd a step)
      by (apply doubleAdd_Qeq; exact Hacc).
    assert (Hbelow : (doubleAdd (speechSecondsRef s) step
                      < speechSeconds (settings s))%Q).
    { rewrite Hsum. apply (Hlt 1%nat). cbn [List.length]. lia. }
    destruct (tick_speech_below iv dataArray now s bins Ha Hhead Hbelow)
      as (Hs1 & Hf1 & Hw1).
    pose proof (tick_switched iv (Some dataArray) now s Hw1) as Hid.
    cbn [run]. rewrite (react_tick_same stations w iv _ now s Hiv Hid).
    destruct (tick iv (Some dataArray) now s) as [s1 c1]. cbn [fst snd] in *.
    subst s1.
    destruct (sample_frame iv dataArray s)
      as (Hst & _ & _ & _ & Han & Hint & _).
    assert (Hacc1 : speechSecondsRef (sample iv dataArray s)
                    = doubleAdd a step).
    { rewrite sample_counter, Hhead. exact Hsum. }
    specialize (IH (sample iv dataArray s) (doubleAdd a step)).
    rewrite Hst, Hint, Han, Hacc1 in IH.
    destruct IH as (IHacc & IHf & IHw & IHiv & IHst);
      [assumption | assumption | assumption | reflexivity | |].
    { intros k Hk. apply (Hlt (S k)). cbn [List.length]. lia. }
    destruct (run stations es (sample iv dataArray s)) as [s2 c2].
    cbn [fst snd] in *.
    rewrite fired_app, switched_app, Hf1, Hw1, IHf, IHw.
    repeat split; assumption.
Qed.

Lemma sample_label (iv : Interval) (dataArray : list byte) (s : App) :
  speechLabel (sample iv dataArray s)
  = labelOf (isSpeechOf (scoreOf (startIndex iv) (endIndex iv) dataArray)
                        (settings s)).
Proof. unfold sample, accumulate. destruct (isSpeechOf _ _); reflexivity. Qed.

Lemma labelOf_speech (b : bool) :
  labelOf b = "Speech-ish"%string <-> b = true.
Proof. destruct b; split; intro H; try reflexivity; discriminate H. Qed.

(** On the machine's doubles five additions of [0.2] give exactly [1],
    which is under a threshold of [6]; the thirtieth addition is the first
    to reach [6]; a sample that is not speech stores [0]. *)
Example binary64_counter :
  Binary64.speechTicks 5 0%float = 1%float
  /\ Binary64.overThreshold 6%float (Binary64.speechTicks 5 0%float) = false
  /\ Binary64.overThreshold 6%float (Binary64.speechTicks 29 0%float) = false
  /\ Binary64.overThreshold 6%float (Binary64.speechTicks 30 0%float) = true
  /\ Binary64.accumulate false (Binary64.speechTicks 5 0%float) = 0%float.
Proof. repeat split; vm_compute; reflexivity. Qed.

(** C2, as the code has it. A sample is classified as speech exactly when
    its score reaches [sensitivity]; on a speech sample the hysteresis
    update stores the sum of doubles of the counter and [0.2], that is the
    double nearest to their sum, and on any other sample it stores [0],
    whatever the counter held.  With [speechSeconds = 6], five speech ticks
    in a row from an empty counter leave exactly [1] in it, without a
    trigger. *)
Theorem hysteresis_tracker (stations : list Station) (iv : Interval)
  (s : App) (bins : Z) :
  analyserRef s = Some bins ->
  (forall dataArray now,
     let score := scoreOf (startIndex iv) (endIndex iv) dataArray in
     let s' := fst (tick iv (Some dataArray) now s) in
     (isSpeechOf score (settings s) = true
      <-> (sensitivity (settings s) <= score)%Q)
     /\ (speechLabel s' = "Speech-ish"%string
         <-> (sensitivity (settings s) <= score)%Q)
     /\ ((sensitivity (settings s) <= score)%Q ->
         speechSecondsRef (sample iv dataArray s)
         = round64 (speechSecondsRef s + step)
         /\ (fired (snd (tick iv (Some dataArray) now s)) = false ->
             speechSecondsRef s' = round64 (speechSecondsRef s + step)))
     /\ (~ (sensitivity (settings s) <= score)%Q ->
         speechSecondsRef (sample iv dataArray s) = 0%Q
         /\ speechSecondsRef s' = 0%Q))
  /\ round64 (2 # 10) = step
  /\ (forall es,
        intervalRef s = Some iv ->
        (speechSeconds (settings s) == 6)%Q ->
        (speechSecondsRef s == 0)%Q ->
        List.length es = 5%nat ->
        Forall (speechTick iv (settings s)) es ->
        (speechSecondsRef (fst (run stations es s)) == 1)%Q
        /\ fired (snd (run stations es s)) = false).
Proof.
  intro Ha. split; [|split; [vm_compute; reflexivity|]].
  - intros dataArray now score s'.
    assert (Hcls : isSpeechOf score (settings s) = true
                   <-> (sensitivity (settings s) <= score)%Q)
      by apply Qle_bool_iff.
    assert (Hs' : s' = with_currentId (currentId s')
                         (if fired (snd (tick iv (Some dataArray) now s))
                          then with_speechSecondsRef 0%Q
                                 (with_lastSwitchRef now
                                    (sample iv dataArray s))
                          else sample iv dataArray s))
      by apply (tick_shape iv dataArray now s bins Ha).
    pose proof (sample_counter iv dataArray s) as Hacc. fold score in Hacc.
    unfold doubleAdd in Hacc.
    split; [exact Hcls|]. split; [|split].
    + rewrite <- Hcls, <- labelOf_speech.
      replace (speechLabel s') with (speechLabel (sample iv dataArray s));
        [rewrite sample_label; reflexivity|].
      rewrite Hs'. destruct (fired _); reflexivity.
    + intro Hle. apply Hcls in Hle. rewrite Hle in Hacc.
      split; [exact Hacc|]. intro Hf. rewrite Hs', Hf. exact Hacc.
    + intro Hnle.
      assert (Hfalse : isSpeechOf score (settings s) = false).
      { destruct (isSpeechOf score (settings s)); [|reflexivity].
        exfalso. apply Hnle, Hcls. reflexivity. }
      rewrite Hfalse in Hacc. split; [exact Hacc|].
      rewrite Hs'. destruct (fired _); [reflexivity | exact Hacc].
  - intros es Hiv Hthr Hzero Hlen Hall.
    destruct (speech_run stations iv bins es s 0%Q Hiv Ha Hall Hzero)
      as (Hacc & Hf & _).
    + intros k Hk. rewrite Hlen in Hk. rewrite Hthr.
      do 6 (destruct k as [|k]; [try lia; vm_compute; reflexivity|]). lia.
    + split; [|exact Hf]. rewrite Hacc, Hlen. vm_compute. reflexivity.
Qed.

Lemma hysteresis_tracker_witness :
  (speechSecondsRef demoAfterFive == 1)%Q
  /\ fired (snd (run demoStations (speechTicks demoEpoch 5) demoPlaying))
     = false.
Proof.
  destruct (hysteresis_tracker demoStations demoInterval demoPlaying 1024)
    as (_ & _ & H); [reflexivity|].
  apply (H (speechTicks demoEpoch 5)).
  - reflexivity.
  - reflexivity.
  - reflexivity.
  - reflexivity.
  - repeat constructor; vm_compute; reflexivity.
Defined.

(** C2 as stated fails: a speech tick does not always add exactly [0.2].
    After two speech ticks the counter holds the double [0.4]; the third
    speech tick leaves [0.6000000000000001], which is neither the counter
    plus [0.2] nor the counter plus the double nearest to [0.2], and is not
    the double [0.6].  With the threshold at 2 seconds, where ten steps of
    exactly [0.2] reach the threshold, ten speech ticks in a row leave
    [1.9999999999999998] and do not fire, the cooldown being long past; the
    eleventh tick fires.  The machine's doubles give the same numbers. *)
Lemma hysteresis_exact_step_counterexample :
  (let t := tick demoInterval (Some speechFrame) (demoEpoch + 600)
                 demoAfterTwo in
   isSpeechOf (scoreOf (startIndex demoInterval) (endIndex demoInterval)
                       speechFrame) (settings demoAfterTwo) = true
   /\ fired (snd t) = false
   /\ (speechSecondsRef demoAfterTwo == 3602879701896397 # 9007199254740992)%Q
   /\ (speechSecondsRef (fst t) == 5404319552844596 # 9007199254740992)%Q
   /\ ~ (speechSecondsRef (fst t) == speechSecondsRef demoAfterTwo + (2 # 10))%Q
   /\ ~ (speechSecondsRef (fst t) == speechSecondsRef demoAfterTwo + step)%Q
   /\ ~ (speechSecondsRef (fst t) == round64 (6 # 10))%Q)
  /\ (let r := run demoStations (speechTicks demoEpoch 10) demoQuick in
      (speechSeconds (settings demoQuick) == 2)%Q
      /\ (speechSecondsRef demoQuick + 10 * (2 # 10)
          == speechSeconds (settings demoQuick))%Q
      /\ (cooldownSeconds (settings demoQuick) * 1000
          <= inject_Z (demoEpoch + 2000 - lastSwitchRef demoQuick))%Q
      /\ reads (snd r) = 10%nat
      /\ fired (snd r) = false
      /\ (speechSecondsRef (fst r)
          == 9007199254740991 # 4503599627370496)%Q
      /\ fired (snd (tick demoInterval (Some speechFrame) (demoEpoch + 2200)
                        (fst r))) = true)
  /\ Binary64.speechTicks 3 0%float = 0x1.3333333333334p-1%float
  /\ PrimFloat.eqb (Binary64.speechTicks 3 0%float) 0x1.3333333333333p-1%float
     = false
  /\ Binary64.speechTicks 10 0%float = 0x1.fffffffffffffp+0%float
  /\ Binary64.overThreshold 2%float (Binary64.speechTicks 10 0%float) = false
  /\ Binary64.overThreshold 2%float (Binary64.speechTicks 11 0%float) = true.
Proof.
  split; [|split].
  - cbv zeta. repeat split; try (vm_compute; reflexivity);
      vm_compute; intro H; discriminate H.
  - cbv zeta. repeat split; try (vm_compute; reflexivity);
      vm_compute; intro H; discriminate H.
  - repeat split; vm_compute; reflexivity.
Qed.

Lemma setupAudioGraph_interval (w : World) (s : App) :
  match setupAudioGraph w s with
  | Returned s1 | Threw s1 => intervalRef s1 = intervalRef s
  end.
Proof.
  unfold setupAudioGraph, andThen. split_matches; cbn; reflexivity.
Qed.

(** The interval that the effect creates carries the bounds of the
    context's sample rate and the analyser's bin count. *)
Lemma detectionEffect_interval (w : World) (s : App) (iv : Interval) :
  intervalRef s = None ->
  intervalRef (fst (detectionEffect w s)) = Some iv ->
  exists sampleRate frequencyBinCount,
    audioContextRef (fst (detectionEffect w s)) = Some sampleRate
    /\ analyserRef (fst (detectionEffect w s)) = Some frequencyBinCount
    /\ iv = mkInterval (startIndexOf sampleRate frequencyBinCount)
                       (endIndexOf sampleRate frequencyBinCount)
                       frequencyBinCount.
Proof.
  intro Hnone. unfold detectionEffect.
  pose proof (setupAudioGraph_interval w s) as Hint.
  destruct (negb (enabled (settings s)) || negb (isPlaying s)).
  - rewrite Hnone. cbn. congruence.
  - destruct (setupAudioGraph w s) as [s1|s1].
    + destruct (analyserRef s1) as [bins|] eqn:Han;
        [destruct (audioContextRef s1) as [rate|] eqn:Hctx|];
        cbn; try congruence.
      intro H. injection H as <-. exists rate, bins.
      rewrite Han, Hctx. repeat split.
    + cbn. congruence.
Qed.

(** On a snapshot that fills [dataArray], the score of a tick is the score
    of the snapshot at the context's sample rate, and it lies in [0, 1]. *)
Lemma tick_score (iv : Interval) (dataArray : list byte) (now : Z) (s : App)
  (bins : Z) (sampleRate : Q) :
  analyserRef s = Some bins ->
  iv = mkInterval (startIndexOf sampleRate (dataArrayLength iv))
                  (endIndexOf sampleRate (dataArrayLength iv))
                  (dataArrayLength iv) ->
  len dataArray = dataArrayLength iv ->
  speechScore (fst (tick iv (Some dataArray) now s))
  = speechScoreOf dataArray sampleRate
  /\ (0 <= speechScore (fst (tick iv (Some dataArray) now s)) <= 1)%Q.
Proof.
  intros Ha Hiv Hlen.
  assert (Hsc : speechScore (fst (tick iv (Some dataArray) now s))
                = scoreOf (startIndex iv) (endIndex iv) dataArray).
  { rewrite (tick_shape iv dataArray now s bins Ha).
    destruct (fired _); cbn; unfold sample, accumulate;
      destruct (isSpeechOf _ _); reflexivity. }
  rewrite Hsc. split; [|apply scoreOf_unit].
  unfold speechScoreOf. rewrite Hlen, Hiv. reflexivity.
Qed.

Lemma nextFallback_In (fallbacks : list string) (currentId next : string) :
  nextFallback fallbacks currentId = Some next -> In next fallbacks.
Proof.
  unfold nextFallback, at_index.
  destruct (len fallbacks =? 0); [discriminate|].
  destruct (indexOf fallbacks currentId =? -1).
  - change (nth_error fallbacks 0 = Some next -> In next fallbacks).
    apply nth_error_In.
  - destruct (_ <? 0); [discriminate | apply nth_error_In].
Qed.

(** When rotation yields nothing, or the current id, no switch is made. *)
Lemma triggerAutoSwitch_noop (s : App) :
  nextFallback (fallbacks s) (currentId s) = None
  \/ nextFallback (fallbacks s) (currentId s) = Some (currentId s) ->
  triggerAutoSwitch s = (s, []).
Proof.
  unfold triggerAutoSwitch. intros [-> | ->]; [reflexivity|].
  rewrite String.eqb_refl, orb_true_r. reflexivity.
Qed.

Lemma only_current_rotation (fallbacks : list string) (currentId : string) :
  Forall (fun stationId => stationId = currentId) fallbacks ->
  nextFallback fallbacks currentId = None
  \/ nextFallback fallbacks currentId = Some currentId.
Proof.
  intro Hall. destruct (nextFallback fallbacks currentId) as [next|] eqn:E;
    [right | now left].
  apply nextFallback_In in E. rewrite Forall_forall in Hall.
  now rewrite (Hall next E).
Qed.

Lemma tick_noop_rotation (iv : Interval) (read : option (list byte))
  (now : Z) (s : App) :
  nextFallback (fallbacks s) (currentId s) = None
  \/ nextFallback (fallbacks s) (currentId s) = Some (currentId s) ->
  switched (snd (tick iv read now s)) = false.
Proof.
  intro Hrot. unfold tick.
  destruct (analyserRef s); [|reflexivity].
  destruct read as [dataArray|]; [|reflexivity].
  unfold trigger.
  destruct (overThreshold _); [|reflexivity].
  destruct (cooldownElapsed _ _); [|reflexivity].
  rewrite triggerAutoSwitch_noop; [reflexivity|].
  destruct (sample_frame iv dataArray s) as (_ & _ & Hid & Hfb & _).
  cbn [fallbacks currentId with_speechSecondsRef with_lastSwitchRef].
  rewrite Hid, Hfb. exact Hrot.
Qed.

(** C6. A tick never changes [currentId], and never calls [setCurrentId],
    in a state whose fallback list is empty or holds only the id of the
    current station (once or several times). *)
Theorem no_switch_without_other_station (stations : list Station) (w : World)
  (read : option (list byte)) (now : Z) (s : App) :
  Forall (fun stationId => stationId = currentId s) (fallbacks s) ->
  currentId (fst (react stations w (Tick read now) s)) = currentId s
  /\ switched (snd (react stations w (Tick read now) s)) = false
  /\ (forall iv,
        currentId (fst (tick iv read now s)) = currentId s
        /\ switched (snd (tick iv read now s)) = false).
Proof.
  intro Hall.
  pose proof (only_current_rotation _ _ Hall) as Hrot.
  assert (Htick : forall iv,
             currentId (fst (tick iv read now s)) = currentId s
             /\ switched (snd (tick iv read now s)) = false).
  { intro iv. pose proof (tick_noop_rotation iv read now s Hrot) as Hw.
    split; [apply tick_switched; exact Hw | exact Hw]. }
  split; [|split; [|exact Htick]].
  - destruct (intervalRef s) as [iv|] eqn:Hiv.
    + destruct (Htick iv) as [Hid _].
      rewrite (react_tick_same stations w iv read now s Hiv Hid). exact Hid.
    + rewrite (react_tick_idle stations w read now s Hiv). reflexivity.
  - destruct (intervalRef s) as [iv|] eqn:Hiv.
    + destruct (Htick iv) as [Hid Hw].
      rewrite (react_tick_same stations w iv read now s Hiv Hid). exact Hw.
    + rewrite (react_tick_idle stations w read now s Hiv). reflexivity.
Qed.

Lemma no_switch_without_other_station_witness :
  switched
    (snd (react demoStations demoWorld (Tick (Some speechFrame) demoEpoch)
            (with_fallbacks ["a"; "a"]%string demoPlaying)))
  = false.
Proof.
  destruct (no_switch_without_other_station demoStations demoWorld
              (Some speechFrame) demoEpoch
              (with_fallbacks ["a"; "a"]%string demoPlaying))
    as (_ & H & _); [|exact H].
  vm_compute. repeat constructor.
Defined.

(** C9. A tick that passes both tests while rotation yields nothing, or
    the current station, still stores [now] in [lastSwitchRef] and [0] in
    the counter; the station is unchanged, and no tick fires again before
    [cooldownSeconds] have passed. *)
Theorem noop_trigger_starts_cooldown (iv : Interval) (dataArray : list byte)
  (now : Z) (s : App) (bins : Z) :
  analyserRef s = Some bins ->
  (speechSeconds (settings s) <= speechSecondsRef (sample iv dataArray s))%Q ->
  (cooldownSeconds (settings s) * 1000 <= inject_Z (now - lastSwitchRef s))%Q ->
  nextFallback (fallbacks s) (currentId s) = None
  \/ nextFallback (fallbacks s) (currentId s) = Some (currentId s) ->
  let s' := fst (tick iv (Some dataArray) now s) in
  fired (snd (tick iv (Some dataArray) now s)) = true
  /\ switched (snd (tick iv (Some dataArray) now s)) = false
  /\ currentId s' = currentId s
  /\ lastSwitchRef s' = now
  /\ speechSecondsRef s' = 0%Q
  /\ (forall iv' read' later,
        (inject_Z (later - now) < cooldownSeconds (settings s) * 1000)%Q ->
        fired (snd (tick iv' read' later s')) = false).
Proof.
  intros Ha Hthr Hcool Hrot s'.
  assert (Hf : fired (snd (tick iv (Some dataArray) now s)) = true)
    by (apply (tick_fired_iff iv dataArray now s bins Ha); now split).
  pose proof (tick_noop_rotation iv (Some dataArray) now s Hrot) as Hw.
  pose proof (tick_switched iv (Some dataArray) now s Hw) as Hid.
  pose proof (tick_shape iv dataArray now s bins Ha) as Hs'.
  rewrite Hf in Hs'. fold s' in Hs', Hid.
  assert (Hlast : lastSwitchRef s' = now) by (rewrite Hs'; reflexivity).
  repeat split; try assumption.
  - rewrite Hs'. reflexivity.
  - intros iv' read' later Hlt.
    destruct (tick_frame iv (Some dataArray) now s) as (Hst & _ & _ & _ & Han).
    fold s' in Hst, Han. rewrite Ha in Han.
    destruct read' as [dataArray'|];
      [|unfold tick; rewrite Han; reflexivity].
    apply not_true_is_false. intro Hf'.
    apply (tick_fired_iff iv' dataArray' later s' bins Han) in Hf'.
    destruct Hf' as [_ Hc]. rewrite Hst, Hlast in Hc. lra.
Qed.

Lemma failover_trigger_fires_iff_witness :
  fired (snd (tick demoInterval (Some speechFrame)
                (lastSwitchRef demoNearThreshold + 5000) demoNearThreshold))
  = false
  /\ fired (snd (tick demoInterval (Some speechFrame)
                   (lastSwitchRef demoNearThreshold + 13000)
                   demoNearThreshold))
     = true.
Proof.
  destruct (failover_trigger_fires_iff demoInterval speechFrame
              demoNearThreshold 1024) as [_ H];
    [vm_compute; reflexivity|].
  destruct H as [H5 H13];
    [vm_compute; reflexivity | vm_compute; discriminate |].
  split; [exact H5 | exact H13].
Defined.

Lemma noop_trigger_starts_cooldown_witness :
  lastSwitchRef
    (fst (tick demoInterval (Some speechFrame) (demoEpoch + 6000)
            (with_fallbacks ["a"]%string demoNearThreshold)))
  = demoEpoch + 6000.
Proof.
  destruct (noop_trigger_starts_cooldown demoInterval speechFrame
              (demoEpoch + 6000)
              (with_fallbacks ["a"]%string demoNearThreshold) 1024)
    as (_ & _ & _ & H & _);
    [vm_compute; reflexivity | vm_compute; discriminate
     | vm_compute; discriminate | right; vm_compute; reflexivity | exact H].
Defined.

(** A handler that does not fire leaves [lastSwitchRef] alone. *)
Lemma handle_lastSwitch (e : Event) (s : App) :
  fired (snd (handle e s)) = false ->
  lastSwitchRef (fst (handle e s)) = lastSwitchRef s.
Proof.
  destruct e as [read now| | | | |]; try reflexivity.
  cbn [handle]. destruct (intervalRef s) as [iv|]; [|reflexivity].
  destruct (analyserRef s) as [bins|] eqn:Ha;
    [|unfold tick; rewrite Ha; reflexivity].
  destruct read as [dataArray|]; [|unfold tick; rewrite Ha; reflexivity].
  intro Hf. rewrite (tick_shape iv dataArray now s bins Ha), Hf.
  destruct (sample_frame iv dataArray s) as (_ & Hl & _). exact Hl.
Qed.

Lemma run_lastSwitch (stations : list Station) (es : list (World * Event)) :
  forall s,
    fired (snd (run stations es s)) = false ->
    lastSwitchRef (fst (run stations es s)) = lastSwitchRef s.
Proof.
  induction es as [|[w e] es IH]; intros s Hf; [reflexivity|].
  cbn [run] in *.
  destruct (react_after_handle stations w e s) as (Hl & _ & _ & _ & Hfr & _).
  destruct (react stations w e s) as [s1 c1]. cbn [fst snd] in *.
  specialize (IH s1).
  destruct (run stations es s1) as [s2 c2]. cbn [fst snd] in *.
  rewrite fired_app in Hf. apply orb_false_iff in Hf. destruct Hf as [Hf1 Hf2].
  rewrite (IH Hf2), Hl. apply handle_lastSwitch. now rewrite <- Hfr.
Qed.

(** C10. [lastSwitchRef] starts at [0] and stays [0] until the trigger
    first fires; at that point, for a cooldown between 5 and 60 seconds and
    a clock that reads at least one minute past the epoch, the first tick
    whose counter reaches [speechSeconds] passes the cooldown test and
    fires. *)
Theorem first_trigger_not_blocked (stations : list Station)
  (st : TalkKillerSettings) (fb : list string) (es : list (World * Event))
  (iv : Interval) (dataArray : list byte) (now : Z) (bins : Z) :
  let s := fst (run stations es (initialApp stations st fb)) in
  fired (snd (run stations es (initialApp stations st fb))) = false ->
  analyserRef s = Some bins ->
  (5 <= cooldownSeconds (settings s) <= 60)%Q ->
  60000 <= now ->
  (speechSeconds (settings s) <= speechSecondsRef (sample iv dataArray s))%Q ->
  lastSwitchRef (initialApp stations st fb) = 0
  /\ lastSwitchRef s = 0
  /\ fired (snd (tick iv (Some dataArray) now s)) = true.
Proof.
  intros s Hquiet Ha [Hc5 Hc60] Hnow Hthr.
  assert (Hl : lastSwitchRef s = 0)
    by (unfold s; rewrite run_lastSwitch by exact Hquiet; reflexivity).
  split; [reflexivity|]. split; [exact Hl|].
  apply (tick_fired_iff iv dataArray now s bins Ha). split; [exact Hthr|].
  rewrite Hl, Z.sub_0_r.
  assert (Hq : (60000 <= inject_Z now)%Q).
  { change 60000%Q with (inject_Z 60000). now rewrite <- Zle_Qle. }
  lra.
Qed.

Lemma first_trigger_not_blocked_witness :
  fired (snd (tick demoInterval (Some speechFrame) (demoEpoch + 6000)
                (fst (run demoStations
                        ((demoWorld, AudioPlay) :: speechTicks demoEpoch 29)
                        (initialApp demoStations defaultSettings
                           ["a"; "b"; "c"]%string)))))
  = true.
Proof.
  destruct (first_trigger_not_blocked demoStations defaultSettings
              ["a"; "b"; "c"]%string
              ((demoWorld, AudioPlay) :: speechTicks demoEpoch 29)
              demoInterval speechFrame (demoEpoch + 6000) 1024)
    as (_ & _ & H);
    [vm_compute; reflexivity | vm_compute; reflexivity
     | split; vm_compute; discriminate | vm_compute; discriminate
     | vm_compute; discriminate | exact H].
Defined.

(** C5, as the code has it. The counter is set to zero by a sample that
    is not speech and by a firing trigger; a restart of the loop, and every
    event other than a tick (station change, play, pause, settings change,
    fallback change), leaves the counter as it was. *)
Theorem restart_keeps_counter :
  (forall w s, speechSecondsRef (fst (restart w s)) = speechSecondsRef s)
  /\ (forall stations w e s,
        (forall read now, e <> Tick read now) ->
        speechSecondsRef (fst (react stations w e s)) = speechSecondsRef s)
  /\ (forall iv dataArray now s bins,
        analyserRef s = Some bins ->
        isSpeechOf (scoreOf (startIndex iv) (endIndex iv) dataArray)
                   (settings s) = false ->
        speechSecondsRef (fst (tick iv (Some dataArray) now s)) = 0%Q)
  /\ (forall iv dataArray now s bins,
        analyserRef s = Some bins ->
        fired (snd (tick iv (Some dataArray) now s)) = true ->
        speechSecondsRef (fst (tick iv (Some dataArray) now s)) = 0%Q).
Proof.
  split; [intros w s; apply restart_frame|]. split; [|split].
  - intros stations w e s Hnt.
    destruct (react_after_handle stations w e s) as (_ & -> & _).
    destruct e as [read now| | | | |]; try reflexivity.
    exfalso. now apply (Hnt read now).
  - intros iv dataArray now s bins Ha Hns.
    rewrite (tick_shape iv dataArray now s bins Ha).
    destruct (fired _); [reflexivity|].
    cbn [speechSecondsRef with_currentId].
    rewrite sample_counter, Hns. reflexivity.
  - intros iv dataArray now s bins Ha Hf.
    rewrite (tick_shape iv dataArray now s bins Ha), Hf. reflexivity.
Qed.

Lemma restart_keeps_counter_witness :
  speechSecondsRef
    (fst (react demoStations demoWorld (SelectStation "b") demoAfterFive))
  = speechSecondsRef demoAfterFive
  /\ speechSecondsRef
       (fst (tick demoInterval (Some musicFrame) demoEpoch demoAfterFive))
     = 0%Q.
Proof.
  destruct restart_keeps_counter as (_ & Hev & Hmusic & _).
  split.
  - apply Hev. intros read now. discriminate.
  - apply (Hmusic demoInterval musicFrame demoEpoch demoAfterFive 1024);
      vm_compute; reflexivity.
Defined.

(** C5 as stated fails: after five speech ticks the counter holds [1]; a
    station change, a pause followed by play, and a change of [sensitivity]
    each restart the loop (the interval is cleared and set again) and the
    counter still holds [1]. *)
Lemma restart_resets_counter_counterexample :
  (speechSecondsRef demoAfterFive == 1)%Q
  /\ (let r := react demoStations demoWorld (SelectStation "b")
                 demoAfterFive in
      snd r = [Call_setCurrentId "b"%string; Call_clearInterval;
               Call_setupAudioGraph; Call_setInterval;
               Call_setAnalysisBlocked false]
      /\ ~ (speechSecondsRef (fst r) == 0)%Q)
  /\ (let r := run demoStations
                 [(demoWorld, AudioPause); (demoWorld, AudioPlay)]
                 demoAfterFive in
      snd r = [Call_clearInterval; Call_setupAudioGraph; Call_setInterval]
      /\ ~ (speechSecondsRef (fst r) == 0)%Q)
  /\ (let r := react demoStations demoWorld
                 (SetSettings (mkSettings true 6 (5 # 10) 12))
                 demoAfterFive in
      snd r = [Call_clearInterval; Call_setupAudioGraph; Call_setInterval]
      /\ ~ (speechSecondsRef (fst r) == 0)%Q).
Proof.
  split; [vm_compute; reflexivity|].
  repeat split; try (vm_compute; reflexivity);
    vm_compute; intro H; discriminate H.
Qed.

(** With no live interval, timer ticks reach no callback. *)
Lemma idle_ticks (stations : list Station) (es : list (World * Event)) :
  forall s,
    intervalRef s = None -> Forall isTick es ->
    run stations es s = (s, []).
Proof.
  induction es as [|[w e] es IH]; intros s Hiv Hall; [reflexivity|].
  inversion Hall as [|? ? Hhead Htail]; subst.
  unfold isTick in Hhead. cbn [snd] in Hhead.
  destruct e as [read now| | | | |]; try contradiction.
  cbn [run]. rewrite (react_tick_idle stations w read now s Hiv).
  rewrite (IH s Hiv Htail). reflexivity.
Qed.

(** X25. What the failure paths do achieve. A failed read sets
    [analysisBlocked] and clears the interval; a run of the effect whose
    setup throws sets [analysisBlocked] and starts no interval; from then on
    ticks read nothing and change nothing, for as long as the effect does
    not run again. *)
Theorem analysis_failure_stops_sampling :
  (forall iv now s bins,
     analyserRef s = Some bins ->
     analysisBlocked (fst (tick iv None now s)) = true
     /\ intervalRef (fst (tick iv None now s)) = None
     /\ snd (tick iv None now s)
        = [Call_getByteFrequencyData; Call_setAnalysisBlocked true;
           Call_clearInterval])
  /\ (forall w s s1,
        enabled (settings s) = true -> isPlaying s = true ->
        setupAudioGraph w (fst (cleanup s)) = Threw s1 ->
        analysisBlocked (fst (restart w s)) = true
        /\ intervalRef (fst (restart w s)) = None
        /\ reads (snd (restart w s)) = 0%nat)
  /\ (forall stations es s,
        intervalRef s = None -> Forall isTick es ->
        fst (run stations es s) = s
        /\ reads (snd (run stations es s)) = 0%nat).
Proof.
  split; [|split].
  - intros iv now s bins Ha. unfold tick. rewrite Ha. repeat split.
  - intros w s s1 Hen Hpl Hthrow.
    destruct (restart_quiet w s) as (_ & _ & Hr).
    split; [|split; [|exact Hr]].
    + unfold restart, cleanup in *.
      destruct (intervalRef s); cbn [fst] in Hthrow; unfold detectionEffect;
        cbn [settings isPlaying with_intervalRef];
        rewrite Hen, Hpl; cbn [negb orb]; rewrite Hthrow; reflexivity.
    + pose proof (setupAudioGraph_interval w (fst (cleanup s))) as Hint.
      rewrite Hthrow in Hint.
      unfold restart, cleanup in *.
      destruct (intervalRef s) eqn:Hiv; cbn [fst] in Hthrow, Hint;
        unfold detectionEffect;
        cbn [settings isPlaying with_intervalRef];
        rewrite Hen, Hpl; cbn [negb orb]; rewrite Hthrow; cbn;
        rewrite Hint; [reflexivity | exact Hiv].
  - intros stations es s Hiv Hall.
    rewrite (idle_ticks stations es s Hiv Hall). split; reflexivity.
Qed.

Lemma analysis_failure_stops_sampling_witness :
  analysisBlocked (fst (tick demoInterval None demoEpoch demoPlaying)) = true
  /\ analysisBlocked (fst (restart faultyWorld (with_isPlaying true demoStart)))
     = true
  /\ reads
       (snd (run demoStations
               (speechTicks demoEpoch 5)
               (fst (tick demoInterval None demoEpoch demoPlaying))))
     = 0%nat.
Proof.
  destruct analysis_failure_stops_sampling as (Hread & Hsetup & Hidle).
  split; [|split].
  - apply (Hread demoInterval demoEpoch demoPlaying 1024).
    vm_compute; reflexivity.
  - apply (Hsetup faultyWorld (with_isPlaying true demoStart)
             (with_audioContextRef (Some 48000%Q)
                (with_isPlaying true demoStart)));
      vm_compute; reflexivity.
  - apply (Hidle demoStations (speechTicks demoEpoch 5)
             (fst (tick demoInterval None demoEpoch demoPlaying))).
    + vm_compute; reflexivity.
    + repeat constructor.
Defined.

(** C7. The code at a session in which a read fails on station "a": the
    flag is set and the interval is gone, as the claim says; but a pause
    followed by play runs the effect again, which calls [setupAudioGraph]
    and starts a new interval, and the following ticks read the analyser on
    station "a" with [analysisBlocked] still set, until the trigger fires
    and switches to "b".  The same retry follows a setup that threw. *)
Theorem failure_is_retried :
  (let failed := fst (react demoStations demoWorld (Tick None demoEpoch)
                        demoPlaying) in
   let r := run demoStations
              [(demoWorld, AudioPause); (demoWorld, AudioPlay);
               (demoWorld, Tick (Some speechFrame) (demoEpoch + 200))]
              failed in
   let r29 := run demoStations
                ((demoWorld, AudioPause) :: (demoWorld, AudioPlay)
                 :: speechTicks demoEpoch 29) failed in
   analysisBlocked failed = true /\ intervalRef failed = None
   /\ currentId failed = "a"%string /\ currentId (fst r) = "a"%string
   /\ analysisBlocked (fst r) = true
   /\ snd r = [Call_setupAudioGraph; Call_setInterval;
               Call_getByteFrequencyData;
               Call_setSpeechScore (29580 # 29580);
               Call_setSpeechLabel "Speech-ish"%string]
   /\ reads (snd r) = 1%nat
   /\ currentId (fst r29) = "a"%string
   /\ analysisBlocked (fst r29) = true
   /\ reads (snd r29) = 29%nat
   /\ switched (snd (handle (Tick (Some speechFrame) (demoEpoch + 6000))
                       (fst r29))) = true
   /\ currentId (fst (handle (Tick (Some speechFrame) (demoEpoch + 6000))
                         (fst r29))) = "b"%string)
  /\ (let failed := fst (react demoStations faultyWorld AudioPlay demoStart) in
      let r := run demoStations
                 [(demoWorld, AudioPause); (demoWorld, AudioPlay);
                  (demoWorld, Tick (Some speechFrame) (demoEpoch + 200))]
                 failed in
      analysisBlocked failed = true /\ intervalRef failed = None
      /\ currentId failed = "a"%string /\ currentId (fst r) = "a"%string
      /\ analysisBlocked (fst r) = true
      /\ reads (snd r) = 1%nat).
Proof.
  vm_compute. repeat split; reflexivity.
Qed.

End LoopFacts.

(** * Further properties of the modelled code *)

(** ** Rotation and the fallback list *)

Section FallbackFacts.

Lemma first_occurrence_exists (l : list string) (x : string) :
  In x l -> exists i, first_occurrence l x i.
Proof.
  induction l as [|y l IH]; intro Hin; [contradiction|].
  destruct (String.eqb_spec y x) as [->|Hne].
  - exists 0%nat. split; [reflexivity|]. intros j Hj. lia.
  - destruct Hin as [->|Hin]; [contradiction|].
    destruct (IH Hin) as [i [Hi Hmin]]. exists (S i). split; [exact Hi|].
    intros [|j] Hj; cbn; [congruence|]. apply Hmin. lia.
Qed.

(** The successor of the first occurrence, as a lemma of its own. *)
Lemma nextFallback_after_first (l : list string) (x : string) (i : nat) :
  first_occurrence l x i ->
  nextFallback l x = nth_error l ((i + 1) mod List.length l)%nat.
Proof.
  intro Hfirst. pose proof (first_occurrence_lt _ _ _ Hfirst) as Hlt.
  assert (Hne : l <> []) by (intros ->; simpl in Hlt; lia).
  unfold nextFallback. rewrite len_nonempty by exact Hne.
  unfold indexOf. rewrite (indexOfFrom_first _ _ i 0 Hfirst).
  destruct (Z.eqb_spec (0 + Z.of_nat i) (-1)) as [E|_]; [lia|].
  rewrite Z.rem_mod_nonneg by (unfold len; lia).
  unfold len. replace (0 + Z.of_nat i + 1) with (Z.of_nat (i + 1)) by lia.
  rewrite <- Nat2Z.inj_mod. apply at_index_nat.
Qed.

(** X1. [nextFallback] returns [null] only for the empty list; on any other
    list it returns one of the list's elements, whatever the current id. *)
Theorem nextFallback_total (fallbacks : list string) (currentId : string) :
  (nextFallback fallbacks currentId = None <-> fallbacks = [])
  /\ (forall next,
        nextFallback fallbacks currentId = Some next -> In next fallbacks).
Proof.
  split; [|intros next; apply nextFallback_In].
  split; [|intros ->; reflexivity].
  intro Hnone. destruct fallbacks as [|first rest]; [reflexivity|].
  exfalso. destruct (in_dec string_dec currentId (first :: rest)) as [Hin|Hn].
  - destruct (first_occurrence_exists _ _ Hin) as [i Hi].
    rewrite (nextFallback_after_first _ _ _ Hi) in Hnone.
    apply nth_error_None in Hnone.
    pose proof (Nat.mod_upper_bound (i + 1) (List.length (first :: rest))).
    cbn [List.length] in *. lia.
  - unfold nextFallback in Hnone. rewrite len_nonempty in Hnone by discriminate.
    unfold indexOf in Hnone. rewrite indexOfFrom_absent in Hnone by exact Hn.
    discriminate Hnone.
Qed.

Lemma NoDup_first_occurrence (l : list string) (x : string) (i : nat) :
  NoDup l -> nth_error l i = Some x -> first_occurrence l x i.
Proof.
  intros Hnd Hi. split; [exact Hi|]. intros j Hj Hjx.
  assert (Hlt : (j < List.length l)%nat)
    by (apply nth_error_Some; congruence).
  pose proof (proj1 (NoDup_nth_error l) Hnd j i Hlt) as Hinj.
  rewrite Hi, Hjx in Hinj. specialize (Hinj eq_refl). lia.
Qed.

(** With no empty id in the list, [triggerAutoSwitch] moves the session to
    what [nextFallback] returns: the guard of line 582 refuses only the
    current id itself. *)
Lemma triggerAutoSwitch_next (s : App) (next : string) :
  nextFallback (fallbacks s) (currentId s) = Some next ->
  next <> ""%string ->
  currentId (fst (triggerAutoSwitch s)) = next
  /\ fallbacks (fst (triggerAutoSwitch s)) = fallbacks s.
Proof.
  intros Hnext Hne. unfold triggerAutoSwitch. rewrite Hnext.
  destruct (String.eqb_spec next ""); [contradiction|].
  destruct (String.eqb_spec next (currentId s)) as [->|_]; cbn;
    split; reflexivity.
Qed.

Lemma afterSwitches_index (s : App) (i k : nat) :
  NoDup (fallbacks s) -> ~ In ""%string (fallbacks s) ->
  nth_error (fallbacks s) i = Some (currentId s) ->
  fallbacks (afterSwitches k s) = fallbacks s
  /\ nth_error (fallbacks s) ((i + k) mod List.length (fallbacks s))%nat
     = Some (currentId (afterSwitches k s)).
Proof.
  intros Hnd Hempty Hi.
  assert (Hlt : (i < List.length (fallbacks s))%nat)
    by (apply nth_error_Some; congruence).
  induction k as [|k [IHf IHc]].
  - cbn [afterSwitches]. split; [reflexivity|].
    now rewrite Nat.add_0_r, Nat.mod_small by exact Hlt.
  - cbn [afterSwitches]. set (sk := afterSwitches k s) in *.
    pose proof (NoDup_first_occurrence _ _ _ Hnd IHc) as Hfirst.
    pose proof (nextFallback_after_first _ _ _ Hfirst) as Hnext.
    rewrite Nat.Div0.add_mod_idemp_l in Hnext.
    replace (i + k + 1)%nat with (i + S k)%nat in Hnext by lia.
    destruct (nth_error (fallbacks s)
                ((i + S k) mod List.length (fallbacks s))%nat)
      as [next|] eqn:Hy.
    + assert (Hne : next <> ""%string).
      { intros ->. apply Hempty. eapply nth_error_In. exact Hy. }
      rewrite <- IHf in Hnext.
      destruct (triggerAutoSwitch_next sk next Hnext Hne) as [Hc Hf].
      split; [congruence|]. now rewrite Hc.
    + apply nth_error_None in Hy.
      pose proof (Nat.mod_upper_bound (i + S k) (List.length (fallbacks s))).
      lia.
Qed.

(** X2. On a fallback list without duplicates and without an empty id,
    rotation is one cycle through the whole list: from the station at
    position [i], [k] calls of [triggerAutoSwitch] lead to the station at
    position [(i + k) mod length] and leave the list as it is; so [length]
    calls lead back to the start, and every station of the list is reached
    within [length - 1] calls. *)
Theorem rotation_is_a_cycle (s : App) (i : nat) :
  NoDup (fallbacks s) -> ~ In ""%string (fallbacks s) ->
  nth_error (fallbacks s) i = Some (currentId s) ->
  (forall k,
     fallbacks (afterSwitches k s) = fallbacks s
     /\ nth_error (fallbacks s) ((i + k) mod List.length (fallbacks s))%nat
        = Some (currentId (afterSwitches k s)))
  /\ currentId (afterSwitches (List.length (fallbacks s)) s) = currentId s
  /\ (forall other, In other (fallbacks s) ->
        exists k, (k < List.length (fallbacks s))%nat
                  /\ currentId (afterSwitches k s) = other).
Proof.
  intros Hnd Hempty Hi.
  assert (Hlt : (i < List.length (fallbacks s))%nat)
    by (apply nth_error_Some; congruence).
  pose proof (fun k => afterSwitches_index s i k Hnd Hempty Hi) as Hk.
  split; [exact Hk|]. split.
  - destruct (Hk (List.length (fallbacks s))) as [_ Hc].
    replace (i + List.length (fallbacks s))%nat
      with (i + 1 * List.length (fallbacks s))%nat in Hc by lia.
    rewrite Nat.Div0.mod_add, Nat.mod_small in Hc by exact Hlt. congruence.
  - intros other Hin. apply In_nth_error in Hin. destruct Hin as [j Hj].
    assert (Hjlt : (j < List.length (fallbacks s))%nat)
      by (apply nth_error_Some; congruence).
    exists ((j + List.length (fallbacks s) - i)
            mod List.length (fallbacks s))%nat.
    split; [apply Nat.mod_upper_bound; lia|].
    destruct (Hk ((j + List.length (fallbacks s) - i)
                  mod List.length (fallbacks s))%nat) as [_ Hc].
    rewrite Nat.Div0.add_mod_idemp_r in Hc.
    replace (i + (j + List.length (fallbacks s) - i))%nat
      with (j + 1 * List.length (fallbacks s))%nat in Hc by lia.
    rewrite Nat.Div0.mod_add, Nat.mod_small in Hc by exact Hjlt. congruence.
Qed.

Lemma rotation_is_a_cycle_witness :
  currentId (afterSwitches 3 (with_currentId "b"%string demoStart))
  = "b"%string.
Proof.
  destruct (rotation_is_a_cycle (with_currentId "b"%string demoStart) 1)
    as (_ & H & _); [| |reflexivity|exact H].
  - repeat constructor; cbn; intuition discriminate.
  - cbn. intuition discriminate.
Defined.

(** An empty id in the list stops the rotation: [triggerAutoSwitch] refuses
    it, so the session stays on the station before it. *)
Example empty_id_stops_rotation :
  let s := with_fallbacks ["a"; ""; "b"]%string demoStart in
  nextFallback (fallbacks s) (currentId s) = Some ""%string
  /\ forall k, afterSwitches k s = s.
Proof.
  split; [reflexivity|].
  induction k as [|k IH]; [reflexivity|].
  cbn [afterSwitches]. rewrite IH. reflexivity.
Qed.

Lemma existsb_eqb_In (x : string) (l : list string) :
  existsb (String.eqb x) l = true <-> In x l.
Proof.
  rewrite existsb_exists. split.
  - intros [y [Hin Heq]]. apply String.eqb_eq in Heq. now subst.
  - intro Hin. exists x. split; [exact Hin | apply String.eqb_refl].
Qed.

Lemma toggleFallback_present (stationId : string) (prev : list string) :
  In stationId prev ->
  toggleFallback stationId prev
  = filter (fun id' => negb (String.eqb id' stationId)) prev.
Proof.
  intro Hin. unfold toggleFallback.
  now rewrite (proj2 (existsb_eqb_In stationId prev) Hin).
Qed.

Lemma toggleFallback_absent (stationId : string) (prev : list string) :
  ~ In stationId prev -> toggleFallback stationId prev = prev ++ [stationId].
Proof.
  intro Hn. unfold toggleFallback.
  destruct (existsb (String.eqb stationId) prev) eqn:E; [|reflexivity].
  exfalso. apply Hn. now apply existsb_eqb_In.
Qed.

Lemma filter_other_id (stationId : string) (l : list string) :
  ~ In stationId l ->
  filter (fun id' => negb (String.eqb id' stationId)) l = l.
Proof.
  induction l as [|y l IH]; intro Hn; [reflexivity|]. cbn.
  destruct (String.eqb_spec y stationId) as [->|_].
  - exfalso. apply Hn. now left.
  - cbn. rewrite IH; [reflexivity|]. intro H. apply Hn. now right.
Qed.

Lemma filter_twice {A : Type} (f : A -> bool) (l : list A) :
  filter f (filter f l) = filter f l.
Proof.
  induction l as [|y l IH]; [reflexivity|]. cbn.
  destruct (f y) eqn:E; cbn; [rewrite E, IH; reflexivity | exact IH].
Qed.

(** X3. Toggling a station flips its membership in the fallback list and
    touches no other station: an absent id is appended at the end of the
    list, a present id loses every occurrence, and the other ids keep their
    places and order. *)
Theorem toggleFallback_flips_membership (stationId : string)
  (prev : list string) :
  (~ In stationId prev -> toggleFallback stationId prev = prev ++ [stationId])
  /\ (In stationId prev ->
      toggleFallback stationId prev
      = filter (fun id' => negb (String.eqb id' stationId)) prev)
  /\ (In stationId (toggleFallback stationId prev) <-> ~ In stationId prev)
  /\ (forall other, other <> stationId ->
        (In other (toggleFallback stationId prev) <-> In other prev))
  /\ filter (fun id' => negb (String.eqb id' stationId))
            (toggleFallback stationId prev)
     = filter (fun id' => negb (String.eqb id' stationId)) prev.
Proof.
  split; [apply toggleFallback_absent|].
  split; [apply toggleFallback_present|].
  destruct (in_dec string_dec stationId prev) as [Hin|Hn].
  - rewrite (toggleFallback_present _ _ Hin). split; [|split].
    + rewrite filter_In, String.eqb_refl. cbn. intuition discriminate.
    + intros other Hne. rewrite filter_In.
      destruct (String.eqb_spec other stationId); [contradiction|].
      cbn. intuition.
    + apply filter_twice.
  - rewrite (toggleFallback_absent _ _ Hn). split; [|split].
    + rewrite in_app_iff. cbn. intuition.
    + intros other Hne. rewrite in_app_iff. cbn. intuition congruence.
    + rewrite filter_app. cbn. rewrite String.eqb_refl. cbn.
      apply app_nil_r.
Qed.

Lemma toggleFallback_NoDup (stationId : string) (prev : list string) :
  NoDup prev -> NoDup (toggleFallback stationId prev).
Proof.
  intro Hnd. destruct (in_dec string_dec stationId prev) as [Hin|Hn].
  - rewrite (toggleFallback_present _ _ Hin). now apply NoDup_filter.
  - rewrite (toggleFallback_absent _ _ Hn).
    apply NoDup_app; [exact Hnd | repeat constructor; intros [] |].
    intros x Hx [<-|[]]. contradiction.
Qed.

(** X4. The toggle keeps a duplicate-free fallback list duplicate-free, so
    every list built from the empty list by toggles is duplicate-free (and
    rotation over it is one cycle); toggling twice a station that was not
    listed gives the list back. *)
Theorem toggleFallback_keeps_distinct :
  (forall stationId prev,
     NoDup prev -> NoDup (toggleFallback stationId prev))
  /\ (forall clicks,
        NoDup (fold_left (fun l stationId => toggleFallback stationId l)
                         clicks []))
  /\ (forall stationId prev,
        ~ In stationId prev ->
        toggleFallback stationId (toggleFallback stationId prev) = prev).
Proof.
  split; [exact toggleFallback_NoDup|]. split.
  - intro clicks.
    assert (H : forall l, NoDup l ->
              NoDup (fold_left (fun l stationId => toggleFallback stationId l)
                               clicks l)).
    { induction clicks as [|c clicks IH]; intros l Hl; [exact Hl|].
      cbn. apply IH. now apply toggleFallback_NoDup. }
    apply H. constructor.
  - intros stationId prev Hn. rewrite (toggleFallback_absent _ _ Hn).
    rewrite toggleFallback_present by (rewrite in_app_iff; right; now left).
    rewrite filter_app. cbn. rewrite String.eqb_refl. cbn.
    rewrite app_nil_r. now apply filter_other_id.
Qed.

Lemma toggleFallback_keeps_distinct_witness :
  toggleFallback "b"%string (toggleFallback "b"%string ["a"; "c"]%string)
  = ["a"; "c"]%string.
Proof.
  destruct toggleFallback_keeps_distinct as (_ & _ & H).
  apply H. cbn. intuition discriminate.
Defined.

End FallbackFacts.

(** ** Invariants of the session *)

Section SessionInvariants.

(** What [setupAudioGraph] leaves behind: refs that were filled stay as
    they were, and after a normal return all three are filled. *)
Lemma setupAudioGraph_refs (w : World) (s : App) :
  match setupAudioGraph w s with
  | Returned s1 =>
      audioContextRef s1 <> None /\ sourceRef s1 = true
      /\ analyserRef s1 <> None
      /\ (forall r, audioContextRef s = Some r -> audioContextRef s1 = Some r)
      /\ (sourceRef s = true -> sourceRef s1 = true)
      /\ (forall b, analyserRef s = Some b -> analyserRef s1 = Some b)
      /\ (forall b, analyserRef s1 = Some b ->
           analyserRef s = Some b \/ b = fftSize / 2)
  | Threw s1 =>
      (forall r, audioContextRef s = Some r -> audioContextRef s1 = Some r)
      /\ (sourceRef s = true -> sourceRef s1 = true)
      /\ (forall b, analyserRef s = Some b -> analyserRef s1 = Some b)
      /\ (forall b, analyserRef s1 = Some b ->
           analyserRef s = Some b \/ b = fftSize / 2)
  end.
Proof.
  unfold setupAudioGraph, andThen.
  split_matches; cbn; repeat split; intros; try congruence;
    try (left; congruence); try (right; congruence).
Qed.

(** X5. Building the audio graph is idempotent: once [setupAudioGraph] has
    returned normally, a later call changes nothing and cannot throw,
    whichever browser call would fail; and a call never clears or replaces
    a ref that is already filled. *)
Theorem setupAudioGraph_idempotent (w w' : World) (s s1 : App) :
  setupAudioGraph w s = Returned s1 ->
  setupAudioGraph w' s1 = Returned s1
  /\ (forall r, audioContextRef s = Some r -> audioContextRef s1 = Some r)
  /\ (forall b, analyserRef s = Some b -> analyserRef s1 = Some b).
Proof.
  intro H. pose proof (setupAudioGraph_refs w s) as Hrefs.
  rewrite H in Hrefs. destruct Hrefs as (Hc & Hs & Ha & Hkc & _ & Hka & _).
  split; [|split; assumption].
  unfold setupAudioGraph, andThen.
  destruct (audioContextRef s1) eqn:E1; [|congruence].
  rewrite Hs. destruct (analyserRef s1) eqn:E3; [reflexivity | congruence].
Qed.

Lemma setupAudioGraph_idempotent_witness :
  setupAudioGraph faultyWorld (with_intervalRef None demoPlaying)
  = Returned (with_intervalRef None demoPlaying).
Proof.
  destruct (setupAudioGraph_idempotent demoWorld faultyWorld
              (with_isPlaying true demoStart)
              (with_intervalRef None demoPlaying)) as (H & _);
    [vm_compute; reflexivity | exact H].
Defined.

Lemma tick_graph (iv : Interval) (read : option (list byte)) (now : Z)
  (s : App) :
  audioContextRef (fst (tick iv read now s)) = audioContextRef s
  /\ sourceRef (fst (tick iv read now s)) = sourceRef s
  /\ (intervalRef (fst (tick iv read now s)) = intervalRef s
      \/ intervalRef (fst (tick iv read now s)) = None).
Proof.
  destruct (analyserRef s) as [bins|] eqn:Ha;
    [|unfold tick; rewrite Ha; repeat split; now left].
  destruct read as [dataArray|];
    [|unfold tick; rewrite Ha; repeat split; now right].
  rewrite (tick_shape iv dataArray now s bins Ha).
  destruct (fired _); cbn; unfold sample, accumulate;
    destruct (isSpeechOf _ _); cbn; repeat split; now left.
Qed.

(** What a handler can do to the refs and to the two flags of the loop. *)
Lemma handle_loop_fields (e : Event) (s : App) :
  audioContextRef (fst (handle e s)) = audioContextRef s
  /\ sourceRef (fst (handle e s)) = sourceRef s
  /\ analyserRef (fst (handle e s)) = analyserRef s
  /\ (intervalRef (fst (handle e s)) = intervalRef s
      \/ intervalRef (fst (handle e s)) = None)
  /\ ((forall read now, e = Tick read now ->
        settings (fst (handle e s)) = settings s
        /\ isPlaying (fst (handle e s)) = isPlaying s
        /\ fallbacks (fst (handle e s)) = fallbacks s)).
Proof.
  destruct e as [read now| | | | |];
    try (cbn; repeat split; try (now left); intros; discriminate).
  cbn [handle]. destruct (intervalRef s) as [iv|] eqn:Hiv.
  - destruct (tick_graph iv read now s) as (Hc & Hs & Hi).
    destruct (tick_frame iv read now s) as (Hst & Hfb & Hpl & _ & Ha).
    rewrite Hiv in Hi. repeat split; try assumption.
  - cbn. repeat split; try assumption. now left.
Qed.

Lemma depsChanged_false (old new : App) :
  depsChanged old new = false ->
  enabled (settings new) = enabled (settings old)
  /\ isPlaying new = isPlaying old.
Proof.
  unfold depsChanged. intro H.
  repeat (apply orb_false_iff in H; destruct H as [H ?]).
  repeat match goal with
         | X : negb _ = false |- _ => apply negb_false_iff in X
         end.
  split; symmetry; now apply Bool.eqb_prop.
Qed.

Lemma restart_loopInvariant (w : World) (s : App) :
  loopInvariant (fst (restart w s)).
Proof.
  unfold restart, cleanup.
  assert (H : forall s0, intervalRef s0 = None ->
                         loopInvariant (fst (detectionEffect w s0))).
  { intros s0 Hnone. unfold detectionEffect, loopInvariant.
    destruct (negb (enabled (settings s0)) || negb (isPlaying s0)) eqn:Hc.
    - rewrite Hnone. cbn. congruence.
    - apply orb_false_iff in Hc. destruct Hc as [He Hp].
      apply negb_false_iff in He, Hp.
      pose proof (setupAudioGraph_refs w s0) as Hrefs.
      pose proof (setupAudioGraph_interval w s0) as Hint.
      assert (Hfix : forall s1,
                 setupAudioGraph w s0 = Returned s1
                 \/ setupAudioGraph w s0 = Threw s1 ->
                 settings s1 = settings s0 /\ isPlaying s1 = isPlaying s0).
      { intros s1. unfold setupAudioGraph, andThen.
        split_matches; intros [H|H]; try discriminate;
          injection H as <-; split; reflexivity. }
      destruct (setupAudioGraph w s0) as [s1|s1] eqn:Hs.
      + destruct (Hfix s1 (or_introl eq_refl)) as [Hst Hpl].
        destruct Hrefs as (Hc1 & Hs1 & Ha1 & _).
        destruct (analyserRef s1) eqn:Han;
          [destruct (audioContextRef s1) eqn:Hctx|]; cbn; intros _;
          try congruence.
        rewrite Hst, Hpl, Han, Hctx. repeat split; congruence.
      + cbn. rewrite Hint, Hnone. congruence. }
  destruct (intervalRef s) eqn:Hiv; cbn.
  - destruct (detectionEffect w (with_intervalRef None s)) eqn:E.
    cbn. specialize (H (with_intervalRef None s) eq_refl).
    rewrite E in H. exact H.
  - destruct (detectionEffect w s) eqn:E. cbn.
    specialize (H s Hiv). rewrite E in H. exact H.
Qed.

Lemma with_intervalRef_None (s : App) :
  intervalRef s = None -> with_intervalRef None s = s.
Proof. destruct s; cbn; intros ->; reflexivity. Qed.

Lemma restart_as_effect (w : World) (s : App) :
  fst (restart w s) = fst (detectionEffect w (with_intervalRef None s)).
Proof.
  unfold restart, cleanup. destruct (intervalRef s) eqn:Hiv.
  - destruct (detectionEffect w (with_intervalRef None s)). reflexivity.
  - rewrite (with_intervalRef_None s Hiv).
    destruct (detectionEffect w s). reflexivity.
Qed.

Lemma detectionEffect_refs (w : World) (s0 : App) :
  (forall b, analyserRef (fst (detectionEffect w s0)) = Some b ->
             analyserRef s0 = Some b \/ b = fftSize / 2)
  /\ (forall r, audioContextRef s0 = Some r ->
                audioContextRef (fst (detectionEffect w s0)) = Some r)
  /\ (forall b, analyserRef s0 = Some b ->
                analyserRef (fst (detectionEffect w s0)) = Some b)
  /\ (sourceRef s0 = true -> sourceRef (fst (detectionEffect w s0)) = true).
Proof.
  unfold detectionEffect.
  destruct (negb (enabled (settings s0)) || negb (isPlaying s0)).
  - destruct (intervalRef s0); cbn; repeat split; intros; auto.
  - pose proof (setupAudioGraph_refs w s0) as Hrefs.
    destruct (setupAudioGraph w s0) as [s1|s1].
    + destruct Hrefs as (_ & _ & _ & Hkc & Hks & Hka & Hnew).
      destruct (analyserRef s1) eqn:Han;
        [destruct (audioContextRef s1) eqn:Hctx|]; cbn;
        rewrite ?Han, ?Hctx; repeat split; intros; auto;
        try (apply Hnew; congruence); try (rewrite <- Hctx; auto);
        try (rewrite <- Han; auto).
    + destruct Hrefs as (Hkc & Hks & Hka & Hnew).
      cbn. repeat split; intros; auto.
Qed.

Lemma restart_graphInvariant (w : World) (s : App) :
  graphInvariant s -> graphInvariant (fst (restart w s)).
Proof.
  intros [Hbins _]. rewrite restart_as_effect.
  set (s0 := with_intervalRef None s).
  assert (Hbins0 : forall bins, analyserRef s0 = Some bins ->
                                bins = fftSize / 2) by exact Hbins.
  destruct (detectionEffect_refs w s0) as (Hnew & _).
  assert (Hb : forall bins,
             analyserRef (fst (detectionEffect w s0)) = Some bins ->
             bins = fftSize / 2).
  { intros bins H. destruct (Hnew bins H) as [H0|H0]; auto. }
  split; [exact Hb|].
  intros iv Hiv.
  destruct (detectionEffect_interval w s0 iv eq_refl Hiv)
    as (rate & bins & Hc & Ha & ->).
  rewrite (Hb bins Ha). exists rate. split; [exact Hc | reflexivity].
Qed.

Lemma with_analysisBlocked_invariants (b : bool) (s : App) :
  (loopInvariant s -> loopInvariant (with_analysisBlocked b s))
  /\ (graphInvariant s -> graphInvariant (with_analysisBlocked b s)).
Proof. split; intro H; exact H. Qed.

Lemma with_currentStation_invariants (c : option Station) (s : App) :
  (loopInvariant s -> loopInvariant (with_currentStation c s))
  /\ (graphInvariant s -> graphInvariant (with_currentStation c s)).
Proof. split; intro H; exact H. Qed.

Lemma handle_loopInvariant (e : Event) (s : App) :
  loopInvariant s ->
  newFallbacksArray e || depsChanged s (fst (handle e s)) = false ->
  loopInvariant (fst (handle e s)).
Proof.
  intros Hinv Hsame. apply orb_false_iff in Hsame. destruct Hsame as [_ Hd].
  destruct (depsChanged_false _ _ Hd) as [He Hp].
  destruct (handle_loop_fields e s) as (Hc & Hs & Ha & Hi & _).
  unfold loopInvariant in *. intro Hlive.
  rewrite He, Hp, Hc, Hs, Ha. apply Hinv.
  destruct Hi as [Hi|Hi]; congruence.
Qed.

Lemma handle_graphInvariant (e : Event) (s : App) :
  graphInvariant s -> graphInvariant (fst (handle e s)).
Proof.
  intros [Hbins Hiv].
  destruct (handle_loop_fields e s) as (Hc & Hs & Ha & Hi & _).
  split.
  - intros bins H. apply Hbins. congruence.
  - intros iv H. rewrite Hc. apply Hiv.
    destruct Hi as [Hi|Hi]; congruence.
Qed.

Lemma stationRenders_invariants (w : World) (old s3 : App) :
  (loopInvariant s3 -> loopInvariant (fst (stationRenders w old s3)))
  /\ (graphInvariant s3 -> graphInvariant (fst (stationRenders w old s3))).
Proof.
  unfold stationRenders.
  destruct (loadStation_shape w old s3) as (Hs4 & _).
  destruct (loadStation w old s3) as [s4 c4]. cbn [fst] in *.
  assert (G4 : graphInvariant s3 -> graphInvariant s4)
    by (rewrite Hs4; intro H; exact H).
  assert (H4 : intervalRef s4 = intervalRef s3
               /\ settings s4 = settings s3
               /\ audioContextRef s4 = audioContextRef s3
               /\ sourceRef s4 = sourceRef s3
               /\ analyserRef s4 = analyserRef s3)
    by (rewrite Hs4; repeat split).
  destruct H4 as (I4 & S4 & C4 & R4 & A4).
  destruct (depsChanged s3 s4) eqn:Hd.
  - pose proof (restart_loopInvariant w s4) as L5.
    pose proof (restart_graphInvariant w s4) as G5.
    destruct (restart w s4) as [s5 c5]. cbn [fst] in *. split; auto.
  - cbn [fst]. split; [|exact G4].
    destruct (depsChanged_false _ _ Hd) as [_ Hp].
    unfold loopInvariant. rewrite I4, S4, C4, R4, A4, Hp. auto.
Qed.

Lemma react_invariants (stations : list Station) (w : World) (e : Event)
  (s : App) :
  (loopInvariant s -> loopInvariant (fst (react stations w e s)))
  /\ (graphInvariant s -> graphInvariant (fst (react stations w e s))).
Proof.
  unfold react.
  pose proof (handle_loopInvariant e s) as HL.
  pose proof (handle_graphInvariant e s) as HG.
  destruct (handle e s) as [s1 c1]. cbn [fst] in HL, HG.
  set (s2 := syncCurrentStation stations s s1).
  assert (H2 : (loopInvariant s1 -> loopInvariant s2)
               /\ (graphInvariant s1 -> graphInvariant s2)).
  { unfold s2. rewrite syncCurrentStation_shape.
    apply with_currentStation_invariants. }
  destruct H2 as [L2 G2].
  destruct (newFallbacksArray e || depsChanged s s1) eqn:Hc.
  - pose proof (restart_loopInvariant w s2) as L3.
    pose proof (restart_graphInvariant w s2) as G3.
    destruct (restart w s2) as [s3 c3]. cbn [fst] in L3, G3.
    destruct (stationRenders_invariants w s s3) as [L5 G5].
    destruct (stationRenders w s s3) as [s5 c5]. cbn [fst] in *.
    split; auto.
  - destruct (stationRenders_invariants w s s2) as [L5 G5].
    destruct (stationRenders w s s2) as [s5 c5]. cbn [fst] in *.
    split; auto.
Qed.

Lemma run_invariants (stations : list Station) (es : list (World * Event)) :
  forall s,
    (loopInvariant s -> loopInvariant (fst (run stations es s)))
    /\ (graphInvariant s -> graphInvariant (fst (run stations es s))).
Proof.
  induction es as [|[w e] es IH]; intro s; [split; auto|].
  cbn [run]. destruct (react_invariants stations w e s) as [L G].
  destruct (react stations w e s) as [s1 c1]. cbn [fst] in *.
  destruct (IH s1) as [L1 G1].
  destruct (run stations es s1) as [s2 c2]. cbn [fst] in *.
  split; auto.
Qed.

Lemma initialApp_invariants (stations : list Station)
  (st : TalkKillerSettings) (fb : list string) :
  loopInvariant (initialApp stations st fb)
  /\ graphInvariant (initialApp stations st fb).
Proof.
  split; [intro H; now contradiction H|].
  split; cbn; intros; discriminate.
Qed.

(** X6. In every state that a session can reach, a live interval belongs
    to an enabled, playing session whose audio graph is built; so a tick
    reads the analyser only while Talk Killer is enabled and the audio is
    playing. *)
Theorem sampling_only_while_enabled_and_playing (stations : list Station)
  (st : TalkKillerSettings) (fb : list string) (es : list (World * Event))
  (w : World) (read : option (list byte)) (now : Z) :
  let s := fst (run stations es (initialApp stations st fb)) in
  loopInvariant s
  /\ (reads (snd (react stations w (Tick read now) s)) <> 0%nat ->
      enabled (settings s) = true /\ isPlaying s = true).
Proof.
  intro s.
  assert (Hinv : loopInvariant s).
  { apply run_invariants, initialApp_invariants. }
  split; [exact Hinv|]. intro Hr.
  destruct (react_after_handle stations w (Tick read now) s)
    as (_ & _ & _ & _ & _ & _ & Hreads).
  rewrite Hreads in Hr. cbn [handle] in Hr.
  destruct (intervalRef s) eqn:Hiv; [|now contradiction Hr].
  destruct Hinv as (He & Hp & _); [congruence | now split].
Qed.

Lemma sampling_only_while_enabled_and_playing_witness :
  enabled (settings (fst (run demoStations [(demoWorld, AudioPlay)]
                            (initialApp demoStations defaultSettings [])))) = true.
Proof.
  destruct (sampling_only_while_enabled_and_playing demoStations
              defaultSettings [] [(demoWorld, AudioPlay)] demoWorld
              (Some speechFrame) demoEpoch) as [_ H].
  destruct H as [H _]; [vm_compute; discriminate | exact H].
Defined.

(** X7. In every reachable state the analyser has 1024 bins and a live
    interval carries the band bounds of the context's sample rate; hence
    the score that a tick stores for a snapshot of 1024 bins is the score of
    that snapshot at the context's sample rate. *)
Theorem live_interval_matches_graph (stations : list Station)
  (st : TalkKillerSettings) (fb : list string) (es : list (World * Event))
  (iv : Interval) (dataArray : list byte) (now : Z) :
  let s := fst (run stations es (initialApp stations st fb)) in
  intervalRef s = Some iv ->
  len dataArray = 1024 ->
  analyserRef s = Some 1024
  /\ exists sampleRate,
       audioContextRef s = Some sampleRate
       /\ iv = mkInterval (startIndexOf sampleRate 1024)
                          (endIndexOf sampleRate 1024) 1024
       /\ speechScore (fst (handle (Tick (Some dataArray) now) s))
          = speechScoreOf dataArray sampleRate.
Proof.
  intros s Hiv Hlen.
  destruct (run_invariants stations es (initialApp stations st fb))
    as [HL HG].
  destruct (initialApp_invariants stations st fb) as [IL IG].
  specialize (HL IL). specialize (HG IG). fold s in HL, HG.
  destruct HL as (_ & _ & _ & _ & Ha); [congruence|].
  destruct HG as [Hbins Hlive].
  destruct (analyserRef s) as [bins|] eqn:Han; [|congruence].
  rewrite (Hbins bins eq_refl).
  change (fftSize / 2) with 1024 in *. split; [reflexivity|].
  destruct (Hlive iv Hiv) as (rate & Hc & Hivq).
  exists rate. split; [exact Hc|]. split; [exact Hivq|].
  cbn [handle]. rewrite Hiv.
  apply (tick_score iv dataArray now s bins rate Han).
  - rewrite Hivq. reflexivity.
  - rewrite Hivq. exact Hlen.
Qed.

Lemma live_interval_matches_graph_witness :
  analyserRef (fst (run demoStations [(demoWorld, AudioPlay)]
                      (initialApp demoStations defaultSettings [])))
  = Some 1024.
Proof.
  destruct (live_interval_matches_graph demoStations defaultSettings []
              [(demoWorld, AudioPlay)] demoInterval speechFrame demoEpoch)
    as [H _]; [vm_compute; reflexivity | vm_compute; reflexivity | exact H].
Defined.

Lemma handle_counter_nonneg (e : Event) (s : App) :
  (0 <= speechSecondsRef s)%Q ->
  (0 <= speechSecondsRef (fst (handle e s)))%Q.
Proof.
  intro H0. destruct e as [read now| | | | |]; try exact H0.
  cbn [handle]. destruct (intervalRef s) as [iv|]; [|exact H0].
  destruct (analyserRef s) as [bins|] eqn:Ha;
    [|unfold tick; rewrite Ha; exact H0].
  destruct read as [dataArray|]; [|unfold tick; rewrite Ha; exact H0].
  rewrite (tick_shape iv dataArray now s bins Ha).
  destruct (fired _); cbn [speechSecondsRef with_currentId
                           with_speechSecondsRef]; [lra|].
  rewrite sample_counter.
  destruct (isSpeechOf _ _); [now apply doubleAdd_nonneg | lra].
Qed.

(** X8. The speech counter is never negative: it starts at [0], and no
    event of a session, in any order, makes it negative. *)
Theorem counter_never_negative (stations : list Station)
  (st : TalkKillerSettings) (fb : list string) (es : list (World * Event)) :
  (0 <= speechSecondsRef (fst (run stations es (initialApp stations st fb))))%Q.
Proof.
  assert (H : forall s, (0 <= speechSecondsRef s)%Q ->
                        (0 <= speechSecondsRef (fst (run stations es s)))%Q).
  { induction es as [|[w e] es IH]; intros s H0; [exact H0|].
    cbn [run].
    destruct (react_after_handle stations w e s) as (_ & Hacc & _).
    pose proof (handle_counter_nonneg e s H0) as Hh.
    destruct (react stations w e s) as [s1 c1]. cbn [fst] in *.
    specialize (IH s1). destruct (run stations es s1) as [s2 c2].
    cbn [fst] in *. apply IH. now rewrite Hacc. }
  apply H. cbn. lra.
Qed.

Lemma handle_currentStation (e : Event) (s : App) :
  currentStation (fst (handle e s)) = currentStation s.
Proof.
  destruct e as [read now| | | | |]; try reflexivity.
  cbn [handle]. destruct (intervalRef s) as [iv|]; [|reflexivity].
  apply tick_frame.
Qed.

(** An event that leaves [currentId] alone is followed by one render: the
    detection effect runs when one of its dependencies changed, and the
    station effect does not run. *)
Lemma react_same_id (stations : list Station) (w : World) (e : Event)
  (s : App) :
  currentId (fst (handle e s)) = currentId s ->
  react stations w e s
  = (fst (if newFallbacksArray e || depsChanged s (fst (handle e s))
          then restart w (fst (handle e s)) else (fst (handle e s), [])),
     snd (handle e s)
     ++ snd (if newFallbacksArray e || depsChanged s (fst (handle e s))
             then restart w (fst (handle e s)) else (fst (handle e s), []))).
Proof.
  intro Hid. unfold react.
  pose proof (handle_currentStation e s) as Hcs.
  destruct (handle e s) as [s1 c1]. cbn [fst snd] in *.
  unfold syncCurrentStation. rewrite Hid, String.eqb_refl.
  destruct (newFallbacksArray e || depsChanged s s1).
  - destruct (restart_frame w s1) as (_ & _ & _ & _ & _ & _ & C3).
    destruct (restart w s1) as [s3 c3]. cbn [fst snd] in *.
    rewrite (stationRenders_same w s s3) by congruence.
    now rewrite app_nil_r.
  - rewrite (stationRenders_same w s s1 Hcs). reflexivity.
Qed.

(** The renders after a handler leave the fallback list alone; they can
    clear [isPlaying] and cannot set it. *)
Lemma react_user_state (stations : list Station) (w : World) (e : Event)
  (s : App) :
  fallbacks (fst (react stations w e s)) = fallbacks (fst (handle e s))
  /\ (isPlaying (fst (react stations w e s)) = isPlaying (fst (handle e s))
      \/ isPlaying (fst (react stations w e s)) = false).
Proof.
  unfold react. destruct (handle e s) as [s1 c1]. cbn [fst].
  set (s2 := syncCurrentStation stations s s1).
  assert (H2 : fallbacks s2 = fallbacks s1 /\ isPlaying s2 = isPlaying s1).
  { unfold s2. rewrite syncCurrentStation_shape. split; reflexivity. }
  destruct H2 as [F2 P2].
  destruct (newFallbacksArray e || depsChanged s s1).
  - destruct (restart_frame w s2) as (_ & _ & _ & _ & F3 & P3 & _).
    destruct (restart w s2) as [s3 c3]. cbn [fst] in *.
    destruct (stationRenders_frame w s s3) as (_ & _ & _ & _ & F5 & _ & P5).
    destruct (stationRenders w s s3) as [s5 c5]. cbn [fst] in *.
    split; [congruence|].
    destruct P5 as [P5|P5]; [left | right]; congruence.
  - destruct (stationRenders_frame w s s2) as (_ & _ & _ & _ & F5 & _ & P5).
    destruct (stationRenders w s s2) as [s5 c5]. cbn [fst] in *.
    split; [congruence|].
    destruct P5 as [P5|P5]; [left | right]; congruence.
Qed.

(** In a browser that plays HLS the station effect leaves [isPlaying]
    alone. *)
Lemma stationRenders_playable (w : World) (old s3 : App) :
  playsHls w = true ->
  isPlaying (fst (stationRenders w old s3)) = isPlaying s3.
Proof.
  intro Hw. unfold stationRenders.
  assert (H4 : isPlaying (fst (loadStation w old s3)) = isPlaying s3).
  { unfold loadStation, playsHls in *.
    destruct (option_string_eqb _ _); [reflexivity|].
    destruct (currentStation s3) as [station|]; [|reflexivity].
    destruct (hlsIsSupported w); destruct (canPlayHls w);
      try discriminate Hw; rewrite ?andb_false_r; reflexivity. }
  destruct (loadStation w old s3) as [s4 c4]. cbn [fst] in *.
  destruct (depsChanged s3 s4).
  - destruct (restart_frame w s4) as (_ & _ & _ & _ & _ & P & _).
    destruct (restart w s4) as [s5 c5]. cbn [fst] in *. congruence.
  - exact H4.
Qed.

Lemma react_playable (stations : list Station) (w : World) (e : Event)
  (s : App) :
  playsHls w = true ->
  isPlaying (fst (react stations w e s)) = isPlaying (fst (handle e s)).
Proof.
  intro Hw. unfold react. destruct (handle e s) as [s1 c1]. cbn [fst].
  set (s2 := syncCurrentStation stations s s1).
  assert (P2 : isPlaying s2 = isPlaying s1)
    by (unfold s2; rewrite syncCurrentStation_shape; reflexivity).
  destruct (newFallbacksArray e || depsChanged s s1).
  - destruct (restart_frame w s2) as (_ & _ & _ & _ & _ & P3 & _).
    destruct (restart w s2) as [s3 c3]. cbn [fst] in *.
    pose proof (stationRenders_playable w s s3 Hw) as P5.
    destruct (stationRenders w s s3) as [s5 c5]. cbn [fst] in *. congruence.
  - pose proof (stationRenders_playable w s s2 Hw) as P5.
    destruct (stationRenders w s s2) as [s5 c5]. cbn [fst] in *. congruence.
Qed.

(** X9. The detection loop never touches what the user set: over any run
    of ticks, whatever they read and whether or not they switch station,
    [settings] and [fallbacks] stay as they were.  The callback itself
    leaves [isPlaying] alone too; over the run [isPlaying] is never set,
    and it is cleared only by the station effect after a switch to an HLS
    stream that the browser cannot play, so it stays as it was when every
    browser of the run plays HLS. *)
Theorem ticks_leave_user_state (stations : list Station)
  (es : list (World * Event)) :
  forall s,
    Forall isTick es ->
    settings (fst (run stations es s)) = settings s
    /\ fallbacks (fst (run stations es s)) = fallbacks s
    /\ (isPlaying (fst (run stations es s)) = isPlaying s
        \/ isPlaying (fst (run stations es s)) = false)
    /\ (Forall (fun we => playsHls (fst we) = true) es ->
        isPlaying (fst (run stations es s)) = isPlaying s)
    /\ (forall iv read now,
          isPlaying (fst (tick iv read now s)) = isPlaying s).
Proof.
  induction es as [|[w e] es IH]; intros s Hall.
  { cbn [run fst]. repeat split; auto. intros iv read now. apply tick_frame. }
  inversion Hall as [|? ? Hhead Htail]; subst.
  unfold isTick in Hhead. cbn [snd] in Hhead.
  destruct e as [read now| | | | |]; try contradiction.
  cbn [run].
  destruct (react_after_handle stations w (Tick read now) s)
    as (_ & _ & _ & Hst & _).
  destruct (react_user_state stations w (Tick read now) s) as [Hfb Hpl].
  pose proof (react_playable stations w (Tick read now) s) as Hplay.
  destruct (handle_loop_fields (Tick read now) s) as (_ & _ & _ & _ & Hk).
  destruct (Hk read now eq_refl) as (Hst' & Hpl' & Hfb').
  destruct (react stations w (Tick read now) s) as [s1 c1]. cbn [fst] in *.
  specialize (IH s1 Htail).
  destruct (run stations es s1) as [s2 c2]. cbn [fst] in *.
  destruct IH as (I1 & I2 & I3 & I4 & _).
  split; [congruence|]. split; [congruence|]. split; [|split].
  - destruct I3 as [I3|I3]; [|now right].
    destruct Hpl as [Hpl|Hpl]; [left | right]; congruence.
  - intro Hw. inversion Hw as [|? ? Hw1 Hw2]; subst. cbn [fst] in Hw1.
    rewrite (I4 Hw2), (Hplay Hw1). exact Hpl'.
  - intros iv read' now'. apply tick_frame.
Qed.

Lemma ticks_leave_user_state_witness :
  settings (fst (run demoStations (speechTicks demoEpoch 29) demoPlaying))
  = settings demoPlaying.
Proof.
  destruct (ticks_leave_user_state demoStations (speechTicks demoEpoch 29)
              demoPlaying) as [H _]; [|exact H].
  repeat constructor.
Defined.

(** The tick that switches to an HLS stream in a browser that cannot play
    HLS: the station effect clears [isPlaying], and the detection effect
    that follows clears the interval that it had just set. *)
Example unsupported_hls_stops_playback :
  let r := react hlsStations noHlsWorld
             (Tick (Some speechFrame) (demoEpoch + 6000)) hlsNearThreshold in
  isPlaying hlsNearThreshold = true
  /\ intervalRef hlsNearThreshold = Some demoInterval
  /\ currentId (fst r) = "h"%string
  /\ isPlaying (fst r) = false
  /\ intervalRef (fst r) = None
  /\ snd r = [Call_getByteFrequencyData; Call_setSpeechScore (29580 # 29580);
              Call_setSpeechLabel "Speech-ish"%string;
              Call_triggerAutoSwitch; Call_setCurrentId "h"%string;
              Call_clearInterval; Call_setupAudioGraph; Call_setInterval;
              Call_setAnalysisBlocked false; Call_clearInterval]
  /\ isPlaying
       (fst (react hlsStations demoWorld
               (Tick (Some speechFrame) (demoEpoch + 6000)) hlsNearThreshold))
     = true.
Proof. vm_compute. repeat split; reflexivity. Qed.

Lemma restart_stopped (w : World) (s : App) :
  enabled (settings s) = false \/ isPlaying s = false ->
  intervalRef (fst (restart w s)) = None.
Proof.
  intro H. rewrite restart_as_effect. unfold detectionEffect.
  cbn [settings isPlaying intervalRef with_intervalRef].
  destruct H as [-> | ->]; cbn; [reflexivity|].
  rewrite orb_true_r. reflexivity.
Qed.

Lemma react_interval_after (stations : list Station) (w : World) (e : Event)
  (s : App) :
  currentId (fst (handle e s)) = currentId s ->
  intervalRef (fst (react stations w e s))
  = if newFallbacksArray e || depsChanged s (fst (handle e s))
    then intervalRef (fst (restart w (fst (handle e s))))
    else intervalRef (fst (handle e s)).
Proof.
  intro Hid. rewrite (react_same_id stations w e s Hid). cbn [fst].
  destruct (newFallbacksArray e || depsChanged s (fst (handle e s)));
    reflexivity.
Qed.

(** X10. Pausing the audio, or switching Talk Killer off, always stops the
    sampling: in any reachable state the event leaves no live interval, it
    reads nothing itself, and the timer ticks that follow read nothing. *)
Theorem pause_or_disable_stops_sampling (stations : list Station) (w : World)
  (e : Event) (s : App) :
  loopInvariant s ->
  e = AudioPause
  \/ (exists next, e = SetSettings next /\ enabled next = false) ->
  intervalRef (fst (react stations w e s)) = None
  /\ reads (snd (react stations w e s)) = 0%nat
  /\ (forall ticks, Forall isTick ticks ->
        reads (snd (run stations ticks (fst (react stations w e s))))
        = 0%nat).
Proof.
  intros Hinv He.
  assert (Hoff : enabled (settings (fst (handle e s))) = false
                 \/ isPlaying (fst (handle e s)) = false).
  { destruct He as [-> | (next & -> & Hn)]; cbn; [now right | now left]. }
  assert (Hkeep : intervalRef (fst (handle e s)) = intervalRef s
                  /\ reads (snd (handle e s)) = 0%nat).
  { destruct He as [-> | (next & -> & Hn)]; cbn; split; reflexivity. }
  assert (Hid : currentId (fst (handle e s)) = currentId s).
  { destruct He as [-> | (next & -> & Hn)]; reflexivity. }
  assert (Hnone : intervalRef (fst (react stations w e s)) = None).
  { rewrite (react_interval_after stations w e s Hid).
    destruct (newFallbacksArray e || depsChanged s (fst (handle e s)))
      eqn:Hc.
    - apply restart_stopped. exact Hoff.
    - apply orb_false_iff in Hc. destruct Hc as [_ Hd].
      destruct (depsChanged_false _ _ Hd) as [Hen Hpl].
      destruct Hkeep as [-> _].
      destruct (intervalRef s) eqn:Hiv; [|reflexivity].
      destruct Hinv as (H1 & H2 & _); [congruence|].
      destruct Hoff; congruence. }
  split; [exact Hnone|]. split.
  - destruct (react_after_handle stations w e s)
      as (_ & _ & _ & _ & _ & _ & ->). apply Hkeep.
  - intros ticks Hticks.
    rewrite (idle_ticks stations ticks _ Hnone Hticks). reflexivity.
Qed.

Lemma pause_or_disable_stops_sampling_witness :
  intervalRef (fst (react demoStations demoWorld AudioPause demoPlaying))
  = None.
Proof.
  destruct (pause_or_disable_stops_sampling demoStations demoWorld
              AudioPause demoPlaying) as [H _];
    [|now left|exact H].
  intros _. vm_compute. repeat split; discriminate.
Defined.

Lemma react_currentStation (stations : list Station) (w : World) (e : Event)
  (s : App) :
  currentStation (fst (react stations w e s))
  = currentStation (syncCurrentStation stations s (fst (handle e s))).
Proof.
  unfold react. destruct (handle e s) as [s1 c1]. cbn [fst].
  set (s2 := syncCurrentStation stations s s1).
  destruct (newFallbacksArray e || depsChanged s s1).
  - destruct (restart_frame w s2) as (_ & _ & _ & _ & _ & _ & C3).
    destruct (restart w s2) as [s3 c3]. cbn [fst] in *.
    destruct (stationRenders_frame w s s3) as (_ & _ & _ & _ & _ & C5 & _).
    destruct (stationRenders w s s3) as [s5 c5]. cbn [fst] in *. congruence.
  - destruct (stationRenders_frame w s s2) as (_ & _ & _ & _ & _ & C5 & _).
    destruct (stationRenders w s s2) as [s5 c5]. cbn [fst] in *. congruence.
Qed.

(** The firing tick whose rotation yields another station. *)
Lemma tick_switches (iv : Interval) (dataArray : list byte) (now : Z)
  (s : App) (bins : Z) (next : string) :
  analyserRef s = Some bins ->
  fired (snd (tick iv (Some dataArray) now s)) = true ->
  nextFallback (fallbacks s) (currentId s) = Some next ->
  next <> ""%string -> next <> currentId s ->
  fst (tick iv (Some dataArray) now s)
  = with_currentId next
      (with_speechSecondsRef 0%Q
         (with_lastSwitchRef now (sample iv dataArray s)))
  /\ switched (snd (tick iv (Some dataArray) now s)) = true.
Proof.
  intros Ha Hf Hnext Hne Hcur.
  destruct (tick_read iv dataArray now s bins Ha) as (Hs & Hfr & Hsw).
  rewrite Hs, Hsw. rewrite Hfr in Hf. rewrite (trigger_on_fire _ _ Hf).
  cbn [fst snd]. unfold triggerAutoSwitch.
  destruct (sample_frame iv dataArray s) as (_ & _ & Hid & Hfb & _).
  cbn [fallbacks currentId with_speechSecondsRef with_lastSwitchRef].
  rewrite Hid, Hfb, Hnext.
  destruct (String.eqb_spec next ""); [contradiction|].
  destruct (String.eqb_spec next (currentId s)); [contradiction|].
  cbn. split; reflexivity.
Qed.

(** X11. An automatic switch: when a tick passes both tests and rotation
    yields another, non-empty id, the session moves to exactly that id,
    with [lastSwitchRef = now] and an empty counter; the stream becomes the
    station of that id when the directory has one, and otherwise stays the
    one that was playing. *)
Theorem auto_switch_moves_to_next (stations : list Station) (w : World)
  (iv : Interval) (dataArray : list byte) (now : Z) (s : App) (bins : Z)
  (next : string) :
  intervalRef s = Some iv -> analyserRef s = Some bins ->
  (speechSeconds (settings s) <= speechSecondsRef (sample iv dataArray s))%Q ->
  (cooldownSeconds (settings s) * 1000 <= inject_Z (now - lastSwitchRef s))%Q ->
  nextFallback (fallbacks s) (currentId s) = Some next ->
  next <> ""%string -> next <> currentId s ->
  let r := react stations w (Tick (Some dataArray) now) s in
  currentId (fst r) = next
  /\ switched (snd r) = true
  /\ lastSwitchRef (fst r) = now
  /\ speechSecondsRef (fst r) = 0%Q
  /\ currentStation (fst r)
     = match find (fun item => String.eqb (id item) next) stations with
       | Some station => Some station
       | None => currentStation s
       end.
Proof.
  intros Hiv Ha Hthr Hcool Hnext Hne Hcur r.
  assert (Hf : fired (snd (tick iv (Some dataArray) now s)) = true)
    by (apply (tick_fired_iff iv dataArray now s bins Ha); now split).
  destruct (tick_switches iv dataArray now s bins next Ha Hf Hnext Hne Hcur)
    as [Hs1 Hsw].
  assert (Hh : handle (Tick (Some dataArray) now) s
               = tick iv (Some dataArray) now s)
    by (cbn [handle]; now rewrite Hiv).
  destruct (react_after_handle stations w (Tick (Some dataArray) now) s)
    as (Hl & Hacc & Hid & _ & _ & Hw & _).
  pose proof (react_currentStation stations w (Tick (Some dataArray) now) s)
    as Hcs.
  fold r in Hl, Hacc, Hid, Hw, Hcs. rewrite Hh in *. rewrite Hs1 in *.
  cbn in Hl, Hacc, Hid. repeat split; try assumption; [congruence|].
  rewrite Hcs. unfold syncCurrentStation.
  cbn [currentId with_currentId].
  destruct (String.eqb_spec (currentId s) next); [congruence|].
  destruct (String.eqb_spec next ""); [contradiction|].
  destruct (find _ stations); cbn; [reflexivity|].
  apply sample_frame.
Qed.

Lemma auto_switch_moves_to_next_witness :
  currentId (fst (react demoStations demoWorld
                    (Tick (Some speechFrame) (demoEpoch + 6000))
                    demoNearThreshold))
  = "b"%string.
Proof.
  destruct (auto_switch_moves_to_next demoStations demoWorld demoInterval
              speechFrame (demoEpoch + 6000) demoNearThreshold 1024
              "b"%string) as [H _];
    [vm_compute; reflexivity | vm_compute; reflexivity
     | vm_compute; discriminate | vm_compute; discriminate
     | vm_compute; reflexivity | discriminate | vm_compute; discriminate
     | exact H].
Defined.

(** X12. The ends of the sensitivity range. With [sensitivity <= 0] every
    snapshot that can be read is speech, silence included, so every tick
    that does not fire stores the sum of doubles of the counter and [0.2];
    with [sensitivity > 1] no snapshot is speech, the counter is [0] after
    every tick, and for a positive [speechSeconds] no tick ever fires. *)
Theorem sensitivity_extremes (iv : Interval) (dataArray : list byte)
  (now : Z) (s : App) (bins : Z) :
  analyserRef s = Some bins ->
  ((sensitivity (settings s) <= 0)%Q ->
   speechLabel (fst (tick iv (Some dataArray) now s)) = "Speech-ish"%string
   /\ (fired (snd (tick iv (Some dataArray) now s)) = false ->
       speechSecondsRef (fst (tick iv (Some dataArray) now s))
       = round64 (speechSecondsRef s + step)))
  /\ ((1 < sensitivity (settings s))%Q ->
      speechLabel (fst (tick iv (Some dataArray) now s)) = "Music"%string
      /\ speechSecondsRef (fst (tick iv (Some dataArray) now s)) = 0%Q
      /\ ((0 < speechSeconds (settings s))%Q ->
          fired (snd (tick iv (Some dataArray) now s)) = false)).
Proof.
  intro Ha.
  pose proof (scoreOf_unit (startIndex iv) (endIndex iv) dataArray)
    as [H0 H1].
  pose proof (tick_shape iv dataArray now s bins Ha) as Hshape.
  pose proof (sample_counter iv dataArray s) as Hacc.
  unfold doubleAdd in Hacc.
  pose proof (sample_label iv dataArray s) as Hlab.
  split.
  - intro Hlow.
    assert (Hsp : isSpeechOf (scoreOf (startIndex iv) (endIndex iv) dataArray)
                             (settings s) = true)
      by (apply Qle_bool_iff; lra).
    rewrite Hsp in Hacc, Hlab. split.
    + rewrite Hshape. destruct (fired _); exact Hlab.
    + intro Hf. rewrite Hshape, Hf. exact Hacc.
  - intro Hhigh.
    assert (Hsp : isSpeechOf (scoreOf (startIndex iv) (endIndex iv) dataArray)
                             (settings s) = false)
      by (apply Qlt_le_bool_false; lra).
    rewrite Hsp in Hacc, Hlab. split; [|split].
    + rewrite Hshape. destruct (fired _); exact Hlab.
    + rewrite Hshape. destruct (fired _); [reflexivity | exact Hacc].
    + intro Hpos. apply not_true_is_false. intro Hf.
      apply (tick_fired_iff iv dataArray now s bins Ha) in Hf.
      destruct Hf as [Hthr _]. rewrite Hacc in Hthr. lra.
Qed.

Lemma sensitivity_extremes_witness :
  speechLabel
    (fst (tick demoInterval (Some (repeat x00 1024)) demoEpoch
            (with_settings (mkSettings true 6 0 12) demoPlaying)))
  = "Speech-ish"%string.
Proof.
  destruct (sensitivity_extremes demoInterval (repeat x00 1024) demoEpoch
              (with_settings (mkSettings true 6 0 12) demoPlaying) 1024)
    as [H _]; [vm_compute; reflexivity|].
  destruct H as [H _]; [vm_compute; discriminate | exact H].
Defined.

End SessionInvariants.

(** ** The band *)

Section BandFacts.

Lemma Qfloor_below (x : Q) (n : Z) : (x < inject_Z n)%Q -> Qfloor x <= n - 1.
Proof.
  intro H. pose proof (Qfloor_le x) as Hf.
  assert (Hlt : (inject_Z (Qfloor x) < inject_Z n)%Q) by lra.
  rewrite <- Zlt_Qlt in Hlt. lia.
Qed.

(** X13. For a sample rate above 6000 Hz and a non-empty array the band
    bounds are ordered and inside the array, and the clamp of the upper
    bound to [length - 1] is never the smaller term; so at every rate a
    browser offers the band is the range computed from 300 Hz and
    3000 Hz. *)
Theorem band_bounds_in_range (sampleRate : Q) (length : Z) :
  (6000 < sampleRate)%Q -> 1 <= length ->
  0 <= startIndexOf sampleRate length
  /\ startIndexOf sampleRate length <= endIndexOf sampleRate length
  /\ endIndexOf sampleRate length <= length - 1
  /\ endIndexOf sampleRate length
     = Qfloor ((3000 / nyquistOf sampleRate) * inject_Z length)%Q.
Proof.
  intros Hrate Hlen.
  assert (Hny : (3000 < nyquistOf sampleRate)%Q).
  { unfold nyquistOf. apply Qlt_shift_div_l; lra. }
  assert (Hl : (0 < inject_Z length)%Q).
  { change 0%Q with (inject_Z 0). rewrite <- Zlt_Qlt. lia. }
  assert (Hhi : (3000 / nyquistOf sampleRate < 1)%Q)
    by (apply Qlt_shift_div_r; lra).
  assert (Hlohi : (300 / nyquistOf sampleRate
                   <= 3000 / nyquistOf sampleRate)%Q).
  { apply Qle_shift_div_l; [lra|].
    unfold Qdiv. rewrite <- Qmult_assoc, (Qmult_comm (/ _)), Qmult_inv_r;
      lra. }
  assert (Hlo0 : (0 <= 300 / nyquistOf sampleRate)%Q)
    by (apply Qle_shift_div_l; lra).
  assert (Hend : Qfloor ((3000 / nyquistOf sampleRate) * inject_Z length)%Q
                 <= length - 1).
  { apply Qfloor_below. nra. }
  assert (Hse : Qfloor ((300 / nyquistOf sampleRate) * inject_Z length)%Q
                <= Qfloor ((3000 / nyquistOf sampleRate) * inject_Z length)%Q).
  { apply Qfloor_resp_le. nra. }
  unfold startIndexOf, endIndexOf. rewrite Z.min_r by exact Hend.
  repeat split; try assumption.
  change 0 with (Qfloor 0). apply Qfloor_resp_le. nra.
Qed.

Lemma band_bounds_in_range_witness :
  startIndexOf 48000 1024 <= endIndexOf 48000 1024.
Proof.
  destruct (band_bounds_in_range 48000 1024) as (_ & H & _);
    [reflexivity | discriminate | exact H].
Defined.

End BandFacts.

(** ** Favourites *)

Section FavouriteFacts.

Import Favourite.

Lemma findStation_some (stations : list Directory.Station) (id' : string)
  (station : Directory.Station) :
  findStation stations id' = Some station ->
  In station stations /\ Directory.id station = id'.
Proof.
  intro H. apply find_some in H. destruct H as [Hin Heq].
  split; [exact Hin | now apply String.eqb_eq].
Qed.

Lemma legacyEntries_keys (stations : list Directory.Station)
  (ids : list string) :
  keys (legacyEntries stations ids)
  = filter (fun id' => match findStation stations id' with
                       | Some _ => true
                       | None => false
                       end) ids.
Proof.
  induction ids as [|id' ids IH]; [reflexivity|].
  cbn [legacyEntries filter].
  destruct (findStation stations id') as [station|] eqn:E; [|exact IH].
  unfold keys in *. cbn [map]. rewrite IH. f_equal.
  now apply findStation_some in E.
Qed.

Lemma legacyEntries_In (stations : list Directory.Station)
  (ids : list string) (entry : FavouriteStation) :
  In entry (legacyEntries stations ids) ->
  exists station,
    In station stations /\ In (Directory.id station) ids
    /\ entry = ofLegacy station.
Proof.
  induction ids as [|id' ids IH]; [contradiction|]. cbn.
  destruct (findStation stations id') as [station|] eqn:E.
  - intros [<-|Hin].
    + apply findStation_some in E. destruct E as [Hs Hid].
      exists station. repeat split; [exact Hs | left; now symmetry].
    + destruct (IH Hin) as (st & H1 & H2 & H3).
      exists st. repeat split; [exact H1 | now right | exact H3].
  - intro Hin. destruct (IH Hin) as (st & H1 & H2 & H3).
    exists st. repeat split; [exact H1 | now right | exact H3].
Qed.

(** X14. Favourites stored in the old format (a list of station ids) are
    read as entries of the directory: each id that the directory knows
    becomes a local entry whose key and [localId] are that id, in the stored
    order, and ids that the directory does not know are dropped.  The
    migration effect replaces a non-empty list of ids by exactly the list
    that was displayed and leaves every other stored value as it is, so
    what is displayed does not change and running it again changes
    nothing. *)
Theorem legacy_favourites_normalize (stations : list Directory.Station) :
  (forall ids entry,
     In entry (normalizedFavourites stations (Ids ids)) ->
     exists station,
       In station stations /\ In (Directory.id station) ids
       /\ key entry = Directory.id station
       /\ localId entry = Some (Directory.id station)
       /\ source entry = local
       /\ name entry = Directory.name station
       /\ url entry = Directory.url station)
  /\ (forall ids,
        keys (normalizedFavourites stations (Ids ids))
        = filter (fun id' => match findStation stations id' with
                             | Some _ => true
                             | None => false
                             end) ids)
  /\ (forall id' ids,
        migrate stations (Ids (id' :: ids))
        = Items (normalizedFavourites stations (Ids (id' :: ids))))
  /\ migrate stations (Ids []) = Ids []
  /\ migrate stations NotAnArray = NotAnArray
  /\ (forall items, migrate stations (Items items) = Items items)
  /\ (forall favourites,
        normalizedFavourites stations (migrate stations favourites)
        = normalizedFavourites stations favourites
        /\ migrate stations (migrate stations favourites)
           = migrate stations favourites).
Proof.
  split; [|split].
  - intros ids entry Hin. cbn in Hin.
    destruct (legacyEntries_In stations ids entry Hin)
      as (station & Hs & Hid & ->).
    exists station. repeat split; assumption.
  - intro ids. apply legacyEntries_keys.
  - repeat split; try reflexivity;
      destruct favourites as [|[|id' ids]|items]; reflexivity.
Qed.

Lemma hasKey_In (key' : string) (items : list FavouriteStation) :
  hasKey key' items = true <-> In key' (keys items).
Proof.
  unfold hasKey, keys. rewrite existsb_exists, in_map_iff.
  split; intros [x [H1 H2]]; exists x.
  - apply String.eqb_eq in H2. now split.
  - split; [exact H2 | now apply String.eqb_eq].
Qed.

Lemma hasKey_cons (key' : string) (item : FavouriteStation)
  (items : list FavouriteStation) :
  hasKey key' (item :: items)
  = String.eqb (key item) key' || hasKey key' items.
Proof. reflexivity. Qed.

Lemma addFavourite_items (normalized : list FavouriteStation)
  (station : FavouriteStation) (items : list FavouriteStation) :
  addFavourite normalized station (Items items)
  = Some (Items (if hasKey (key station) items then items
                 else station :: items)).
Proof.
  unfold addFavourite. cbn [currentList].
  destruct (hasKey (key station) items); reflexivity.
Qed.

Lemma removeFavourite_items (normalized : list FavouriteStation)
  (key' : string) (items : list FavouriteStation) :
  removeFavourite normalized key' (Items items)
  = Some (Items (filter (fun item => negb (String.eqb (key item) key'))
                        items)).
Proof. reflexivity. Qed.

Lemma hasKey_added (other : string) (station : FavouriteStation)
  (items : list FavouriteStation) :
  hasKey other (if hasKey (key station) items then items
                else station :: items)
  = String.eqb (key station) other || hasKey other items.
Proof.
  destruct (hasKey (key station) items) eqn:Hk; [|apply hasKey_cons].
  destruct (String.eqb_spec (key station) other) as [<-|_];
    [exact Hk | reflexivity].
Qed.

Lemma hasKey_removed (other key' : string) (items : list FavouriteStation) :
  hasKey other (filter (fun item => negb (String.eqb (key item) key')) items)
  = negb (String.eqb other key') && hasKey other items.
Proof.
  induction items as [|item items IH];
    [cbn; now rewrite andb_false_r|].
  cbn [filter]. rewrite hasKey_cons.
  destruct (String.eqb_spec (key item) key') as [E|E]; cbn [negb].
  - rewrite IH. destruct (String.eqb_spec other key') as [E'|E']; cbn.
    + reflexivity.
    + destruct (String.eqb_spec (key item) other); [congruence|].
      reflexivity.
  - rewrite hasKey_cons, IH.
    destruct (String.eqb_spec (key item) other) as [<-|_]; cbn.
    + destruct (String.eqb_spec (key item) key'); [contradiction|].
      reflexivity.
    + reflexivity.
Qed.

Lemma filter_key_other (key' : string) (items : list FavouriteStation) :
  hasKey key' items = false ->
  filter (fun item => negb (String.eqb (key item) key')) items = items.
Proof.
  induction items as [|item items IH]; [reflexivity|].
  rewrite hasKey_cons. intro H. apply orb_false_iff in H.
  destruct H as [H1 H2]. cbn. rewrite H1. cbn. now rewrite IH.
Qed.

(** X15. Adding a favourite never duplicates a key: on a stored list of
    entries the result lists the station's key, keeps every other key as it
    was, has pairwise distinct keys whenever the list had, and adding the
    same station again changes nothing.  The new entry goes to the front. *)
Theorem addFavourite_keeps_keys_unique (normalized : list FavouriteStation)
  (station : FavouriteStation) (items : list FavouriteStation) :
  exists items',
    addFavourite normalized station (Items items) = Some (Items items')
    /\ hasKey (key station) items' = true
    /\ (forall other, other <> key station ->
          hasKey other items' = hasKey other items)
    /\ (NoDup (keys items) -> NoDup (keys items'))
    /\ (hasKey (key station) items = false -> items' = station :: items)
    /\ addFavourite normalized station (Items items') = Some (Items items').
Proof.
  eexists. split; [apply addFavourite_items|].
  assert (Hin : hasKey (key station)
                  (if hasKey (key station) items then items
                   else station :: items) = true)
    by (rewrite hasKey_added, String.eqb_refl; reflexivity).
  split; [exact Hin|]. split; [|split; [|split]].
  - intros other Hne. rewrite hasKey_added.
    destruct (String.eqb_spec (key station) other); [congruence|].
    reflexivity.
  - intro Hnd. destruct (hasKey (key station) items) eqn:Hk; [exact Hnd|].
    cbn. constructor; [|exact Hnd].
    intro H. apply hasKey_In in H. congruence.
  - intros ->. reflexivity.
  - rewrite addFavourite_items, Hin. reflexivity.
Qed.

(** X16. Removing a favourite removes every entry of that key and nothing
    else, in place; and removing a station just added to a list that did
    not have it gives the list back. *)
Theorem removeFavourite_removes_key (normalized : list FavouriteStation)
  (key' : string) (items : list FavouriteStation) :
  exists items',
    removeFavourite normalized key' (Items items) = Some (Items items')
    /\ hasKey key' items' = false
    /\ (forall item, In item items' <-> In item items /\ key item <> key')
    /\ (NoDup (keys items) -> NoDup (keys items'))
    /\ (forall station,
          key station = key' -> hasKey key' items = false ->
          match addFavourite normalized station (Items items) with
          | Some added => removeFavourite normalized key' added
          | None => None
          end = Some (Items items)).
Proof.
  eexists. split; [apply removeFavourite_items|].
  split; [|split; [|split]].
  - rewrite hasKey_removed, String.eqb_refl. reflexivity.
  - intro item. rewrite filter_In.
    destruct (String.eqb_spec (key item) key'); cbn; intuition congruence.
  - intro Hnd. unfold keys in *.
    induction items as [|item items IH]; [constructor|].
    cbn in *. inversion Hnd as [|? ? Hnotin Hnd']; subst.
    destruct (negb (String.eqb (key item) key')); [|now apply IH].
    cbn. constructor; [|now apply IH].
    intro Hin. apply Hnotin. apply in_map_iff in Hin.
    destruct Hin as (x & Hx & Hin). apply filter_In in Hin.
    apply in_map_iff. exists x. now split.
  - intros station Hkey Hno. rewrite addFavourite_items, Hkey, Hno.
    rewrite removeFavourite_items. cbn [filter].
    rewrite Hkey, String.eqb_refl. cbn [negb].
    now rewrite (filter_key_other key' items Hno).
Qed.

(** X17. The star of a directory station is a toggle: with the handler of
    the current render, toggling a station flips whether its id is a key of
    the stored list and leaves every other key as it was. *)
Theorem toggleFavourite_flips (station : Directory.Station)
  (items : list FavouriteStation) :
  exists items',
    toggleFavourite items station (Items items) = Some (Items items')
    /\ hasKey (Directory.id station) items'
       = negb (hasKey (Directory.id station) items)
    /\ (forall other, other <> Directory.id station ->
          hasKey other items' = hasKey other items).
Proof.
  unfold toggleFavourite.
  destruct (hasKey (Directory.id station) items) eqn:Hk.
  - eexists. split; [apply removeFavourite_items|]. split.
    + rewrite hasKey_removed, String.eqb_refl. reflexivity.
    + intros other Hne. rewrite hasKey_removed.
      destruct (String.eqb_spec other (Directory.id station));
        [contradiction | reflexivity].
  - eexists. split; [apply addFavourite_items|]. split.
    + rewrite hasKey_added. cbn [key]. rewrite String.eqb_refl. reflexivity.
    + intros other Hne. rewrite hasKey_added. cbn [key].
      destruct (String.eqb_spec (Directory.id station) other);
        [congruence | reflexivity].
Qed.

(** X18. A search result is stored under its [stationuuid] when it has a
    non-empty one and under its [url] otherwise; a result with neither is
    not stored at all; after the call every stored key is still non-empty
    and the result is recognised as a favourite. *)
Theorem addSearchFavourite_keyed (normalized : list FavouriteStation)
  (station : Search.SearchStation) (items : list FavouriteStation) :
  exists items',
    addSearchFavourite normalized station (Items items) = Some (Items items')
    /\ (getFavouriteKey station = ""%string -> items' = items)
    /\ (getFavouriteKey station <> ""%string ->
        hasKey (getFavouriteKey station) items' = true)
    /\ (Forall (fun item => key item <> ""%string) items ->
        Forall (fun item => key item <> ""%string) items')
    /\ (forall uuid, Search.stationuuid station = Some uuid ->
          uuid <> ""%string -> getFavouriteKey station = uuid)
    /\ (Search.stationuuid station = None
        \/ Search.stationuuid station = Some ""%string ->
        getFavouriteKey station = Search.url station).
Proof.
  assert (Hkey1 : forall uuid, Search.stationuuid station = Some uuid ->
                    uuid <> ""%string -> getFavouriteKey station = uuid).
  { intros uuid Hu Hne. unfold getFavouriteKey. rewrite Hu.
    destruct (String.eqb_spec uuid ""); [contradiction | reflexivity]. }
  assert (Hkey2 : Search.stationuuid station = None
                  \/ Search.stationuuid station = Some ""%string ->
                  getFavouriteKey station = Search.url station).
  { unfold getFavouriteKey. intros [-> | ->]; reflexivity. }
  unfold addSearchFavourite.
  destruct (String.eqb_spec (getFavouriteKey station) "") as [E|E].
  - exists items. repeat split; auto; intro H; contradiction.
  - eexists. split; [apply addFavourite_items|].
    split; [intro H; contradiction|]. split; [|split; [|split; assumption]].
    + intros _. rewrite hasKey_added. cbn [key].
      rewrite String.eqb_refl. reflexivity.
    + intro Hall. cbn [key].
      destruct (hasKey (getFavouriteKey station) items); [exact Hall|].
      constructor; [exact E | exact Hall].
Qed.

End FavouriteFacts.

(** ** The search cache *)

Section CacheFacts.

Import Cache.

Lemma mapGet_mapSet_same (k : string) (v : list Search.SearchStation)
  (m : CacheMap) : mapGet k (mapSet k v m) = Some v.
Proof.
  induction m as [|[k' v'] m IH]; cbn; [now rewrite String.eqb_refl|].
  destruct (String.eqb k' k) eqn:E; cbn; rewrite E; [reflexivity | exact IH].
Qed.

Lemma mapGet_mapSet_other (k k0 : string) (v : list Search.SearchStation)
  (m : CacheMap) : k0 <> k -> mapGet k (mapSet k0 v m) = mapGet k m.
Proof.
  intro Hne. induction m as [|[k' v'] m IH]; cbn.
  - destruct (String.eqb_spec k0 k); [contradiction | reflexivity].
  - destruct (String.eqb_spec k' k0) as [->|Hk]; cbn.
    + destruct (String.eqb_spec k0 k); [contradiction | reflexivity].
    + destruct (String.eqb k' k); [reflexivity | exact IH].
Qed.

Lemma find_last (f : SearchCacheEntry -> bool) (l : list SearchCacheEntry)
  (e : SearchCacheEntry) :
  find f (rev (e :: l))
  = match find f (rev l) with
    | Some x => Some x
    | None => if f e then Some e else None
    end.
Proof.
  cbn [rev]. induction (rev l) as [|x r IH]; cbn; [reflexivity|].
  destruct (f x); [reflexivity | exact IH].
Qed.

(** The rebuilt map holds, for each key, the results of the last entry of
    that key. *)
Lemma rebuild_from (k : string) (entries : list SearchCacheEntry) :
  forall m,
    mapGet k (fold_left
                (fun cacheMap entry =>
                   mapSet (key entry) (results entry) cacheMap) entries m)
    = match find (fun entry => String.eqb (key entry) k) (rev entries) with
      | Some entry => Some (results entry)
      | None => mapGet k m
      end.
Proof.
  induction entries as [|e entries IH]; intro m; [reflexivity|].
  cbn [fold_left]. rewrite IH, find_last.
  destruct (find _ (rev entries)); [reflexivity|].
  destruct (String.eqb_spec (key e) k) as [<-|Hne].
  - apply mapGet_mapSet_same.
  - now apply mapGet_mapSet_other.
Qed.

Lemma filtered_keys (key' : string) (prev : list SearchCacheEntry) :
  ~ In key' (keys (filter (fun entry => negb (String.eqb (key entry) key'))
                          prev)).
Proof.
  unfold keys. rewrite in_map_iff. intros (x & Hx & Hin).
  apply filter_In in Hin. destruct Hin as [_ Hn].
  rewrite Hx, String.eqb_refl in Hn. discriminate.
Qed.

Lemma NoDup_keys_filter (f : SearchCacheEntry -> bool)
  (l : list SearchCacheEntry) :
  NoDup (keys l) -> NoDup (keys (filter f l)).
Proof.
  unfold keys. induction l as [|x l IH]; intro Hnd; [constructor|].
  cbn in *. inversion Hnd as [|? ? Hnotin Hnd']; subst.
  destruct (f x); [|now apply IH].
  cbn. constructor; [|now apply IH].
  intro Hin. apply Hnotin. apply in_map_iff in Hin.
  destruct Hin as (y & Hy & Hin). apply filter_In in Hin.
  apply in_map_iff. exists y. now split.
Qed.

Lemma firstn_In {A : Type} (n : nat) (l : list A) (x : A) :
  In x (firstn n l) -> In x l.
Proof.
  intro H. rewrite <- (firstn_skipn n l). apply in_or_app. now left.
Qed.

Lemma NoDup_keys_firstn (n : nat) (l : list SearchCacheEntry) :
  NoDup (keys l) -> NoDup (keys (firstn n l)).
Proof.
  unfold keys. revert n; induction l as [|x l IH]; intros n Hnd.
  - rewrite firstn_nil. constructor.
  - destruct n as [|n]; [constructor|]. cbn in *.
    inversion Hnd as [|? ? Hnotin Hnd']; subst.
    constructor; [|now apply IH].
    intro Hin. apply Hnotin. apply in_map_iff in Hin.
    destruct Hin as (y & Hy & Hin). apply in_map_iff. exists y.
    split; [exact Hy|]. revert Hin. apply firstn_In.
Qed.

(** X19. The search cache is bounded and freshest-first: after an update
    it has at most 20 entries, the entry just stored comes first and is the
    only one of its key, every other entry was there before, and distinct
    keys stay distinct.  When the key is new and the cache is full, it is
    the entries at the end, the ones stored longest ago, that are dropped;
    when the key was cached already, nothing else is dropped. *)
Theorem updateSearchCache_bounded (key' : string)
  (results' : list Search.SearchStation) (now : Z)
  (prev : list SearchCacheEntry) :
  let next := updateSearchCache key' results' now prev in
  (List.length next <= 20)%nat
  /\ hd_error next = Some (mkEntry key' results' now)
  /\ ~ In key' (keys (tl next))
  /\ (forall entry, In entry (tl next) -> In entry prev /\ key entry <> key')
  /\ (NoDup (keys prev) -> NoDup (keys next))
  /\ (~ In key' (keys prev) ->
      next = mkEntry key' results' now :: firstn 19 prev)
  /\ (In key' (keys prev) -> NoDup (keys prev) ->
      (List.length prev <= 20)%nat ->
      List.length next = List.length prev
      /\ forall entry, In entry prev -> key entry <> key' -> In entry next).
Proof.
  intro next. unfold next, updateSearchCache.
  set (keep := fun entry => negb (String.eqb (key entry) key')).
  change (firstn 20 (mkEntry key' results' now :: filter keep prev))
    with (mkEntry key' results' now :: firstn 19 (filter keep prev)).
  cbn [hd_error tl List.length].
  assert (Hnot : ~ In key' (keys (firstn 19 (filter keep prev)))).
  { intro Hin. apply (filtered_keys key' prev). unfold keys in *.
    rewrite <- firstn_map in Hin. now apply firstn_In in Hin. }
  split; [|split; [reflexivity|split; [exact Hnot|split; [|split; [|split]]]]].
  - pose proof (firstn_le_length 19 (filter keep prev)). lia.
  - intros entry Hin. apply firstn_In in Hin. apply filter_In in Hin.
    destruct Hin as [Hin Hk]. split; [exact Hin|].
    unfold keep in Hk. destruct (String.eqb_spec (key entry) key');
      [discriminate | assumption].
  - intro Hnd. unfold keys in *. cbn [map key]. constructor; [exact Hnot|].
    apply NoDup_keys_firstn, NoDup_keys_filter, Hnd.
  - intro Hnew. f_equal. f_equal.
    assert (H : forall l, ~ In key' (keys l) -> filter keep l = l).
    { induction l as [|x l IH]; intro Hn; [reflexivity|]. cbn.
      unfold keep at 1.
      destruct (String.eqb_spec (key x) key') as [E|E].
      - exfalso. apply Hn. left. exact E.
      - cbn. rewrite IH; [reflexivity|]. intro Hin. apply Hn. now right. }
    now apply H.
  - intros Hin Hnd Hlen.
    assert (Hcount : forall l, In key' (keys l) -> NoDup (keys l) ->
                       S (List.length (filter keep l)) = List.length l).
    { induction l as [|x l IH]; intros Hi Hn; [contradiction|].
      cbn in Hi, Hn. inversion Hn as [|? ? Hnotin Hn']; subst.
      cbn [filter List.length]. unfold keep at 1.
      destruct (String.eqb_spec (key x) key') as [E|E]; cbn.
      - f_equal. f_equal.
        assert (H : forall l0, ~ In key' (keys l0) -> filter keep l0 = l0).
        { induction l0 as [|y l0 IH0]; intro Hn0; [reflexivity|]. cbn.
          unfold keep at 1.
          destruct (String.eqb_spec (key y) key') as [E'|E'].
          - exfalso. apply Hn0. left. exact E'.
          - cbn. rewrite IH0; [reflexivity|]. intro H. apply Hn0. now right. }
        apply H. rewrite <- E. exact Hnotin.
      - f_equal. apply IH; [|exact Hn'].
        destruct Hi as [Hi|Hi]; [contradiction | exact Hi]. }
    specialize (Hcount prev Hin Hnd).
    assert (Hall : firstn 19 (filter keep prev) = filter keep prev)
      by (apply firstn_all2; lia).
    rewrite Hall. split; [cbn; lia|].
    intros entry He Hk. right. apply filter_In. split; [exact He|].
    unfold keep. destruct (String.eqb_spec (key entry) key');
      [contradiction | reflexivity].
Qed.

Lemma updateSearchCache_bounded_witness :
  updateSearchCache "jazz" [] 7 [mkEntry "rock" [] 1; mkEntry "pop" [] 2]
  = mkEntry "jazz" [] 7 :: firstn 19 [mkEntry "rock" [] 1; mkEntry "pop" [] 2].
Proof.
  destruct (updateSearchCache_bounded "jazz" [] 7
              [mkEntry "rock" [] 1; mkEntry "pop" [] 2])
    as (_ & _ & _ & _ & _ & H & _).
  apply H. cbn. intuition discriminate.
Defined.

(** X20. Storing and looking up: after an update and the rebuild of the
    map that follows it, the map answers the stored key with the stored
    results; and when the keys of the cache are distinct, every entry of
    the cache is found under its key and a key that the cache lacks is
    a miss. *)
Theorem cache_lookup_after_update (key' : string)
  (results' : list Search.SearchStation) (now : Z)
  (prev : list SearchCacheEntry) :
  mapGet key' (rebuild (updateSearchCache key' results' now prev))
  = Some results'
  /\ (forall cacheMap, mapGet key' (mapSet key' results' cacheMap)
                       = Some results')
  /\ (forall searchCache,
        NoDup (keys searchCache) ->
        (forall entry, In entry searchCache ->
           mapGet (key entry) (rebuild searchCache) = Some (results entry))
        /\ (forall k, ~ In k (keys searchCache) ->
             mapGet k (rebuild searchCache) = None)).
Proof.
  split.
  - unfold rebuild, updateSearchCache.
    set (keep := fun entry => negb (String.eqb (key entry) key')).
    change (firstn 20 (mkEntry key' results' now :: filter keep prev))
      with (mkEntry key' results' now :: firstn 19 (filter keep prev)).
    rewrite rebuild_from, find_last.
    destruct (find _ (rev (firstn 19 (filter keep prev)))) as [e|] eqn:E.
    + exfalso. apply find_some in E. destruct E as [Hin Hk].
      apply in_rev, firstn_In, filter_In in Hin. destruct Hin as [_ Hn].
      unfold keep in Hn. rewrite Hk in Hn. discriminate.
    + cbn [key]. rewrite String.eqb_refl. reflexivity.
  - split; [intro cacheMap; apply mapGet_mapSet_same|].
    intros searchCache Hnd. unfold rebuild. split.
    + intros entry Hin. rewrite rebuild_from.
      destruct (find _ (rev searchCache)) as [e|] eqn:E.
      * apply find_some in E. destruct E as [He Hk].
        apply in_rev in He. apply String.eqb_eq in Hk.
        f_equal. f_equal.
        clear -Hnd Hin He Hk. unfold keys in Hnd.
        induction searchCache as [|x l IH]; [contradiction|].
        cbn in Hnd. inversion Hnd as [|? ? Hnotin Hnd']; subst.
        destruct Hin as [->|Hin], He as [->|He]; try reflexivity.
        -- exfalso. apply Hnotin. rewrite <- Hk. now apply in_map.
        -- exfalso. apply Hnotin. rewrite Hk. now apply in_map.
        -- now apply IH.
      * exfalso.
        assert (Hr : In entry (rev searchCache)) by now apply -> in_rev.
        pose proof (find_none _ _ E entry Hr) as Hf. cbn in Hf.
        rewrite String.eqb_refl in Hf. discriminate.
    + intros k Hk. rewrite rebuild_from.
      destruct (find _ (rev searchCache)) as [e|] eqn:E; [|reflexivity].
      exfalso. apply find_some in E. destruct E as [He Heq].
      apply in_rev in He. apply String.eqb_eq in Heq. apply Hk.
      unfold keys. rewrite <- Heq. now apply in_map.
Qed.

Lemma cache_lookup_after_update_witness :
  mapGet "rock" (rebuild [mkEntry "rock" [] 1; mkEntry "pop" [] 2]) = Some [].
Proof.
  destruct (cache_lookup_after_update "x" [] 0 []) as (_ & _ & H).
  destruct (H [mkEntry "rock" [] 1; mkEntry "pop" [] 2]) as [Hfound _].
  - repeat constructor; cbn; intuition discriminate.
  - apply (Hfound (mkEntry "rock" [] 1)). now left.
Defined.

End CacheFacts.

(** ** Now-playing metadata *)

Section MetadataFacts.

Lemma firstOf_station_level (record : JSON) (stationName : string) :
  stationLevelMetadata record stationName
  = firstOf [stringProperty record "now_playing";
             stringProperty record "title"]
            ("Streaming " ++ stationName)%string.
Proof.
  unfold stationLevelMetadata. cbn [firstOf].
  destruct (stringProperty record "now_playing"); [reflexivity|].
  destruct (stringProperty record "title"); reflexivity.
Qed.

Lemma extractMetadata_channel (data channel : JSON) (stationName : string) :
  (exists m, data = JObject m) \/ (exists l, data = JArray l) ->
  firstChannel data = Some channel -> channel <> JNull ->
  extractMetadata data stationName
  = Returns (Some (firstOf [stringProperty channel "lastPlaying";
                            stringProperty channel "title";
                            stringProperty data "now_playing";
                            stringProperty data "title"]
                           ("Streaming " ++ stationName)%string)).
Proof.
  intros Hrec Hch Hnn. unfold firstChannel in Hch.
  assert (Hbody : extractMetadata data stationName
                  = match property data "channels" with
                    | Some (JArray (JNull :: _)) => ThrowsTypeError
                    | Some (JArray (channel :: _)) =>
                        match stringProperty channel "lastPlaying" with
                        | Some s => Returns (Some s)
                        | None =>
                            match stringProperty channel "title" with
                            | Some s => Returns (Some s)
                            | None =>
                                Returns
                                  (Some (stationLevelMetadata data stationName))
                            end
                        end
                    | _ => Returns (Some (stationLevelMetadata data stationName))
                    end).
  { destruct Hrec as [[m ->] | [l ->]]; reflexivity. }
  rewrite Hbody. clear Hbody.
  destruct (property data "channels") as [[| | | |[|c rest]|]|];
    try discriminate.
  injection Hch as ->.
  rewrite firstOf_station_level. cbn [firstOf].
  destruct channel; try contradiction;
    destruct (stringProperty _ "lastPlaying"); try reflexivity;
    destruct (stringProperty _ "title"); reflexivity.
Qed.

(** X21. The text of the header follows a fixed order of preference: the
    first channel's [lastPlaying], then its [title], then the response's
    [now_playing], then its [title], then "Streaming" and the station name;
    only strings count.  A response that is no object gives no text, a
    first channel that is [null] raises a [TypeError], and in both cases, as
    after a failed request, the header shows "Metadata not available". *)
Theorem metadata_preference (data : JSON) (stationName : string) :
  ((exists m, data = JObject m) \/ (exists l, data = JArray l) ->
   (forall channel,
      firstChannel data = Some channel -> channel <> JNull ->
      extractMetadata data stationName
      = Returns (Some (firstOf [stringProperty channel "lastPlaying";
                                stringProperty channel "title";
                                stringProperty data "now_playing";
                                stringProperty data "title"]
                               ("Streaming " ++ stationName)%string)))
   /\ (firstChannel data = None ->
       extractMetadata data stationName
       = Returns (Some (firstOf [stringProperty data "now_playing";
                                 stringProperty data "title"]
                                ("Streaming " ++ stationName)%string)))
   /\ (firstChannel data = Some JNull ->
       extractMetadata data stationName = ThrowsTypeError
       /\ shownMetadata (loadMetadata (Some data) stationName)
          = "Metadata not available"%string))
  /\ ((forall m, data <> JObject m) -> (forall l, data <> JArray l) ->
      extractMetadata data stationName = Returns None
      /\ shownMetadata (loadMetadata (Some data) stationName)
         = "Metadata not available"%string)
  /\ shownMetadata (loadMetadata None stationName)
     = "Metadata not available"%string.
Proof.
  split; [|split; [|reflexivity]].
  - intro Hrec. split; [|split].
    + intros channel. now apply extractMetadata_channel.
    + intro Hnone. rewrite <- firstOf_station_level.
      unfold firstChannel in Hnone.
      destruct Hrec as [[m ->] | [l ->]]; [|reflexivity].
      unfold extractMetadata.
      destruct (property (JObject m) "channels") as [[| | | |[|c rest]|]|];
        try reflexivity; discriminate.
    + intro Hnull. unfold firstChannel in Hnull.
      assert (He : extractMetadata data stationName = ThrowsTypeError).
      { destruct Hrec as [[m ->] | [l ->]]; [|discriminate].
        unfold extractMetadata.
        destruct (property (JObject m) "channels")
          as [[| | | |[|c rest]|]|]; try discriminate.
        injection Hnull as ->. reflexivity. }
      split; [exact He|]. unfold loadMetadata. rewrite He. reflexivity.
  - intros Hno Hna.
    assert (He : extractMetadata data stationName = Returns None).
    { destruct data; try reflexivity;
        [now contradiction (Hna items) | now contradiction (Hno members)]. }
    split; [exact He|]. unfold loadMetadata. rewrite He. reflexivity.
Qed.

Lemma metadata_preference_witness :
  extractMetadata
    (JObject [("title", JString "Station"); ("now_playing", JNumber 3);
              ("channels",
               JArray [JObject [("title", JString "Song")]])]%string)
    "Alpha"%string
  = Returns (Some "Song"%string).
Proof.
  destruct (metadata_preference
              (JObject [("title", JString "Station");
                        ("now_playing", JNumber 3);
                        ("channels",
                         JArray [JObject [("title", JString "Song")]])]%string)
              "Alpha"%string) as [H _].
  destruct H as [H _]; [left; eexists; reflexivity|].
  apply (H (JObject [("title", JString "Song")]%string));
    [reflexivity | discriminate].
Defined.

End MetadataFacts.

(** ** Search results *)

Section SearchResultFacts.

Variable trim : string -> string.

Lemma nonEmpty_true (s : string) : nonEmpty s = true <-> s <> ""%string.
Proof.
  unfold nonEmpty. destruct (String.eqb_spec s ""); cbn; split; intro H;
    try congruence; try discriminate.
Qed.

Lemma parseItem_record (item : JSON) :
  item <> JNull -> parseItem trim item = Returns (parseRecord trim item).
Proof. destruct item; intro H; try reflexivity. now contradiction H. Qed.

Lemma parseRecord_station (record : JSON) (station : Search.SearchStation) :
  parseRecord trim record = Some station ->
  Search.name station <> ""%string /\ Search.url station <> ""%string
  /\ ~ In ""%string (Search.tags station)
  /\ (forall resolved, stringProperty record "url_resolved" = Some resolved ->
        Search.url station = resolved)
  /\ (stringProperty record "country" = None ->
      Search.country station = "Unknown"%string).
Proof.
  unfold parseRecord.
  match goal with
  | |- context [if ?c then _ else _] => destruct c eqn:Hc
  end; [discriminate|].
  intro H. injection H as <-. cbn [Search.name Search.url Search.tags
                                    Search.country].
  apply orb_false_iff in Hc. destruct Hc as [Hn Hu].
  apply negb_false_iff in Hn, Hu. apply nonEmpty_true in Hn, Hu.
  split; [exact Hn|]. split; [exact Hu|]. split; [|split].
  - destruct (stringProperty record "tags"); [|intros []].
    intro Hin. apply filter_In in Hin. destruct Hin as [_ Hin].
    discriminate Hin.
  - intros resolved Hr. rewrite Hr. reflexivity.
  - intro Hcn. rewrite Hcn. reflexivity.
Qed.

Lemma parseItem_station (item : JSON) (station : Search.SearchStation) :
  parseItem trim item = Returns (Some station) ->
  parseRecord trim item = Some station.
Proof.
  destruct item; cbn; intro H; try discriminate; now injection H.
Qed.

Lemma parseItems_facts (items : list JSON) :
  match parseItems trim items with
  | Returns stations =>
      ~ In JNull items
      /\ (List.length stations <= List.length items)%nat
      /\ forall station, In station stations ->
            exists item, In item items
                         /\ parseItem trim item = Returns (Some station)
  | ThrowsTypeError => In JNull items
  end.
Proof.
  induction items as [|item items IH]; cbn [parseItems].
  - split; [intros []|]. split; [cbn; lia | intros ? []].
  - destruct (parseItem trim item) as [parsed|] eqn:Hp.
    + assert (Hnn : item <> JNull) by (intros ->; discriminate Hp).
      destruct (parseItems trim items) as [stations|].
      * destruct IH as (Hno & Hlen & Hall). split; [|split].
        -- intros [H|H]; [exact (Hnn H) | exact (Hno H)].
        -- destruct parsed; cbn [List.length]; lia.
        -- intros station Hin. destruct parsed as [st|].
           ++ destruct Hin as [<-|Hin].
              ** exists item. split; [now left | exact Hp].
              ** destruct (Hall station Hin) as (it & H1 & H2).
                 exists it. split; [now right | exact H2].
           ++ destruct (Hall station Hin) as (it & H1 & H2).
              exists it. split; [now right | exact H2].
      * now right.
    + left. destruct item; try discriminate Hp. reflexivity.
Qed.

(** X22. What a search can return: every station in the parsed results has
    a non-empty trimmed name, a non-empty URL (the [url_resolved] of the
    item whenever that is a string, even when [url] is set too) and no
    empty tag; items without them are dropped, so there are at most as many
    stations as items; a response that is no array gives no stations; and
    the parse raises a [TypeError] exactly when an item is [null]. *)
Theorem parseResults_wellformed (data : JSON) :
  (forall stations,
     parseResults trim data = Returns stations ->
     (forall station, In station stations ->
        Search.name station <> ""%string /\ Search.url station <> ""%string
        /\ ~ In ""%string (Search.tags station))
     /\ (forall items, data = JArray items ->
           (List.length stations <= List.length items)%nat))
  /\ ((forall items, data <> JArray items) ->
      parseResults trim data = Returns [])
  /\ (forall items, data = JArray items ->
        (parseResults trim data = ThrowsTypeError <-> In JNull items))
  /\ (forall item resolved station,
        stringProperty item "url_resolved" = Some resolved ->
        (resolved = ""%string -> item <> JNull ->
         parseItem trim item = Returns None)
        /\ (parseItem trim item = Returns (Some station) ->
            Search.url station = resolved)).
Proof.
  split; [|split; [|split]].
  - intros stations Hr. split.
    + intros station Hin.
      destruct data; cbn in Hr; try (injection Hr as <-; contradiction).
      pose proof (parseItems_facts items) as Hf. rewrite Hr in Hf.
      destruct Hf as (_ & _ & Hall).
      destruct (Hall station Hin) as (item & _ & Hp).
      apply parseItem_station in Hp.
      destruct (parseRecord_station item station Hp) as (H1 & H2 & H3 & _).
      repeat split; assumption.
    + intros items ->. cbn in Hr.
      pose proof (parseItems_facts items) as Hf. rewrite Hr in Hf.
      apply Hf.
  - intro Hna. destruct data; try reflexivity. now contradiction (Hna items).
  - intros items ->. cbn. pose proof (parseItems_facts items) as Hf.
    destruct (parseItems trim items); split; intro H;
      try discriminate; try reflexivity; try assumption.
    destruct Hf as [Hno _]. contradiction.
  - intros item resolved station Hres. split.
    + intros -> Hnn. rewrite (parseItem_record item Hnn). f_equal.
      unfold parseRecord. rewrite Hres. cbn. rewrite orb_true_r.
      reflexivity.
    + intro Hp. apply parseItem_station in Hp.
      destruct (parseRecord_station item station Hp)
        as (_ & _ & _ & Hu & _). now apply Hu.
Qed.

End SearchResultFacts.

Lemma parseResults_wellformed_witness :
  parseResults (fun s => s)
    (JArray [JObject [("name", JString "Jazz FM");
                      ("url", JString "http://jazz.example/live")]%string;
             JNull])
  = ThrowsTypeError.
Proof.
  destruct (parseResults_wellformed (fun s => s)
              (JArray [JObject [("name", JString "Jazz FM");
                                ("url", JString "http://jazz.example/live")]%string;
                       JNull])) as (_ & _ & H & _).
  apply (H _ eq_refl). right. now left.
Defined.

(** ** Timing of the trigger *)

Section TimingFacts.

(** A tick fires only when the cooldown has passed and the counter that
    the update leaves has reached the threshold. *)
Lemma handle_not_fired (read : option (list byte)) (now : Z) (s : App) :
  ((inject_Z (now - lastSwitchRef s) < cooldownSeconds (settings s) * 1000)%Q
   \/ ((0 < speechSeconds (settings s))%Q
       /\ (doubleAdd (speechSecondsRef s) step
           < speechSeconds (settings s))%Q)) ->
  fired (snd (handle (Tick read now) s)) = false.
Proof.
  intro Hwhy. cbn [handle]. destruct (intervalRef s) as [iv|]; [|reflexivity].
  destruct (analyserRef s) as [bins|] eqn:Ha;
    [|unfold tick; rewrite Ha; reflexivity].
  destruct read as [dataArray|]; [|unfold tick; rewrite Ha; reflexivity].
  apply not_true_is_false. intro Hf.
  apply (tick_fired_iff iv dataArray now s bins Ha) in Hf.
  destruct Hf as [Hthr Hcool]. destruct Hwhy as [Hw|[Hpos Hw]]; [lra|].
  rewrite sample_counter in Hthr. destruct (isSpeechOf _ _); lra.
Qed.

Lemma handle_quiet_switch (read : option (list byte)) (now : Z) (s : App) :
  fired (snd (handle (Tick read now) s)) = false ->
  switched (snd (handle (Tick read now) s)) = false
  /\ currentId (fst (handle (Tick read now) s)) = currentId s.
Proof.
  cbn [handle]. destruct (intervalRef s) as [iv|]; [|split; reflexivity].
  intro Hft.
  assert (Hsw : switched (snd (tick iv read now s)) = false).
  { destruct (analyserRef s) as [bins|] eqn:Ha;
      [|unfold tick; rewrite Ha; reflexivity].
    destruct read as [dataArray|];
      [|unfold tick; rewrite Ha; reflexivity].
    destruct (tick_read iv dataArray now s bins Ha) as (_ & Hfr & ->).
    rewrite Hfr in Hft. now rewrite (trigger_no_fire _ _ Hft). }
  split; [exact Hsw | now apply tick_switched].
Qed.

(** The counter after a tick is [0] or the sum of doubles of the counter
    and [0.2], or the counter itself when nothing was read. *)
Lemma handle_counter_bound (read : option (list byte)) (now : Z) (s : App)
  (a : Q) :
  (0 <= speechSecondsRef s <= a)%Q ->
  (0 <= speechSecondsRef (fst (handle (Tick read now) s)) <= a)%Q
  \/ (0 <= speechSecondsRef (fst (handle (Tick read now) s))
       <= doubleAdd a step)%Q.
Proof.
  intros [H0 Ha].
  cbn [handle]. destruct (intervalRef s) as [iv|]; [|left; now split].
  destruct (analyserRef s) as [bins|] eqn:Han;
    [|unfold tick; rewrite Han; left; now split].
  destruct read as [dataArray|];
    [|unfold tick; rewrite Han; left; now split].
  rewrite (tick_shape iv dataArray now s bins Han).
  destruct (fired _); cbn [speechSecondsRef with_currentId
                           with_speechSecondsRef]; [left; lra|].
  rewrite sample_counter. destruct (isSpeechOf _ _); [right | left; lra].
  split; [now apply doubleAdd_nonneg|].
  apply doubleAdd_le; [exact H0 | unfold step; lra | exact Ha].
Qed.

(** X23. No automatic switch inside the cooldown: from any state, a run of
    ticks whose clocks all read less than [cooldownSeconds * 1000] ms after
    [lastSwitchRef] never fires, however long the speech lasts, and leaves
    [lastSwitchRef] as it was. *)
Theorem no_fire_during_cooldown (stations : list Station)
  (es : list (World * Event)) :
  forall s,
    (0 <= speechSecondsRef s)%Q ->
    Forall (tickWithin (lastSwitchRef s) (cooldownSeconds (settings s) * 1000))
           es ->
    fired (snd (run stations es s)) = false
    /\ lastSwitchRef (fst (run stations es s)) = lastSwitchRef s.
Proof.
  induction es as [|[w e] es IH]; intros s H0 Hall; [split; reflexivity|].
  inversion Hall as [|? ? Hhead Htail]; subst.
  unfold tickWithin in Hhead. cbn [snd] in Hhead.
  destruct e as [read now| | | | |]; try contradiction.
  cbn [run].
  pose proof (handle_not_fired read now s (or_introl Hhead)) as Hhf.
  pose proof (handle_lastSwitch (Tick read now) s Hhf) as Hhl.
  pose proof (handle_counter_nonneg (Tick read now) s H0) as Hh0.
  destruct (handle_loop_fields (Tick read now) s) as (_ & _ & _ & _ & Hk).
  destruct (Hk read now eq_refl) as (Hst' & _).
  destruct (react_after_handle stations w (Tick read now) s)
    as (Hl & Hacc & _ & Hst & Hf & _).
  destruct (react stations w (Tick read now) s) as [s1 c1]. cbn [fst snd] in *.
  specialize (IH s1). rewrite Hst, Hst', Hl, Hhl in IH.
  destruct IH as [IHf IHl]; [now rewrite Hacc | exact Htail |].
  destruct (run stations es s1) as [s2 c2]. cbn [fst snd] in *.
  rewrite fired_app, Hf, Hhf, IHf. split; [reflexivity | congruence].
Qed.

Lemma no_fire_during_cooldown_witness :
  fired (snd (run demoStations (speechTicks demoEpoch 3)
                (with_lastSwitchRef demoEpoch demoPlaying))) = false.
Proof.
  destruct (no_fire_during_cooldown demoStations (speechTicks demoEpoch 3)
              (with_lastSwitchRef demoEpoch demoPlaying)) as [H _];
    [vm_compute; discriminate | | exact H].
  repeat constructor; vm_compute; reflexivity.
Defined.

Lemma accumulated_le (k : nat) (a b : Q) :
  (0 <= a)%Q -> (a <= b)%Q -> (accumulated k a <= accumulated k b)%Q.
Proof.
  revert a b; induction k as [|k IH]; intros a b H0 Hab; [exact Hab|].
  cbn [accumulated]. apply IH; [now apply doubleAdd_nonneg|].
  apply doubleAdd_le; [exact H0 | unfold step; lra | exact Hab].
Qed.

Lemma staysBelow_spec (threshold : Q) (n : nat) (a : Q) :
  staysBelow threshold n a = true
  <-> forall k, (k <= n)%nat -> (accumulated k a < threshold)%Q.
Proof.
  unfold staysBelow. rewrite forallb_forall. split.
  - intros H k Hk. specialize (H k). rewrite in_seq in H.
    apply Qnot_le_lt. intro Hle. apply Qle_bool_iff in Hle.
    rewrite Hle in H. discriminate H. lia.
  - intros H k Hk. apply in_seq in Hk. apply negb_true_iff.
    apply Qlt_le_bool_false. apply H. lia.
Qed.

(** While the sums of doubles that start from a bound of the counter stay
    under the threshold, no tick fires or switches. *)
Lemma ticks_below (stations : list Station) (es : list (World * Event)) :
  forall s a,
    (0 <= speechSecondsRef s <= a)%Q ->
    Forall isTick es ->
    (forall k, (k <= List.length es)%nat ->
               (accumulated k a < speechSeconds (settings s))%Q) ->
    fired (snd (run stations es s)) = false
    /\ switched (snd (run stations es s)) = false
    /\ currentId (fst (run stations es s)) = currentId s.
Proof.
  induction es as [|[w e] es IH]; intros s a Ha Hall Hlt;
    [repeat split|].
  inversion Hall as [|? ? Hhead Htail]; subst.
  unfold isTick in Hhead. cbn [snd] in Hhead.
  destruct e as [read now| | | | |]; try contradiction.
  cbn [run].
  assert (H0 : (accumulated 0 a < speechSeconds (settings s))%Q)
    by (apply Hlt; lia).
  assert (H1 : (accumulated 1 a < speechSeconds (settings s))%Q)
    by (apply Hlt; cbn [List.length]; lia).
  cbn [accumulated] in H0, H1.
  assert (Hstep : (doubleAdd (speechSecondsRef s) step <= doubleAdd a step)%Q)
    by (apply doubleAdd_le; [| unfold step |]; lra).
  assert (Hhf : fired (snd (handle (Tick read now) s)) = false)
    by (apply handle_not_fired; right; lra).
  destruct (handle_quiet_switch read now s Hhf) as [Hsw Hcur].
  destruct (handle_loop_fields (Tick read now) s) as (_ & _ & _ & _ & Hk).
  destruct (Hk read now eq_refl) as (Hst' & _).
  pose proof (handle_counter_bound read now s a Ha) as Hb.
  destruct (react_after_handle stations w (Tick read now) s)
    as (_ & Hacc & Hid & Hst & Hf & Hw & _).
  destruct (react stations w (Tick read now) s) as [s1 c1]. cbn [fst snd] in *.
  destruct Hb as [Hb|Hb].
  - specialize (IH s1 a). rewrite Hst, Hst' in IH.
    destruct IH as (IHf & IHw & IHid);
      [now rewrite Hacc | exact Htail | |].
    { intros k Hk'. apply Hlt. cbn [List.length]. lia. }
    destruct (run stations es s1) as [s2 c2]. cbn [fst snd] in *.
    rewrite fired_app, switched_app, Hf, Hhf, IHf, IHw, Hw, Hsw.
    repeat split. congruence.
  - specialize (IH s1 (doubleAdd a step)). rewrite Hst, Hst' in IH.
    destruct IH as (IHf & IHw & IHid);
      [now rewrite Hacc | exact Htail | |].
    { intros k Hk'. apply (Hlt (S k)). cbn [List.length]. lia. }
    destruct (run stations es s1) as [s2 c2]. cbn [fst snd] in *.
    rewrite fired_app, switched_app, Hf, Hhf, IHf, IHw, Hw, Hsw.
    repeat split. congruence.
Qed.

(** X24. No automatic switch before the threshold: whatever the ticks
    read, the first [n] ticks cannot fire while the counter, had every one
    of them added [0.2] in the arithmetic of doubles, would stay under
    [speechSeconds].  With an empty counter and the default 6 seconds that
    is the first 29 ticks; in a row of speech ticks the thirtieth fires. *)
Theorem no_fire_before_threshold (stations : list Station) :
  (forall es s,
     (0 <= speechSecondsRef s)%Q ->
     Forall isTick es ->
     staysBelow (speechSeconds (settings s)) (List.length es)
                (speechSecondsRef s) = true ->
     fired (snd (run stations es s)) = false
     /\ switched (snd (run stations es s)) = false
     /\ currentId (fst (run stations es s)) = currentId s)
  /\ (forall es s,
        (speechSecondsRef s == 0)%Q ->
        (speechSeconds (settings s) == 6)%Q ->
        Forall isTick es -> (List.length es <= 29)%nat ->
        fired (snd (run stations es s)) = false
        /\ switched (snd (run stations es s)) = false
        /\ currentId (fst (run stations es s)) = currentId s)
  /\ staysBelow 6 29 0 = true
  /\ staysBelow 6 30 0 = false.
Proof.
  split; [|split; [|split; vm_compute; reflexivity]].
  - intros es s H0 Hall Hb.
    apply (ticks_below stations es s (speechSecondsRef s));
      [lra | exact Hall | now apply staysBelow_spec].
  - intros es s Hzero Hthr Hall Hlen.
    apply (ticks_below stations es s 0%Q); [lra | exact Hall |].
    intros k Hk. rewrite Hthr.
    assert (H29 : staysBelow 6 29 0 = true) by (vm_compute; reflexivity).
    apply (proj1 (staysBelow_spec 6 29 0) H29). lia.
Qed.

Lemma no_fire_before_threshold_witness :
  fired (snd (run demoStations (speechTicks demoEpoch 29) demoPlaying))
  = false.
Proof.
  destruct (no_fire_before_threshold demoStations) as [H _].
  destruct (H (speechTicks demoEpoch 29) demoPlaying) as [Hf _];
    [vm_compute; discriminate | repeat constructor
     | vm_compute; reflexivity | exact Hf].
Defined.

End TimingFacts.

(** ** Starting the loop *)

Section StartFacts.

Lemma setupAudioGraph_no_fault (w : World) (s : App) :
  fault w = NoFault -> exists s1, setupAudioGraph w s = Returned s1.
Proof.
  intro Hf. unfold setupAudioGraph, andThen. rewrite Hf. cbn.
  destruct (audioContextRef s); cbn;
    destruct (sourceRef s); cbn;
    destruct (analyserRef s); cbn; eexists; reflexivity.
Qed.

(** X26. Pressing play starts the loop: when Talk Killer is enabled, the
    audio was paused and no browser call fails, the audio's [play] event
    leaves a live interval, whatever happened before (earlier failures
    included); the interval has the band bounds of the context's sample
    rate, and the event itself reads nothing. *)
Theorem play_starts_sampling (stations : list Station) (w : World) (s : App) :
  enabled (settings s) = true -> isPlaying s = false -> fault w = NoFault ->
  graphInvariant s ->
  let s' := fst (react stations w AudioPlay s) in
  isPlaying s' = true
  /\ reads (snd (react stations w AudioPlay s)) = 0%nat
  /\ exists sampleRate,
       audioContextRef s' = Some sampleRate
       /\ intervalRef s'
          = Some (mkInterval (startIndexOf sampleRate 1024)
                             (endIndexOf sampleRate 1024) 1024).
Proof.
  intros Hen Hpl Hf Hg s'.
  assert (Hd : depsChanged s (with_isPlaying true s) = true).
  { unfold depsChanged. cbn [isPlaying with_isPlaying]. rewrite Hpl.
    cbn. now rewrite !orb_true_r. }
  assert (Hp : isPlaying s' = true).
  { unfold s'. rewrite (react_same_id stations w AudioPlay s eq_refl).
    cbn [handle fst snd newFallbacksArray orb]. rewrite Hd.
    destruct (restart_frame w (with_isPlaying true s))
      as (_ & _ & _ & _ & _ & P & _). exact P. }
  destruct (react_after_handle stations w AudioPlay s)
    as (_ & _ & _ & _ & _ & _ & Hr).
  pose proof (react_interval_after stations w AudioPlay s eq_refl) as Hiv.
  destruct (react_invariants stations w AudioPlay s) as [_ HG].
  specialize (HG Hg). fold s' in Hiv, HG.
  cbn [handle fst snd] in Hr, Hiv.
  split; [exact Hp|]. split; [exact Hr|].
  rewrite Hd in Hiv. cbn [newFallbacksArray orb] in Hiv.
  set (s2 := with_isPlaying true s) in Hiv.
  assert (H2 : enabled (settings s2) = true /\ isPlaying s2 = true)
    by now split.
  destruct H2 as [He2 Hp2].
  rewrite restart_as_effect in Hiv.
  set (s0 := with_intervalRef None s2) in Hiv.
  destruct (setupAudioGraph_no_fault w s0 Hf) as [s1 Hs1].
  pose proof (setupAudioGraph_refs w s0) as Hrefs. rewrite Hs1 in Hrefs.
  destruct Hrefs as (Hc & _ & Ha & _).
  unfold detectionEffect in Hiv.
  change (settings s0) with (settings s2) in Hiv.
  change (isPlaying s0) with (isPlaying s2) in Hiv.
  rewrite He2, Hp2, Hs1 in Hiv. cbn [negb orb] in Hiv.
  destruct (analyserRef s1) as [bins|]; [|congruence].
  destruct (audioContextRef s1) as [rate|]; [|congruence].
  cbn [fst intervalRef with_intervalRef] in Hiv.
  destruct HG as [_ Hlive].
  destruct (Hlive _ Hiv) as (rate' & Hc' & Hivq).
  exists rate'. split; [exact Hc'|]. rewrite Hiv, Hivq. reflexivity.
Qed.

Lemma play_starts_sampling_witness :
  isPlaying (fst (react demoStations demoWorld AudioPlay demoStart)) = true.
Proof.
  destruct (play_starts_sampling demoStations demoWorld demoStart) as [H _];
    [reflexivity | reflexivity | reflexivity | | exact H].
  split; cbn; intros; discriminate.
Defined.

End StartFacts.
